(** * The CDP protocol client of tiny-browser ([src/client.ts])

    A shallow embedding of [createClient]: the connection promise, the
    correlation-id counter, the pending-command table, the listener sets, and
    the three handlers installed on the socket.  JavaScript objects owned by
    the platform (promises, callbacks, the socket) are represented by the
    effects the client has on them, recorded in chronological order. *)

From Stdlib Require Import ZArith String List Lia.
From stdpp Require Import gmap strings list fin_maps pretty.

Local Open Scope string_scope.
Local Open Scope list_scope.
Local Open Scope stdpp_scope.
Local Set Warnings "-register-all".

(** ** Values *)

(** What [JSON.parse] returns.  An object is the list of its own properties;
    a property name occurs once (the parser keeps the last duplicate), and
    [assoc] reads the first binding.  Numbers are the integral ones: ids are
    integers, and the counter stays in the range where a JavaScript number
    represents every integer exactly. *)
Inductive json : Type :=
| JNull
| JBool (b : bool)
| JNum (n : Z)
| JStr (s : string)
| JArr (items : list json)
| JObj (fields : list (string * json)).

(** The JavaScript values the client handles: [undefined], parsed JSON, the
    [Error] of a refused command, and the event handed to [ws.onclose]. *)
Inductive value : Type :=
| undefined
| data (j : json)
| ErrorObj (message : string)
| EventObj (type : string).

(** JavaScript truthiness, as tested by [if (x)] and [x ? a : b]. *)
Definition truthy (v : value) : bool :=
  match v with
  | undefined => false
  | data JNull => false
  | data (JBool b) => b
  | data (JNum n) => negb (n =? 0)%Z
  | data (JStr s) => negb (String.eqb s "")
  | data (JArr _) | data (JObj _) => true
  | ErrorObj _ | EventObj _ => true
  end.

Fixpoint assoc (key : string) (fields : list (string * json)) : option json :=
  match fields with
  | [] => None
  | (k, v) :: rest => if String.eqb k key then Some v else assoc key rest
  end.

(** [Object.hasOwn(d, key)] together with the property found. *)
Definition own_property (d : json) (key : string) : option json :=
  match d with
  | JObj fields => assoc key fields
  | _ => None
  end.

(** Property read [d.key] on a parsed value other than [null]: an object
    yields its property or [undefined]; the names read by the client are
    [undefined] on booleans, numbers, strings and arrays. *)
Definition prop (d : json) (key : string) : value :=
  from_option data undefined (own_property d key).

(** An object literal [{ k1: v1, ... }] whose values are all defined. *)
Definition obj (fields : list (string * json)) : json := JObj fields.

(** ** Platform objects *)

Inductive ReadyState : Type := CONNECTING | OPEN | CLOSING | CLOSED.

#[global] Instance ReadyState_eq_dec : EqDecision ReadyState.
Proof. solve_decision. Defined.

(** A promise is known by its identity: the one made by
    [Promise.withResolvers] in [createClient], or the n-th made by
    [sendCommand]. *)
Inductive Promise : Type :=
| connectionPromise
| commandPromise (n : nat).

#[global] Instance Promise_eq_dec : EqDecision Promise.
Proof. solve_decision. Defined.

(** A callback is known by its reference.  The client calls callbacks, and
    a call is recorded with its argument; the body of a callback is no part
    of the client, and what it does to the client while it runs is given
    with the frame that has it called ([Reaction] below). *)
Abbreviation Callback := nat (only parsing).

(** What the client does to the platform. *)
Inductive Effect : Type :=
| WsSend (message : json)            (* ws.send(JSON.stringify(message)) *)
| WsClose                            (* ws.close() *)
| Resolve (p : Promise) (v : value)  (* the resolve function of p *)
| Reject (p : Promise) (v : value)   (* the reject function of p *)
| Call (cb : Callback) (arg : value) (* cb(arg) *)
| Uncaught (error : string)          (* an exception of the handler's own code *)
| Thrown (error : value).            (* an exception of a listener, leaving the handler *)

(** ** The client *)

Record Client : Type := mkClient {
  url : string;
  readyState : ReadyState;                      (* ws.readyState *)
  messageId : Z;                                (* let messageId = 0 *)
  eventListeners : gmap string (list Callback); (* Map<string, Set<callback>> *)
  pendingCommands : gmap Z Promise;             (* Map<number, {resolve, reject}> *)
  promises : nat;                               (* promises made by sendCommand *)
  trace : list Effect;
}.

Definition emit (e : Effect) (c : Client) : Client :=
  mkClient (url c) (readyState c) (messageId c) (eventListeners c)
           (pendingCommands c) (promises c) (trace c ++ [e]).

Definition set_readyState (s : ReadyState) (c : Client) : Client :=
  mkClient (url c) s (messageId c) (eventListeners c)
           (pendingCommands c) (promises c) (trace c).

Definition set_messageId (n : Z) (c : Client) : Client :=
  mkClient (url c) (readyState c) n (eventListeners c)
           (pendingCommands c) (promises c) (trace c).

Definition set_eventListeners (m : gmap string (list Callback)) (c : Client) : Client :=
  mkClient (url c) (readyState c) (messageId c) m
           (pendingCommands c) (promises c) (trace c).

Definition set_pendingCommands (m : gmap Z Promise) (c : Client) : Client :=
  mkClient (url c) (readyState c) (messageId c) (eventListeners c)
           m (promises c) (trace c).

(** [new Promise(...)] inside [sendCommand]: a fresh identity. *)
Definition new_Promise (c : Client) : Promise * Client :=
  (commandPromise (promises c),
   mkClient (url c) (readyState c) (messageId c) (eventListeners c)
            (pendingCommands c) (S (promises c)) (trace c)).

(** [createClient] once [new WebSocket(webSocketUrl)] has handed out a
    socket: the socket is CONNECTING, the registries are empty.  (The
    constructor can also throw; see [Construction] below.) *)
Definition createClient (webSocketUrl : string) : Client :=
  mkClient webSocketUrl CONNECTING 0 ∅ ∅ 0 [].

(** Keys of the two maps are compared by [SameValueZero]: a value finds a
    number key only when it is that number, a string key only when it is
    that string. *)
Definition number_key (v : value) : option Z :=
  match v with data (JNum n) => Some n | _ => None end.

Definition string_key (v : value) : option string :=
  match v with data (JStr s) => Some s | _ => None end.

Definition pending_get (c : Client) (v : value) : option Promise :=
  n ← number_key v; pendingCommands c !! n.

Definition pending_delete (v : value) (c : Client) : Client :=
  match number_key v with
  | Some n => set_pendingCommands (delete n (pendingCommands c)) c
  | None => c
  end.

Definition listeners_get (c : Client) (v : value) : option (list Callback) :=
  s ← string_key v; eventListeners c !! s.

(** [Set.prototype.add]: insertion order, no second copy. *)
Definition Set_add (cb : Callback) (s : list Callback) : list Callback :=
  if bool_decide (cb ∈ s) then s else s ++ [cb].

(** [listeners.forEach((callback) => callback(arg))] over listeners that
    return without calling the client: each is called, in order. *)
Definition forEach_call (arg : value) (listeners : list Callback) (c : Client) : Client :=
  foldl (fun c cb => emit (Call cb arg) c) c listeners.

(** [ws.onopen = () => resolveConnection()]. *)
Definition onopen (c : Client) : Client :=
  emit (Resolve connectionPromise undefined) c.

(** [ws.onclose = (e) => rejectConnection(e)]. *)
Definition onclose (e : value) (c : Client) : Client :=
  emit (Reject connectionPromise e) c.

(** The body of [ws.onmessage] once [JSON.parse] has returned a value other
    than [null]. *)
Definition dispatch (d : json) (c : Client) : Client :=
  match (if truthy (prop d "id") then pending_get c (prop d "id") else None) with
  | Some p =>
      let c := pending_delete (prop d "id") c in
      if truthy (prop d "error")
      then emit (Reject p (prop d "error")) c
      else emit (Resolve p (prop d "result")) c
  | None =>
      if truthy (prop d "method") then
        match listeners_get c (prop d "method") with
        | Some listeners => forEach_call (prop d "params") listeners c
        | None => c
        end
      else c
  end.

(** The text of an incoming frame, given by what [JSON.parse] makes of it:
    a [SyntaxError], or a value. *)
Inductive FrameText : Type :=
| Malformed (text : string)
| Parsed (d : json).

Definition JSON_parse (t : FrameText) : option json :=
  match t with Malformed _ => None | Parsed d => Some d end.

(** [ws.onmessage] when the listeners it calls return without calling the
    client.  [JSON.parse] throws on a malformed text, and reading [data.id]
    throws when the text is [null]. *)
Definition onmessage (event_data : FrameText) (c : Client) : Client :=
  match JSON_parse event_data with
  | None => emit (Uncaught "SyntaxError") c
  | Some JNull => emit (Uncaught "TypeError") c
  | Some d => dispatch d c
  end.

(** An optional string argument as the value the callee sees. *)
Definition string_arg (a : option string) : value :=
  from_option (fun s => data (JStr s)) undefined a.

(** [client.sendCommand(method, params = {}, sessionId?)].  An omitted
    argument is [None]. *)
Definition sendCommand (method : string) (params : option json)
    (sessionId : option string) (c : Client) : Promise * Client :=
  let params := default (obj []) params in
  if negb (bool_decide (readyState c = OPEN)) then
    (* Promise.reject(new Error("WebSocket is not open")) *)
    let '(p, c) := new_Promise c in
    (p, emit (Reject p (ErrorObj "WebSocket is not open")) c)
  else
    let id := (messageId c + 1)%Z in
    let c := set_messageId id c in
    let '(promise, c) := new_Promise c in
    let c := set_pendingCommands (<[id := promise]> (pendingCommands c)) c in
    let message :=
      match (if truthy (string_arg sessionId) then sessionId else None) with
      | Some sessionId =>
          obj [("id", JNum id); ("method", JStr method); ("params", params);
               ("sessionId", JStr sessionId)]
      | None => obj [("id", JNum id); ("method", JStr method); ("params", params)]
      end in
    (promise, emit (WsSend message) c).

(** [client.on(event, callback)]. *)
Definition on (event : string) (callback : Callback) (c : Client) : Client :=
  let m := eventListeners c in
  let m := if bool_decide (is_Some (m !! event)) then m else <[event := []]> m in
  set_eventListeners (<[event := Set_add callback (default [] (m !! event))]> m) c.

(** [client.close()].  The [close] of the socket leaves the OPEN state at
    once: for CLOSING on the platform, for CLOSED in the mock of the test
    suite; the client only ever asks whether the state is OPEN. *)
Definition close (c : Client) : Client :=
  if negb (bool_decide (readyState c = OPEN)) then c
  else set_readyState CLOSING (emit WsClose c).

(** ** Listeners that react *)

(** What a listener can do to the client while it is called: it holds the
    client, and may call its three operations before it returns or throws. *)
Inductive ClientCall : Type :=
| CallSendCommand (method : string) (params : option json) (sessionId : option string)
| CallOn (event : string) (callback : Callback)
| CallClose.

Definition client_call (c : Client) (a : ClientCall) : Client :=
  match a with
  | CallSendCommand method params sessionId => (sendCommand method params sessionId c).2
  | CallOn event callback => on event callback c
  | CallClose => close c
  end.

(** One call of a listener, as the client meets it: the calls it makes on
    the client, in order, and the exception it ends with, if any. *)
Record Reaction : Type := mkReaction {
  does : list ClientCall;
  throws : option value;
}.

(** [listeners.forEach((callback) => callback(arg))] in general.  The set is
    the live one: [forEach] goes through it in insertion order and visits a
    listener added while it runs.  The i-th listener called reacts as the
    i-th of [reactions] says; when the reactions are used up the listeners
    left return without calling the client.  There is no [try]: a listener
    that throws ends the loop, and its exception leaves [ws.onmessage]. *)
Fixpoint forEach_reacting (arg : value) (event : string) (i : nat)
    (reactions : list Reaction) (c : Client) : Client :=
  match reactions with
  | [] => forEach_call arg (drop i (default [] (eventListeners c !! event))) c
  | r :: rest =>
      match default [] (eventListeners c !! event) !! i with
      | None => c
      | Some callback =>
          let c := foldl client_call (emit (Call callback arg) c) (does r) in
          match throws r with
          | Some e => emit (Thrown e) c
          | None => forEach_reacting arg event (S i) rest c
          end
      end
  end.

(** The body of [ws.onmessage] once [JSON.parse] has returned a value other
    than [null], in general. *)
Definition dispatch_reacting (d : json) (reactions : list Reaction) (c : Client) : Client :=
  match (if truthy (prop d "id") then pending_get c (prop d "id") else None) with
  | Some p =>
      let c := pending_delete (prop d "id") c in
      if truthy (prop d "error")
      then emit (Reject p (prop d "error")) c
      else emit (Resolve p (prop d "result")) c
  | None =>
      if truthy (prop d "method") then
        match string_key (prop d "method") with
        | Some event => forEach_reacting (prop d "params") event 0 reactions c
        | None => c
        end
      else c
  end.

(** [ws.onmessage] in general; [onmessage] is the case of no reactions. *)
Definition onmessage_reacting (event_data : FrameText) (reactions : list Reaction)
    (c : Client) : Client :=
  match JSON_parse event_data with
  | None => emit (Uncaught "SyntaxError") c
  | Some JNull => emit (Uncaught "TypeError") c
  | Some d => dispatch_reacting d reactions c
  end.

(** ** Runs *)

(** What can happen to a client: calls of its three operations, and the
    three signals of the socket it has a handler for; a frame comes with the
    reactions of the listeners it has called, or with none when they return
    without calling the client.  (No handler is installed for the error
    event; the socket reports a failed connection by its close event too.) *)
Inductive Action : Type :=
| DoSendCommand (method : string) (params : option json) (sessionId : option string)
| DoOn (event : string) (callback : Callback)
| DoClose
| SocketOpen
| SocketClose (e : value)
| SocketMessage (event_data : FrameText)
| SocketMessageReacting (event_data : FrameText) (reactions : list Reaction).

Definition step (c : Client) (a : Action) : Client :=
  match a with
  | DoSendCommand method params sessionId => (sendCommand method params sessionId c).2
  | DoOn event callback => on event callback c
  | DoClose => close c
  | SocketOpen => onopen (set_readyState OPEN c)
  | SocketClose e => onclose e (set_readyState CLOSED c)
  | SocketMessage event_data => onmessage event_data c
  | SocketMessageReacting event_data reactions => onmessage_reacting event_data reactions c
  end.

(** An action in which no listener reacts. *)
Definition plain (a : Action) : Prop :=
  match a with SocketMessageReacting _ _ => False | _ => True end.

(** The call of a listener as an action. *)
Definition called_by_listener (a : ClientCall) : Action :=
  match a with
  | CallSendCommand method params sessionId => DoSendCommand method params sessionId
  | CallOn event callback => DoOn event callback
  | CallClose => DoClose
  end.

(** The value of a frame that parsed. *)
Definition frame_of (a : Action) : option json :=
  match a with
  | SocketMessage (Parsed d) | SocketMessageReacting (Parsed d) _ => Some d
  | _ => None
  end.

Definition run (acts : list Action) (c : Client) : Client := foldl step c acts.

(** ** Observations on a trace *)

(** How a promise was settled. *)
Inductive Outcome : Type :=
| Fulfilled (v : value)
| Rejected (reason : value).

Definition settles (p : Promise) (e : Effect) : option Outcome :=
  match e with
  | Resolve q v => if bool_decide (q = p) then Some (Fulfilled v) else None
  | Reject q v => if bool_decide (q = p) then Some (Rejected v) else None
  | _ => None
  end.

(** Every call of the resolve or reject function of [p], oldest first. *)
Definition settlements (p : Promise) (tr : list Effect) : list Outcome :=
  omap (settles p) tr.

(** The state of [p]: a promise keeps its first settlement; [None] is a
    promise still pending. *)
Definition promise_state (p : Promise) (tr : list Effect) : option Outcome :=
  head (settlements p tr).

Definition is_call (e : Effect) : option (Callback * value) :=
  match e with Call cb arg => Some (cb, arg) | _ => None end.

(** The callback invocations, oldest first. *)
Definition calls (tr : list Effect) : list (Callback * value) := omap is_call tr.

Definition is_send (e : Effect) : option json :=
  match e with WsSend m => Some m | _ => None end.

(** The frames handed to the socket, oldest first. *)
Definition sent (tr : list Effect) : list json := omap is_send tr.

(** The correlation ids of the frames handed to the socket. *)
Definition sent_ids (tr : list Effect) : list Z :=
  omap (fun m => number_key (prop m "id")) (sent tr).

Definition is_uncaught (e : Effect) : option string :=
  match e with Uncaught err => Some err | _ => None end.

Definition uncaught (tr : list Effect) : list string := omap is_uncaught tr.

Definition is_thrown (e : Effect) : option value :=
  match e with Thrown err => Some err | _ => None end.

(** The exceptions of listeners that left the handler, oldest first. *)
Definition thrown (tr : list Effect) : list value := omap is_thrown tr.

(** What a trace shows of listeners: the calls made, the exceptions that
    left the handler, and the errors of the handler itself. *)
Definition heard (tr : list Effect) : list (Callback * value) * list value * list string :=
  (calls tr, thrown tr, uncaught tr).

(** [new WebSocket(webSocketUrl)] at the head of [createClient]: the platform
    hands out a socket, or throws (on a URL it cannot parse, [undefined]
    included). *)
Inductive Construction : Type :=
| Constructed
| ConstructorThrows (e : value).

(** [await connectionPromise; return client] at the end of [createClient]. *)
Inductive Creation : Type :=
| Suspended
| Returned
| Failed (reason : value).

Definition creation (c : Client) : Creation :=
  match promise_state connectionPromise (trace c) with
  | None => Suspended
  | Some (Fulfilled _) => Returned
  | Some (Rejected e) => Failed e
  end.

(** The call [createClient(webSocketUrl)], after the run [acts] of its
    socket: an exception of the constructor rejects the promise of the
    [async] function at once, and no socket ever signals. *)
Definition createClient_call (ws : Construction) (webSocketUrl : string)
    (acts : list Action) : Creation :=
  match ws with
  | ConstructorThrows e => Failed e
  | Constructed => creation (run acts (createClient webSocketUrl))
  end.

(** What a reply does to the command it answers: [data.error], when truthy,
    rejects; otherwise [data.result] resolves. *)
Definition reply_outcome (d : json) : Outcome :=
  if truthy (prop d "error") then Rejected (prop d "error")
  else Fulfilled (prop d "result").

(** ** Invariant and reachability *)

Record Inv (c : Client) : Prop := mkInv {
  inv_counter : (0 ≤ messageId c)%Z;
  inv_keys : ∀ k p, pendingCommands c !! k = Some p → (0 < k ≤ messageId c)%Z;
  inv_made : ∀ k p, pendingCommands c !! k = Some p →
             ∃ n, p = commandPromise n ∧ (n < promises c)%nat;
  inv_unsettled : ∀ k p, pendingCommands c !! k = Some p → settlements p (trace c) = [];
  inv_inj : ∀ k1 k2 p, pendingCommands c !! k1 = Some p →
            pendingCommands c !! k2 = Some p → k1 = k2;
  inv_unmade : ∀ n, (promises c ≤ n)%nat → settlements (commandPromise n) (trace c) = [];
  inv_sets : ∀ e l, eventListeners c !! e = Some l → NoDup l;
  inv_sent : sent_ids (trace c) = seqZ 1 (messageId c);
}.

(** The states a client can be in: those a run leads to from
    [createClient]. *)
Definition reachable (c : Client) : Prop :=
  ∃ u acts, c = run acts (createClient u).

(** ** Replies to a command *)

(** The first frame of a run whose id is [k]. *)
Fixpoint first_reply (k : Z) (acts : list Action) : option json :=
  match acts with
  | [] => None
  | SocketMessage (Parsed d) :: rest
  | SocketMessageReacting (Parsed d) _ :: rest =>
      if bool_decide (number_key (prop d "id") = Some k) then Some d
      else first_reply k rest
  | _ :: rest => first_reply k rest
  end.

Definition replies_to (k : Z) (a : Action) : Prop :=
  ∃ d, frame_of a = Some d ∧ number_key (prop d "id") = Some k.

(** A promise made earlier that no entry of the table refers to. *)
Definition retired (c : Client) (p : Promise) : Prop :=
  (∃ n, p = commandPromise n ∧ (n < promises c)%nat) ∧
  ∀ k, pendingCommands c !! k ≠ Some p.

(** Commands issued one after the other, no frame arriving in between; each
    comes with the id it was given and the promise it returned. *)
Fixpoint sendCommands (cmds : list (string * option json * option string))
    (c : Client) : list (Z * Promise) * Client :=
  match cmds with
  | [] => ([], c)
  | (method, params, sessionId) :: rest =>
      let r := sendCommand method params sessionId c in
      let rs := sendCommands rest r.2 in
      ((messageId r.2, r.1) :: rs.1, rs.2)
  end.

(** ** Signals of the socket *)

(** What a signal of the socket does to the connection promise. *)
Definition signal (a : Action) : option Outcome :=
  match a with
  | SocketOpen => Some (Fulfilled undefined)
  | SocketClose e => Some (Rejected e)
  | _ => None
  end.

(** ** Listener sets *)

Definition listeners_of (c : Client) (event : string) : list Callback :=
  default [] (eventListeners c !! event).

(** How many of [total] listeners a delivery calls: all of them, unless one
    throws; the listener that throws is the last one called. *)
Fixpoint called (reactions : list Reaction) (total : nat) : nat :=
  match total with
  | 0 => 0
  | S n =>
      match reactions with
      | [] => total
      | r :: rest => match throws r with Some _ => 1 | None => S (called rest n) end
      end
  end.

(** The exception that ends a delivery to [total] listeners, if any. *)
Fixpoint escaping (reactions : list Reaction) (total : nat) : option value :=
  match total, reactions with
  | S n, r :: rest =>
      match throws r with
      | Some e => Some e
      | None => escaping rest n
      end
  | _, _ => None
  end.

(** The callbacks registered for [event] by the calls of one listener, and
    by the listeners of a delivery. *)
Definition registers_in (event : string) (l : list ClientCall) : list Callback :=
  omap (fun a => match a with
                 | CallOn e cb => if bool_decide (e = event) then Some cb else None
                 | _ => None
                 end) l.

Definition registers (event : string) (reactions : list Reaction) : list Callback :=
  r ← reactions; registers_in event (does r).

(** ** The rules of the specification, as stated *)

(** The rule on [sessionId] in the words of the specification: the frame of
    a call carries the field exactly when the caller provided the
    argument. *)
Definition sessionId_sent_iff_provided (c : Client) (method : string)
    (params : option json) (sessionId : option string) : Prop :=
  ∃ message,
    sent (trace (sendCommand method params sessionId c).2) = sent (trace c) ++ [message] ∧
    (is_Some (own_property message "sessionId") ↔ is_Some sessionId).

(** Delivery of an event in the words of the specification: a frame that
    answers no pending command and carries the method name [m] has every
    listener registered for [m] called once, in the order of registration,
    each with the [params] of the frame. *)
Definition delivered_once_in_order (c : Client) (d : json) (m : string)
    (reactions : list Reaction) : Prop :=
  prop d "method" = data (JStr m) → pending_get c (prop d "id") = None →
  let c' := onmessage_reacting (Parsed d) reactions c in
  calls (trace c') =
  calls (trace c) ++ ((fun cb => (cb, prop d "params")) <$> listeners_of c' m).

(** The fields of a frame as the routing rule speaks of them; a text that
    does not parse, or parses to something that is no object, has none. *)
Definition field (t : FrameText) (key : string) : value :=
  from_option (fun d => prop d key) undefined (JSON_parse t).

(** The routing rule in the words of the specification.  (a) A frame whose
    id is that of a pending command resolves or fails that command and is
    consumed: the entry leaves the table and nothing else happens.
    (b) Otherwise a frame carrying a method has every listener registered
    for that method called with its params.  (c) A frame answering no
    command, and carrying no method or one without listeners, is dropped:
    the client is as before, no error raised. *)
Definition routed_as_specified (c : Client) (t : FrameText)
    (reactions : list Reaction) : Prop :=
  let c' := onmessage_reacting t reactions c in
  (∀ p, pending_get c (field t "id") = Some p →
     ∃ o, (∃ v, o = Resolve p v ∨ o = Reject p v) ∧
          c' = emit o (pending_delete (field t "id") c)) ∧
  (pending_get c (field t "id") = None → field t "method" ≠ undefined →
     ∃ more,
       calls (trace c') =
       calls (trace c) ++
       ((fun cb => (cb, field t "params")) <$>
          default [] (listeners_get c (field t "method"))) ++ more) ∧
  (pending_get c (field t "id") = None →
     field t "method" = undefined ∨ default [] (listeners_get c (field t "method")) = [] →
     c' = c).

(** ** The scenarios of the test suite *)

Definition opened : Client := run [SocketOpen] (createClient "ws://devtools/test").

Definition script_parsed_frame : json :=
  obj [("method", JStr "Debugger.scriptParsed"); ("params", obj [("scriptId", JStr "1")])].

(** * Launching and closing the browser ([src/browser.ts]) *)

(** How a call ends: with a value, or with an exception. *)
Inductive Result (A : Type) : Type :=
| Returns (a : A)
| Throws (e : value).

Arguments Returns {A} a.
Arguments Throws {A} e.

(** What the functions of this file do to the host, oldest first. *)
Inductive HostEffect : Type :=
| RunVersion (path : string)              (* new Deno.Command(path, {args: ["--version"]}).output() *)
| Spawn (path : string) (args : list string) (* new Deno.Command(path, {args, ...}).spawn() *)
| Fetch (url : string)                    (* fetch(url) *)
| Delay (ms : Z)                          (* delay(ms) *)
| Kill (signal : string).                 (* process.kill(signal) *)

(** What a request to the version endpoint meets: an error of the network,
    or a response with its [ok] flag and its body. *)
Inductive FetchOutcome : Type :=
| NetworkError
| Response (ok : bool) (body : FrameText).

(** What [process.kill] does: it returns, or throws [Deno.errors.NotFound],
    or throws something else. *)
Inductive KillOutcome : Type :=
| Killed
| KillNotFound
| KillFails (e : value).

(** A [Deno.ChildProcess], as far as [close] looks at it. *)
Record Process : Type := mkProcess {
  kill : string → KillOutcome;                        (* process.kill(signal) *)
}.

(** The host, as far as these functions look at it. *)
Record Host : Type := mkHost {
  os : string;                                        (* Deno.build.os *)
  version_exit : string → option Z;   (* exit code of [path --version]; [None]: it cannot be run *)
  spawn : string → list string → Result Process;      (* command.spawn() *)
  fetch : string → nat → FetchOutcome;               (* what the n-th request to a URL meets *)
}.

Module Browser.

Record Browser : Type := mkBrowser {
  process : Process;
  client : Client;
  webSocketUrl : value;
}.

Definition findExecutablePathCandidates (host : Host) : list string :=
  if String.eqb (os host) "linux" then
    ["google-chrome"; "google-chrome-stable"; "chromium-browser"; "chromium"]
  else if String.eqb (os host) "darwin" then
    ["/Applications/Google Chrome.app/Contents/MacOS/Google Chrome"]
  else [].

(** [checkPath]: the exit code is 0; an exception counts as [false]. *)
Definition checkPath (host : Host) (path : string) : bool :=
  match version_exit host path with
  | Some code => (code =? 0)%Z
  | None => false
  end.

(** The loop of [findChromeExecutable] over the candidates left. *)
Fixpoint for_candidates (host : Host) (candidates : list string)
    : list HostEffect * Result string :=
  match candidates with
  | [] =>
      ([], Throws (ErrorObj "Could not find a compatible browser installed on this system"))
  | path :: rest =>
      if checkPath host path then ([RunVersion path], Returns path)
      else let r := for_candidates host rest in (RunVersion path :: r.1, r.2)
  end.

Definition findChromeExecutable (host : Host) : list HostEffect * Result string :=
  for_candidates host (findExecutablePathCandidates host).

(** The address of the version endpoint for a port. *)
Definition version_url (port : Z) : string :=
  "http://127.0.0.1:" +:+ pretty port +:+ "/json/version".

(** The loop of [retrieveWebSocketUrl]: [n] rounds are left and [i] have
    been made.  A round that throws (the request, the parsing of the body,
    or the read of a property of [null]) or meets a response that is not
    [ok] is followed by a delay and the next round. *)
Fixpoint rounds (host : Host) (url : string) (n i : nat)
    : list HostEffect * Result value :=
  match n with
  | O => ([], Throws (ErrorObj "Failed to connect to the browser's debugger endpoint."))
  | S n' =>
      let next := rounds host url n' (S i) in
      let retry := (Fetch url :: Delay 250 :: next.1, next.2) in
      match fetch host url i with
      | Response true body =>
          match JSON_parse body with
          | Some JNull => retry
          | Some versionInfo => ([Fetch url], Returns (prop versionInfo "webSocketDebuggerUrl"))
          | None => retry
          end
      | _ => retry
      end
  end.

Definition retrieveWebSocketUrl (host : Host) (port : Z) : list HostEffect * Result value :=
  rounds host (version_url port) 20 0.

(** How [launch] ends: with an exception, or in
    [await createClient(webSocketUrl)], to return the browser with the
    client that call gives. *)
Inductive Launch : Type :=
| LaunchThrows (e : value)
| CreateClient (process : Process) (webSocketUrl : value).

Definition launch (host : Host) : list HostEffect * Launch :=
  let port := 9222%Z in
  let found := findChromeExecutable host in
  match found.2 with
  | Throws e => (found.1, LaunchThrows e)
  | Returns chromePath =>
      let args := ["--headless"; "--remote-debugging-port=" +:+ pretty port;
                   "--disable-gpu"; "--no-sandbox"] in
      match spawn host chromePath args with
      | Throws e => (found.1 ++ [Spawn chromePath args], LaunchThrows e)
      | Returns process =>
          let retrieved := retrieveWebSocketUrl host port in
          match retrieved.2 with
          | Throws e => (found.1 ++ [Spawn chromePath args] ++ retrieved.1, LaunchThrows e)
          | Returns webSocketUrl =>
              (found.1 ++ [Spawn chromePath args] ++ retrieved.1,
               CreateClient process webSocketUrl)
          end
      end
  end.

(** How [close] ends: in [await browser.process.status], or with the
    exception of [kill]. *)
Inductive Close : Type :=
| AwaitStatus
| CloseThrows (e : value).

(** [close(browser)]; the client of the browser is the only part of it that
    changes. *)
Definition close (browser : Browser) : Browser * list HostEffect * Close :=
  let browser' := mkBrowser (process browser) (close (client browser))
                            (webSocketUrl browser) in
  match kill (process browser) "SIGINT" with
  | Killed => (browser', [Kill "SIGINT"], AwaitStatus)
  | KillNotFound => (browser', [Kill "SIGINT"], AwaitStatus)
  | KillFails e => (browser', [Kill "SIGINT"], CloseThrows e)
  end.

End Browser.

(** What one round of [retrieveWebSocketUrl] gets out of a request: the
    property [webSocketDebuggerUrl] of the body of an [ok] response that
    parses to something other than [null]; nothing otherwise. *)
Definition usable (o : FetchOutcome) : option value :=
  match o with
  | Response true (Parsed JNull) => None
  | Response true (Parsed versionInfo) => Some (prop versionInfo "webSocketDebuggerUrl")
  | _ => None
  end.

Definition is_fetch (e : HostEffect) : bool :=
  match e with Fetch _ => true | _ => false end.

Definition delay_of (e : HostEffect) : Z :=
  match e with Delay ms => ms | _ => 0 end.

(** The requests made and the time spent in delays. *)
Definition fetches (es : list HostEffect) : nat := length (filter is_fetch es).

Definition waited (es : list HostEffect) : Z := foldr Z.add 0%Z (delay_of <$> es).

(** The flags [launch] starts the browser with. *)
Definition launch_flags : list string :=
  ["--headless"; "--remote-debugging-port=9222"; "--disable-gpu"; "--no-sandbox"].

(** A Linux host with Chromium installed under its last candidate name,
    whose version endpoint answers from the third request on. *)
Definition chromium_host : Host :=
  mkHost "linux"
    (fun path => if String.eqb path "chromium" then Some 0%Z else None)
    (fun _ _ => Returns (mkProcess (fun _ => Killed)))
    (fun _ n => if (n <? 2)%nat then NetworkError
                else Response true
                       (Parsed (obj [("webSocketDebuggerUrl",
                                      JStr "ws://127.0.0.1:9222/devtools/browser/abc")]))).

(** * Pages ([src/page.ts]) *)

Module Page.

(** A value that came out of a reply: JSON, or [undefined]. *)
Definition val (v : option json) : value := from_option data undefined v.

Definition json_of (v : value) : option json :=
  match v with data j => Some j | _ => None end.

(** The [Page] value; its [client] is the client of the world below. *)
Record Page : Type := mkPage {
  targetId : option json;
  sessionId : option json;
}.

(** The frame of a command, as [sendCommand] builds it. *)
Definition command_frame (id : Z) (method : string) (params : json)
    (sessionId : option json) : json :=
  match (if truthy (val sessionId) then sessionId else None) with
  | Some sessionId =>
      obj [("id", JNum id); ("method", JStr method); ("params", params);
           ("sessionId", sessionId)]
  | None => obj [("id", JNum id); ("method", JStr method); ("params", params)]
  end.

(** [client.sendCommand(method, params, sessionId)] as the functions of this
    file call it: the body of [sendCommand], with for session id whatever a
    reply held under that name. *)
Definition sendCommand_untyped (method : string) (params : json)
    (sessionId : option json) (c : Client) : Promise * Client :=
  if negb (bool_decide (readyState c = OPEN)) then
    let '(p, c) := new_Promise c in
    (p, emit (Reject p (ErrorObj "WebSocket is not open")) c)
  else
    let id := (messageId c + 1)%Z in
    let c := set_messageId id c in
    let '(promise, c) := new_Promise c in
    let c := set_pendingCommands (<[id := promise]> (pendingCommands c)) c in
    (promise, emit (WsSend (command_frame id method params sessionId)) c).

(** [const { key } = v]: a [TypeError] on [undefined] and [null]. *)
Definition destructure (v : option json) (key : string) : Result (option json) :=
  match v with
  | None | Some JNull => Throws (ErrorObj "TypeError")
  | Some d => Returns (own_property d key)
  end.

(** An object literal as it is serialized: a property whose value is
    [undefined] is left out. *)
Definition literal (fields : list (string * option json)) : json :=
  JObj (omap (fun f => pair f.1 <$> f.2) fields).

(** The body of an [async] function of this file: it returns, throws, awaits
    a command, makes the navigation promise of [goto], awaits it, or awaits
    [Deno.writeFile]. *)
Inductive Script (A : Type) : Type :=
| Done (a : A)
| Raise (e : value)
| AwaitCommand (method : string) (params : json) (sessionId : option json)
               (k : option json → Script A)
| NewNavigation (timeout : Z) (k : nat → Script A)
| AwaitNavigation (navigation : nat) (k : Script A)
| AwaitWriteFile (path : string) (data : list Byte.byte) (k : Script A).

Arguments Done {A} a.
Arguments Raise {A} e.
Arguments AwaitCommand {A} method params sessionId k.
Arguments NewNavigation {A} timeout k.
Arguments AwaitNavigation {A} navigation k.
Arguments AwaitWriteFile {A} path data k.

Definition newPage : Script Page :=
  AwaitCommand "Target.createTarget" (obj [("url", JStr "about:blank")]) None (fun result =>
  match destructure result "targetId" with
  | Throws e => Raise e
  | Returns targetId =>
      AwaitCommand "Target.attachToTarget"
        (literal [("targetId", targetId); ("flatten", Some (JBool true))]) None (fun result =>
      match destructure result "sessionId" with
      | Throws e => Raise e
      | Returns sessionId =>
          AwaitCommand "Page.enable" (obj []) sessionId (fun _ =>
          Done (mkPage targetId sessionId))
      end)
  end).

(** [goto(page, url, options)]; [timeout] is [options.timeout], [None] when
    the option or the options are left out. *)
Definition goto (page : Page) (url : string) (timeout : option Z) : Script unit :=
  let timeout := default 30000%Z timeout in
  NewNavigation timeout (fun navigationPromise =>
  AwaitCommand "Page.navigate" (obj [("url", JStr url)]) (sessionId page) (fun _ =>
  AwaitNavigation navigationPromise (Done tt))).

Definition closePage (page : Page) : Script unit :=
  AwaitCommand "Target.closeTarget" (literal [("targetId", targetId page)]) None (fun _ =>
  Done tt).

(** [ScreenshotOptions]; an option left out is [None]. *)
Record ScreenshotOptions : Type := mkScreenshotOptions {
  path : string;
  format : option string;
  quality : option Z;
}.

(** [buffer.charCodeAt(i)] on the binary string that [atob] returns: a
    string of characters below 256, as the strings here are. *)
Definition charCodeAt (buffer : string) (i : nat) : option Byte.byte :=
  Ascii.byte_of_ascii <$> String.get i buffer.

(** [new Uint8Array(buffer.length)] and the loop that fills it; a store of
    [NaN] would store 0. *)
Definition u8arr_of (buffer : string) : list Byte.byte :=
  foldl (fun u8arr i => <[i := default Byte.x00 (charCodeAt buffer i)]> u8arr)
        (replicate (String.length buffer) Byte.x00)
        (seq 0 (String.length buffer)).

(** [screenshot(page, options)].  [atob] is the function of the platform: it
    is given what the reply held under [data], and returns the decoded
    binary string or throws. *)
Definition screenshot (atob : option json → Result string) (page : Page)
    (options : ScreenshotOptions) : Script unit :=
  let params := literal [("format", Some (JStr (default "png" (format options))));
                         ("quality", JNum <$> quality options)] in
  AwaitCommand "Page.captureScreenshot" params (sessionId page) (fun result =>
  match destructure result "data" with
  | Throws e => Raise e
  | Returns encoded =>
      match atob encoded with
      | Throws e => Raise e
      | Returns buffer => AwaitWriteFile (path options) (u8arr_of buffer) (Done tt)
      end
  end).

(** The timer of a navigation: never set, set and pending, cleared by
    [clearTimeout], or fired. *)
Inductive Timer : Type := NoTimer | Armed | Cleared | Fired.

(** What one call of [goto] leaves in the world: its timeout, its timer, and
    the calls of [resolve] and [reject] on its navigation promise, oldest
    first.  A navigation is known by the reference of its [onPageLoad]. *)
Record Navigation : Type := mkNavigation {
  timeout : Z;
  timer : Timer;
  outcomes : list Outcome;
}.

Record World : Type := mkWorld {
  client : Client;
  next_callback : nat;                 (* the reference the next closure gets *)
  navigations : gmap nat Navigation;
}.

Definition set_client (c : Client) (w : World) : World :=
  mkWorld c (next_callback w) (navigations w).

(** The state of a navigation promise: its first settlement. *)
Definition navigation_state (n : nat) (w : World) : option Outcome :=
  nav ← navigations w !! n; head (outcomes nav).

(** [new Promise((resolve, reject) => { ... })] in [goto]: the timer is set
    when [timeout > 0], then [onPageLoad] is registered. *)
Definition new_navigation (timeout : Z) (w : World) : nat * World :=
  let onPageLoad := next_callback w in
  let timer := if (0 <? timeout)%Z then Armed else NoTimer in
  (onPageLoad,
   mkWorld (on "Page.loadEventFired" onPageLoad (client w))
           (S (next_callback w))
           (<[onPageLoad := mkNavigation timeout timer []]> (navigations w))).

(** An [async] function between two runs: finished, failed, or suspended in
    an [await]. *)
Inductive Running (A : Type) : Type :=
| Finished (a : A)
| Failed (e : value)
| OnCommand (p : Promise) (k : option json → Script A)
| OnNavigation (navigation : nat) (k : Script A)
| OnWriteFile (path : string) (data : list Byte.byte) (k : Script A).

Arguments Finished {A} a.
Arguments Failed {A} e.
Arguments OnCommand {A} p k.
Arguments OnNavigation {A} navigation k.
Arguments OnWriteFile {A} path data k.

(** [await p] on the promise of a command, and on a navigation promise:
    the function goes on with [next] when the promise is fulfilled, throws
    when it is rejected, and is suspended otherwise. *)
Definition await_command {A : Type} (p : Promise) (k : option json → Script A)
    (next : option json → World → Running A * World) (w : World) : Running A * World :=
  match promise_state p (trace (client w)) with
  | Some (Rejected e) => (Failed e, w)
  | Some (Fulfilled v) => next (json_of v) w
  | None => (OnCommand p k, w)
  end.

Definition await_navigation {A : Type} (navigation : nat) (k : Script A)
    (next : World → Running A * World) (w : World) : Running A * World :=
  match navigation_state navigation w with
  | Some (Rejected e) => (Failed e, w)
  | Some (Fulfilled _) => next w
  | None => (OnNavigation navigation k, w)
  end.

(** Running a body up to its next suspension.  An [await] on a promise
    already settled goes on (or throws) without any event in between. *)
Fixpoint start {A : Type} (s : Script A) : World → Running A * World :=
  match s with
  | Done a => fun w => (Finished a, w)
  | Raise e => fun w => (Failed e, w)
  | AwaitCommand method params sessionId k => fun w =>
      let r := sendCommand_untyped method params sessionId (client w) in
      await_command r.1 k (fun v => start (k v)) (set_client r.2 w)
  | NewNavigation timeout k => fun w =>
      let r := new_navigation timeout w in
      start (k r.1) r.2
  | AwaitNavigation navigation k => await_navigation navigation k (start k)
  | AwaitWriteFile path bytes k => fun w => (OnWriteFile path bytes k, w)
  end.

(** A suspended function goes on once the promise it awaits is settled. *)
Definition resume {A : Type} (r : Running A) (w : World) : Running A * World :=
  match r with
  | OnCommand p k => await_command p k (fun v => start (k v)) w
  | OnNavigation navigation k => await_navigation navigation k (start k) w
  | _ => (r, w)
  end.

(** [onPageLoad = () => { clearTimeout(timeoutId); resolve(); }]; a callback
    that is no [onPageLoad] is opaque. *)
Definition onPageLoad (ref : nat) (w : World) : World :=
  match navigations w !! ref with
  | Some nav =>
      let timer := match timer nav with Armed => Cleared | t => t end in
      mkWorld (client w) (next_callback w)
        (<[ref := mkNavigation (timeout nav) timer (outcomes nav ++ [Fulfilled undefined])]>
           (navigations w))
  | None => w
  end.

(** The callback of [setTimeout]; only a timer that is set and pending
    fires.  The message is the one of the template string for a timeout
    that is an integer up to [MAX_SAFE_INTEGER], which it prints in decimal
    digits; the theorems on the message are about such timeouts. *)
Definition timer_fires (ref : nat) (w : World) : World :=
  match navigations w !! ref with
  | Some nav =>
      match timer nav with
      | Armed =>
          let e := ErrorObj ("Navigation timeout of " +:+ pretty (timeout nav)
                             +:+ " ms exceeded") in
          mkWorld (client w) (next_callback w)
            (<[ref := mkNavigation (timeout nav) Fired (outcomes nav ++ [Rejected e])]>
               (navigations w))
      | _ => w
      end
  | None => w
  end.

(** What happens around a function in flight: a frame arrives, the socket
    closes, a timer fires, the file system reports on a write. *)
Inductive Event : Type :=
| Frame (t : FrameText)
| SocketCloses (e : value)
| TimerFires (ref : nat)
| FileWritten
| WriteFails (e : value).

(** An event in the world: the handler of the client runs, the callbacks it
    called run their bodies.  The body of an [onPageLoad] is known; any other
    listener is taken to return without calling the client, and the theorems
    on frames that call listeners are about worlds where [goto] alone
    listens ([only_navigations]). *)
Definition happen (w : World) (ev : Event) : World :=
  match ev with
  | Frame t =>
      let c := onmessage t (client w) in
      let called := drop (length (calls (trace (client w)))) (calls (trace c)) in
      foldl (fun w call => onPageLoad call.1 w) (set_client c w) called
  | SocketCloses e => set_client (step (client w) (SocketClose e)) w
  | TimerFires ref => timer_fires ref w
  | FileWritten | WriteFails _ => w
  end.

(** One event: a function that awaits [Deno.writeFile] goes on, or throws,
    when the file system reports; any other event runs its handlers, and the
    function goes on if what it awaits is settled. *)
Definition advance {A : Type} (rw : Running A * World) (ev : Event) : Running A * World :=
  match rw.1, ev with
  | OnWriteFile _ _ k, FileWritten => start k rw.2
  | OnWriteFile _ _ _, WriteFails e => (Failed e, rw.2)
  | r, _ => resume r (happen rw.2 ev)
  end.

Definition play {A : Type} (evs : list Event) (rw : Running A * World) : Running A * World :=
  foldl advance rw evs.

(** What [await client.sendCommand(...)] gives when the reply [d] arrives:
    the [result] of the reply, or its [error], thrown. *)
Definition awaited (d : json) : Result (option json) :=
  if truthy (prop d "error") then Throws (prop d "error")
  else Returns (own_property d "result").

(** What [const { key } = await client.sendCommand(...)] gives. *)
Definition taken (d : json) (key : string) : Result (option json) :=
  match awaited d with
  | Throws e => Throws e
  | Returns result => destructure result key
  end.

(** Every callback the client knows got its reference before now. *)
Definition callbacks_known (w : World) : Prop :=
  ∀ event l cb, eventListeners (client w) !! event = Some l → cb ∈ l →
    (cb < next_callback w)%nat.

(** Nobody but [goto] listens for the load event: every listener of
    [Page.loadEventFired] is the [onPageLoad] of a navigation. *)
Definition only_navigations (w : World) : Prop :=
  ∀ cb, cb ∈ listeners_of (client w) "Page.loadEventFired" →
    is_Some (navigations w !! cb).

(** [Number.MAX_SAFE_INTEGER]: up to it, a template string prints an
    integer in decimal digits, all of them. *)
Definition MAX_SAFE_INTEGER : Z := 9007199254740991.

End Page.

(** A world around an open client without listeners, and the replies of a
    browser to [newPage]. *)
Definition open_world : Page.World := Page.mkWorld opened 0 ∅.

Definition created_reply : json :=
  obj [("id", JNum 1); ("result", obj [("targetId", JStr "t1")])].

Definition attached_reply : json :=
  obj [("id", JNum 2); ("result", obj [("sessionId", JStr "s1")])].

Definition enabled_reply : json := obj [("id", JNum 3); ("result", obj [])].

(** A page of that browser, the replies of the browser to its first command,
    and the load event of another session. *)
Definition attached_page : Page.Page := Page.mkPage (Some (JStr "t1")) (Some (JStr "s1")).

Definition done_reply : json := obj [("id", JNum 1); ("result", obj [])].

Definition refused_reply : json :=
  obj [("id", JNum 1);
       ("error", obj [("code", JNum (-32000)); ("message", JStr "Not allowed")])].

Definition shot_reply : json := obj [("id", JNum 1); ("result", obj [("data", JStr "aGk=")])].

(** A decoder that knows one encoding. *)
Definition atob_hi (encoded : option json) : Result string :=
  match encoded with
  | Some (JStr "aGk=") => Returns "hi"
  | _ => Throws (ErrorObj "InvalidCharacterError")
  end.

Definition load_event : json :=
  obj [("method", JStr "Page.loadEventFired"); ("params", obj [("timestamp", JNum 1)]);
       ("sessionId", JStr "s2")].

(** The world after a first navigation of that page, and the reply to the
    next command. *)
Definition navigated_world : Page.World :=
  (Page.play [Page.Frame (Parsed done_reply); Page.Frame (Parsed load_event)]
             (Page.start (Page.goto attached_page "https://example.com" None)
                         open_world)).2.

Definition second_reply : json := obj [("id", JNum 2); ("result", obj [])].

(** * Proofs *)

(** ** The scenarios of the test suite *)

Example happy_path :
  let '(p, c) := sendCommand "Browser.getVersion"
                   (Some (obj [("verbose", JBool true)])) None opened in
  sent (trace c) =
    [obj [("id", JNum 1); ("method", JStr "Browser.getVersion");
          ("params", obj [("verbose", JBool true)])]] ∧
  promise_state p
    (trace (onmessage (Parsed (obj [("id", JNum 1);
                                    ("result", obj [("product", JStr "Chrome")])])) c))
  = Some (Fulfilled (data (obj [("product", JStr "Chrome")]))).
Proof. vm_compute. split; reflexivity. Qed.

Example two_listeners :
  let c := run [DoOn "Network.requestWillBeSent" 1; DoOn "Network.requestWillBeSent" 2;
                SocketMessage (Parsed (obj [("method", JStr "Network.requestWillBeSent");
                                            ("params", obj [("requestId", JStr "1")])]))]
               opened in
  calls (trace c) = [(1, data (obj [("requestId", JStr "1")]));
                     (2, data (obj [("requestId", JStr "1")]))].
Proof. vm_compute. reflexivity. Qed.

(** ** Basic facts *)

(** The second branch of [ws.onmessage]: no truthy method, no listener set
    for the method, or a set to call. *)
Ltac event_cases :=
  destruct (truthy _); [|done]; destruct (listeners_get _ _); [|done].

Lemma trace_emit e c : trace (emit e c) = trace c ++ [e].
Proof. done. Qed.

Lemma settlements_app p tr1 tr2 :
  settlements p (tr1 ++ tr2) = settlements p tr1 ++ settlements p tr2.
Proof. apply omap_app. Qed.

Lemma settlements_snoc p tr e :
  settlements p (tr ++ [e]) = settlements p tr ++ from_option (fun o => [o]) [] (settles p e).
Proof. rewrite settlements_app. unfold settlements at 2. simpl. by destruct (settles p e). Qed.

Lemma sent_ids_snoc tr e :
  sent_ids (tr ++ [e]) =
  sent_ids tr ++ from_option (fun m => from_option (fun k => [k]) [] (number_key (prop m "id")))
                             [] (is_send e).
Proof.
  unfold sent_ids, sent. rewrite !omap_app. f_equal. simpl.
  destruct (is_send e) as [m|]; simpl; [|done]. by destruct (number_key _).
Qed.

Lemma forEach_call_unfold arg l c :
  forEach_call arg l c =
  mkClient (url c) (readyState c) (messageId c) (eventListeners c)
           (pendingCommands c) (promises c) (trace c ++ ((fun cb => Call cb arg) <$> l)).
Proof.
  unfold forEach_call. revert c. induction l as [|cb l IH]; intros c; simpl.
  - rewrite app_nil_r. by destruct c.
  - rewrite IH. simpl. by rewrite <- app_assoc.
Qed.

Lemma settlements_calls p arg (l : list Callback) :
  settlements p ((fun cb => Call cb arg) <$> l) = [].
Proof. induction l; simpl; auto. Qed.

Lemma sent_ids_calls arg (l : list Callback) :
  sent_ids ((fun cb => Call cb arg) <$> l) = [].
Proof. induction l; simpl; auto. Qed.

Lemma Set_add_NoDup cb (s : list Callback) : NoDup s → NoDup (Set_add cb s).
Proof.
  intros Hs. unfold Set_add. case_bool_decide; [done|].
  apply NoDup_app. split; [done|]. split; [|apply NoDup_singleton].
  intros x Hx ->%list_elem_of_singleton. done.
Qed.

Lemma seqZ_succ (n : Z) : (0 ≤ n)%Z → seqZ 1 (n + 1) = seqZ 1 n ++ [(n + 1)%Z].
Proof.
  intros Hn. rewrite <- (Z2Nat.id n) at 1 by done.
  replace (Z.of_nat (Z.to_nat n) + 1)%Z with (Z.of_nat (S (Z.to_nat n))) by lia.
  rewrite seqZ_S, Z2Nat.id by done. f_equal. f_equal. lia.
Qed.

Lemma truthy_number_key v k : number_key v = Some k → truthy v = negb (k =? 0)%Z.
Proof. destruct v as [|[]| |]; simpl; congruence. Qed.

(** ** The invariant of a client *)

Lemma Inv_createClient u : Inv (createClient u).
Proof. split; simpl; try done; try lia. Qed.

Lemma Inv_sendCommand method params sessionId c :
  Inv c → Inv (sendCommand method params sessionId c).2.
Proof.
  intros [Hc Hk Hm Hu Hi Hn Hs Hsent]. unfold sendCommand.
  case_bool_decide as Hopen; simpl.
  - (* OPEN *)
    assert (Hfresh : pendingCommands c !! (messageId c + 1)%Z = None).
    { destruct (pendingCommands c !! (messageId c + 1)%Z) eqn:E; [|done].
      apply Hk in E. lia. }
    split; simpl.
    + lia.
    + intros k p. rewrite lookup_insert. case_decide; [intros; lia|].
      intros H1%Hk. lia.
    + intros k p. rewrite lookup_insert. case_decide.
      * intros [= <-]. eauto.
      * intros (n & -> & ?)%Hm. eauto with lia.
    + intros k p. rewrite lookup_insert, settlements_snoc. simpl. rewrite app_nil_r.
      case_decide.
      * intros [= <-]. by apply Hn.
      * apply Hu.
    + intros k1 k2 p. rewrite !lookup_insert. repeat case_decide; try congruence.
      * intros [= <-] (n & [= ->] & ?)%Hm. lia.
      * intros (n & -> & ?)%Hm [= Heq]. lia.
      * apply Hi.
    + intros n Hle. rewrite settlements_snoc. simpl. rewrite app_nil_r. apply Hn. lia.
    + done.
    + rewrite sent_ids_snoc, Hsent, seqZ_succ by done. f_equal.
      by destruct (if truthy (string_arg sessionId) then sessionId else None).
  - (* not OPEN *)
    split; simpl; try done.
    + intros k p (n & -> & ?)%Hm. eauto with lia.
    + intros k p Hp. rewrite settlements_snoc. simpl.
      destruct (Hm _ _ Hp) as (n & -> & ?).
      rewrite bool_decide_eq_false_2 by (intros [=]; lia). simpl.
      rewrite app_nil_r. eapply Hu; eauto.
    + intros n Hle. rewrite settlements_snoc. simpl.
      rewrite bool_decide_eq_false_2 by (intros [=]; lia). simpl.
      rewrite app_nil_r. apply Hn. lia.
    + by rewrite sent_ids_snoc, Hsent; simpl; rewrite app_nil_r.
Qed.

Lemma pending_get_Some c v p :
  pending_get c v = Some p ↔ ∃ k, number_key v = Some k ∧ pendingCommands c !! k = Some p.
Proof.
  unfold pending_get. destruct (number_key v) as [k|]; simpl.
  - split; [eauto|]. by intros (? & [= <-] & ?).
  - split; [done|]. by intros (? & ? & ?).
Qed.

(** A frame whose id is the key of a pending command takes the first branch
    of [ws.onmessage]: allocated ids are positive, hence truthy. *)
Lemma dispatch_reply d c k p :
  Inv c → number_key (prop d "id") = Some k → pendingCommands c !! k = Some p →
  dispatch d c =
  emit (if truthy (prop d "error") then Reject p (prop d "error")
        else Resolve p (prop d "result"))
       (set_pendingCommands (delete k (pendingCommands c)) c).
Proof.
  intros HI Hk Hp. unfold dispatch, pending_get, pending_delete.
  rewrite (truthy_number_key _ _ Hk), Hk. simpl. rewrite Hp.
  pose proof (inv_keys c HI k p Hp).
  destruct (Z.eqb_spec k 0); [lia|]. simpl.
  by destruct (truthy (prop d "error")).
Qed.

(** A frame whose id is the key of no pending command falls through to the
    second branch. *)
Lemma dispatch_event d c :
  pending_get c (prop d "id") = None →
  dispatch d c =
  if truthy (prop d "method") then
    match listeners_get c (prop d "method") with
    | Some listeners => forEach_call (prop d "params") listeners c
    | None => c
    end
  else c.
Proof. intros H. unfold dispatch. rewrite H. by destruct (truthy (prop d "id")). Qed.

Lemma Inv_forEach_call arg l c : Inv c → Inv (forEach_call arg l c).
Proof.
  intros [Hc Hk Hm Hu Hi Hn Hs Hsent]. rewrite forEach_call_unfold.
  split; simpl; try done.
  - intros k p Hp. rewrite settlements_app, settlements_calls, app_nil_r. eauto.
  - intros n Hle. rewrite settlements_app, settlements_calls, app_nil_r. eauto.
  - unfold sent_ids, sent in *. rewrite !omap_app.
    fold (sent ((fun cb => Call cb arg) <$> l)).
    fold (sent_ids ((fun cb => Call cb arg) <$> l)).
    by rewrite sent_ids_calls, app_nil_r.
Qed.

Lemma Inv_dispatch d c : Inv c → Inv (dispatch d c).
Proof.
  intros HI. destruct (pending_get c (prop d "id")) as [p|] eqn:Hget.
  - apply pending_get_Some in Hget as (k & Hk & Hp).
    rewrite (dispatch_reply d c k p) by done.
    destruct HI as [Hc Hkeys Hm Hu Hi Hn Hs Hsent].
    assert (Hsettle : ∀ q, q ≠ p →
      settles q (if truthy (prop d "error") then Reject p (prop d "error")
                 else Resolve p (prop d "result")) = None).
    { intros q Hq. destruct (truthy (prop d "error")); simpl;
        by rewrite bool_decide_eq_false_2. }
    split; simpl; try done.
    + intros k' p'. rewrite lookup_delete. case_decide; [done|]. apply Hkeys.
    + intros k' p'. rewrite lookup_delete. case_decide; [done|]. apply Hm.
    + intros k' p'. rewrite lookup_delete. case_decide as Hne; [done|]. intros Hp'.
      rewrite settlements_snoc, Hsettle; simpl.
      * rewrite app_nil_r. eauto.
      * intros ->. apply Hne. eauto.
    + intros k1 k2 p'. rewrite !lookup_delete. repeat case_decide; try done. apply Hi.
    + intros n Hle. rewrite settlements_snoc, Hsettle; simpl.
      * rewrite app_nil_r. eauto.
      * intros <-. apply Hm in Hp as (n' & [= ->] & ?). lia.
    + rewrite sent_ids_snoc, Hsent. destruct (truthy (prop d "error")); simpl;
        by rewrite app_nil_r.
  - rewrite dispatch_event by done.
    destruct (truthy (prop d "method")); [|done].
    destruct (listeners_get c (prop d "method")); [|done].
    by apply Inv_forEach_call.
Qed.

Lemma Inv_emit_other e c :
  (∀ n, settles (commandPromise n) e = None) → is_send e = None →
  Inv c → Inv (emit e c).
Proof.
  intros He Hsend [Hc Hk Hm Hu Hi Hn Hs Hsent]. split; simpl; try done.
  - intros k p Hp. destruct (Hm _ _ Hp) as (n & -> & _).
    rewrite settlements_snoc, He. simpl. rewrite app_nil_r. eauto.
  - intros n Hle. rewrite settlements_snoc, He. simpl. rewrite app_nil_r. eauto.
  - rewrite sent_ids_snoc, Hsend. simpl. by rewrite app_nil_r.
Qed.

Lemma Inv_set_readyState s c : Inv c → Inv (set_readyState s c).
Proof. by intros []. Qed.

Lemma Inv_on event callback c : Inv c → Inv (on event callback c).
Proof.
  intros [Hc Hk Hm Hu Hi Hn Hs Hsent]. split; simpl; try done.
  intros e l. rewrite lookup_insert. case_decide as He; [|].
  - intros [= <-]. apply Set_add_NoDup. case_bool_decide as Hhas.
    + destruct Hhas as [l' Hl']. rewrite Hl'. simpl. eauto.
    + rewrite lookup_insert_eq. simpl. apply NoDup_nil_2.
  - case_bool_decide; [apply Hs|]. rewrite lookup_insert_ne by done. apply Hs.
Qed.

Lemma Inv_step_plain c a : plain a → Inv c → Inv (step c a).
Proof.
  intros Hplain HI. destruct a as [m ps sid|e cb| | |e|t|t rs]; simpl.
  - by apply Inv_sendCommand.
  - by apply Inv_on.
  - unfold close. case_bool_decide; simpl; [|done].
    apply Inv_set_readyState, Inv_emit_other; done.
  - apply Inv_emit_other; [done..|]. by apply Inv_set_readyState.
  - apply Inv_emit_other; [done..|]. by apply Inv_set_readyState.
  - unfold onmessage. destruct (JSON_parse t) as [d|].
    + destruct d; try by apply Inv_dispatch. by apply Inv_emit_other.
    + by apply Inv_emit_other.
  - done.
Qed.

(** ** Listeners that react *)

Lemma client_call_step c a : client_call c a = step c (called_by_listener a).
Proof. by destruct a. Qed.

Lemma plain_called_by_listener a : plain (called_by_listener a).
Proof. by destruct a. Qed.

Lemma frame_of_called_by_listener a : frame_of (called_by_listener a) = None.
Proof. by destruct a. Qed.

Lemma forEach_call_preserves (P : Client → Prop) arg :
  (∀ c cb, P c → P (emit (Call cb arg) c)) →
  ∀ l c, P c → P (forEach_call arg l c).
Proof.
  intros Hemit l. unfold forEach_call.
  induction l as [|cb l IH]; intros c HP; simpl; [done|]. by apply IH, Hemit.
Qed.

Lemma client_calls_preserve (P : Client → Prop) :
  (∀ c a, P c → P (client_call c a)) →
  ∀ l c, P c → P (foldl client_call c l).
Proof.
  intros Hcall l. induction l as [|a l IH]; intros c HP; simpl; [done|].
  by apply IH, Hcall.
Qed.

(** What holds before a delivery and is kept by every call of a listener,
    by every call a listener makes, and by an exception, holds after it. *)
Lemma forEach_reacting_preserves (P : Client → Prop) arg event :
  (∀ c a, P c → P (client_call c a)) →
  (∀ c cb, P c → P (emit (Call cb arg) c)) →
  (∀ c e, P c → P (emit (Thrown e) c)) →
  ∀ reactions i c, P c → P (forEach_reacting arg event i reactions c).
Proof.
  intros Hcall Hemit Hthrow reactions.
  induction reactions as [|r rest IH]; intros i c HP; cbn [forEach_reacting].
  - by apply forEach_call_preserves.
  - destruct (default [] (eventListeners c !! event) !! i) as [cb|]; [|done].
    assert (P (foldl client_call (emit (Call cb arg) c) (does r)))
      by (apply client_calls_preserve; [done|by apply Hemit]).
    destruct (throws r); [by apply Hthrow|by apply IH].
Qed.

(** A frame with reactions is handled as the frame without, unless it is an
    event: it answers no command and carries a method name that is not
    empty. *)
Lemma onmessage_reacting_cases t rs c :
  onmessage_reacting t rs c = onmessage t c ∨
  ∃ d m, t = Parsed d ∧
    (if truthy (prop d "id") then pending_get c (prop d "id") else None) = None ∧
    prop d "method" = data (JStr m) ∧ m ≠ "" ∧
    onmessage_reacting t rs c = forEach_reacting (prop d "params") m 0 rs c.
Proof.
  destruct t as [text|d]; [by left|].
  assert (d = JNull ∨ d ≠ JNull) as [->|Hd]
    by (destruct d; [by left|by right..]); [by left|].
  assert (onmessage_reacting (Parsed d) rs c = dispatch_reacting d rs c) as ->
    by (by destruct d).
  assert (onmessage (Parsed d) c = dispatch d c) as -> by (by destruct d).
  unfold dispatch_reacting, dispatch.
  destruct (if truthy (prop d "id") then _ else _) as [p|] eqn:Hget; [by left|].
  destruct (truthy (prop d "method")) eqn:Ht; [|by left].
  unfold listeners_get.
  destruct (string_key (prop d "method")) as [m|] eqn:Hm; [|by left].
  right. exists d, m. split; [done|]. split; [done|].
  destruct (prop d "method") as [|[]| |]; try done. simpl in Hm. injection Hm as ->.
  split; [done|]. split; [|done]. intros ->. done.
Qed.

Lemma reacting_preserves (P : Client → Prop) t rs c :
  (∀ c a, P c → P (client_call c a)) →
  (∀ c cb arg, P c → P (emit (Call cb arg) c)) →
  (∀ c e, P c → P (emit (Thrown e) c)) →
  P c → P (onmessage t c) → P (onmessage_reacting t rs c).
Proof.
  intros Hcall Hemit Hthrow HP Hplain.
  destruct (onmessage_reacting_cases t rs c) as [->|(d & m & _ & _ & _ & _ & ->)]; [done|].
  apply forEach_reacting_preserves; [done|intros; by apply Hemit|done|done].
Qed.

Lemma Inv_client_call c a : Inv c → Inv (client_call c a).
Proof. rewrite client_call_step. apply Inv_step_plain, plain_called_by_listener. Qed.

Lemma Inv_step c a : Inv c → Inv (step c a).
Proof.
  intros HI. destruct a as [m ps sid|e cb| | |e|t|t rs];
    try (by apply Inv_step_plain).
  cbn [step]. apply reacting_preserves; try done.
  - intros c' a'. apply Inv_client_call.
  - intros c' cb arg. by apply Inv_emit_other.
  - intros c' e. by apply Inv_emit_other.
  - by apply (Inv_step_plain c (SocketMessage t)).
Qed.

Lemma Inv_run acts c : Inv c → Inv (run acts c).
Proof.
  unfold run. revert c. induction acts as [|a acts IH]; intros c HI; simpl; [done|].
  by apply IH, Inv_step.
Qed.

Lemma Inv_reachable u acts : Inv (run acts (createClient u)).
Proof. apply Inv_run, Inv_createClient. Qed.

(** ** How a run treats one pending command *)

Lemma onmessage_dispatch d c :
  number_key (prop d "id") ≠ None → onmessage (Parsed d) c = dispatch d c.
Proof. by destruct d. Qed.

Lemma pendingCommands_forEach_call arg l c :
  pendingCommands (forEach_call arg l c) = pendingCommands c.
Proof. by rewrite forEach_call_unfold. Qed.

Lemma pendingCommands_dispatch_event d c :
  pending_get c (prop d "id") = None → pendingCommands (dispatch d c) = pendingCommands c.
Proof.
  intros H. rewrite dispatch_event by done.
  event_cases.
  apply pendingCommands_forEach_call.
Qed.

(** An action other than a reply to [k] leaves the entry of [k] in place. *)
Lemma step_keeps_pending_plain c a k p :
  plain a → Inv c → pendingCommands c !! k = Some p → ¬ replies_to k a →
  pendingCommands (step c a) !! k = Some p.
Proof.
  intros Hplain HI Hp Hno. destruct a as [m ps sid|e cb| | |e|t|t rs]; simpl; try done.
  - unfold sendCommand. case_bool_decide; simpl; [|done].
    rewrite lookup_insert_ne; [done|]. apply (inv_keys c HI) in Hp. lia.
  - unfold close. by case_bool_decide.
  - unfold onmessage. destruct t as [s|d]; simpl; [done|].
    destruct d; try done.
    destruct (pending_get c (prop (JObj fields) "id")) as [p'|] eqn:Hget.
    + apply pending_get_Some in Hget as (k' & Hk' & Hp').
      rewrite (dispatch_reply _ c k' p') by done. simpl.
      rewrite lookup_delete_ne; [done|]. intros ->. apply Hno. by eexists.
    + by rewrite pendingCommands_dispatch_event.
Qed.

Lemma step_keeps_pending c a k p :
  Inv c → pendingCommands c !! k = Some p → ¬ replies_to k a →
  pendingCommands (step c a) !! k = Some p.
Proof.
  intros HI Hp Hno. destruct a as [m ps sid|e cb| | |e|t|t rs];
    try (by apply step_keeps_pending_plain).
  cbn [step].
  apply (reacting_preserves (fun c => Inv c ∧ pendingCommands c !! k = Some p) t rs c);
    try done.
  - intros c' a' [HI' Hp']. split; [by apply Inv_client_call|].
    rewrite client_call_step. apply step_keeps_pending_plain; try done.
    + apply plain_called_by_listener.
    + intros (d & Hd & _). by rewrite frame_of_called_by_listener in Hd.
  - intros c' cb arg [HI' Hp']. split; [by apply Inv_emit_other|done].
  - intros c' e [HI' Hp']. split; [by apply Inv_emit_other|done].
  - split; [by apply (Inv_step_plain c (SocketMessage t))|].
    by apply (step_keeps_pending_plain c (SocketMessage t)).
Qed.

Lemma first_reply_cons_other k a acts :
  ¬ replies_to k a → first_reply k (a :: acts) = first_reply k acts.
Proof.
  intros Hno. destruct a as [| | | | |[s|d]|[s|d] rs]; simpl; try done.
  - case_bool_decide; [|done]. exfalso. apply Hno. by eexists.
  - case_bool_decide; [|done]. exfalso. apply Hno. by eexists.
Qed.

Lemma replies_to_dec k a : replies_to k a ∨ ¬ replies_to k a.
Proof.
  destruct (frame_of a) as [d|] eqn:Hd; [|right; intros (? & ? & _); congruence].
  destruct (decide (number_key (prop d "id") = Some k)).
  - left. by exists d.
  - right. intros (d' & Hd' & ?). congruence.
Qed.

(** A frame that answers a pending command is handled the same with and
    without reactions: no listener is called. *)
Lemma step_reply c a d k p :
  Inv c → frame_of a = Some d → number_key (prop d "id") = Some k →
  pendingCommands c !! k = Some p →
  step c a = dispatch d c.
Proof.
  intros HI Ha Hk Hp.
  assert (Hd : d ≠ JNull) by (intros ->; done).
  destruct a as [| | | | |[s|d']|[s|d'] rs]; try done; simpl in Ha; injection Ha as ->.
  - by destruct d.
  - cbn [step]. assert (onmessage_reacting (Parsed d) rs c = dispatch_reacting d rs c) as ->
      by (by destruct d).
    unfold dispatch_reacting, dispatch, pending_get.
    rewrite (truthy_number_key _ _ Hk), Hk. simpl. rewrite Hp.
    pose proof (inv_keys c HI k p Hp). by destruct (Z.eqb_spec k 0); [lia|].
Qed.

Lemma step_retired_plain c a p :
  plain a → Inv c → retired c p →
  retired (step c a) p ∧ settlements p (trace (step c a)) = settlements p (trace c).
Proof.
  intros Hplain HI [(n & -> & Hn) Hout].
  assert (Hsame : ∀ c', promises c' = promises c → pendingCommands c' = pendingCommands c →
            retired c' (commandPromise n)).
  { intros c' Hpr Hpe. split; [exists n; split; [done|lia]|]. by rewrite Hpe. }
  assert (Hquiet : ∀ e c', promises c' = promises c →
            pendingCommands c' = pendingCommands c → trace c' = trace c →
            settles (commandPromise n) e = None →
            retired (emit e c') (commandPromise n) ∧
            settlements (commandPromise n) (trace (emit e c')) =
            settlements (commandPromise n) (trace c)).
  { intros e c' Hpr Hpe Htr He. split; [by apply Hsame|]. simpl.
    by rewrite settlements_snoc, He, Htr, app_nil_r. }
  destruct a as [m ps sid|e cb| | |e|t|t rs]; simpl; [| | | | | |done].
  - unfold sendCommand. case_bool_decide; simpl.
    + rewrite settlements_snoc. simpl. rewrite app_nil_r. split; [|done].
      split; simpl; [exists n; split; [done|lia]|].
      intros k. rewrite lookup_insert. case_decide.
      * intros [=]. lia.
      * apply Hout.
    + rewrite settlements_snoc. simpl.
      rewrite bool_decide_eq_false_2 by (intros [=]; lia). simpl. rewrite app_nil_r.
      split; [|done]. split; simpl; [exists n; split; [done|lia]|done].
  - split; [|done]. by apply Hsame.
  - unfold close. case_bool_decide; simpl.
    + rewrite settlements_snoc. simpl. rewrite app_nil_r.
      split; [|done]. by apply Hsame.
    + split; [|done]. by apply Hsame.
  - by apply Hquiet.
  - by apply Hquiet.
  - unfold onmessage. destruct t as [s|d]; simpl; [by apply Hquiet|].
    destruct (pending_get c (prop d "id")) as [p'|] eqn:Hget.
    + apply pending_get_Some in Hget as (k' & Hk' & Hp').
      assert (d ≠ JNull) by (intros ->; done).
      replace (match d with JNull => emit (Uncaught "TypeError") c | _ => dispatch d c end)
        with (dispatch d c) by (by destruct d).
      rewrite (dispatch_reply _ c k' p') by done. simpl.
      rewrite settlements_snoc.
      assert (p' ≠ commandPromise n) by (intros ->; by apply (Hout k')).
      replace (settles _ _) with (@None Outcome).
      2:{ destruct (truthy (prop d "error")); simpl; by rewrite bool_decide_eq_false_2. }
      simpl. rewrite app_nil_r. split; [|done].
      split; simpl; [exists n; split; [done|lia]|].
      intros k. rewrite lookup_delete. case_decide; [done|apply Hout].
    + assert (Hd : retired (dispatch d c) (commandPromise n) ∧
                   settlements (commandPromise n) (trace (dispatch d c)) =
                   settlements (commandPromise n) (trace c)).
      { rewrite dispatch_event by done.
        destruct (truthy _); [|split; [by apply Hsame|done]].
        destruct (listeners_get _ _); [|split; [by apply Hsame|done]].
        rewrite forEach_call_unfold. simpl.
        rewrite settlements_app, settlements_calls, app_nil_r.
        split; [by apply Hsame|done]. }
      destruct d; try apply Hd. by apply Hquiet.
Qed.

Lemma step_retired c a p :
  Inv c → retired c p →
  retired (step c a) p ∧ settlements p (trace (step c a)) = settlements p (trace c).
Proof.
  intros HI Hr. destruct a as [m ps sid|e cb| | |e|t|t rs];
    try (by apply step_retired_plain).
  cbn [step].
  assert (Hemit : ∀ c' e, (∀ q, settles q e = None) → is_send e = None →
    Inv c' ∧ retired c' p ∧ settlements p (trace c') = settlements p (trace c) →
    Inv (emit e c') ∧ retired (emit e c') p ∧
    settlements p (trace (emit e c')) = settlements p (trace c)).
  { intros c' e He Hs (HI' & Hr' & Heq). split; [by apply Inv_emit_other|].
    split; [exact Hr'|]. by rewrite trace_emit, settlements_snoc, He, app_nil_r. }
  apply (reacting_preserves
           (fun c' => Inv c' ∧ retired c' p ∧
                      settlements p (trace c') = settlements p (trace c)) t rs c).
  - intros c' a' (HI' & Hr' & Heq). split; [by apply Inv_client_call|].
    rewrite client_call_step.
    destruct (step_retired_plain c' (called_by_listener a') p
                (plain_called_by_listener a') HI' Hr') as [? ->]. done.
  - intros c' cb arg. by apply Hemit.
  - intros c' e. by apply Hemit.
  - done.
  - split; [by apply (Inv_step_plain c (SocketMessage t))|].
    by apply (step_retired_plain c (SocketMessage t)).
Qed.

Lemma run_retired acts c p :
  Inv c → retired c p →
  retired (run acts c) p ∧ settlements p (trace (run acts c)) = settlements p (trace c).
Proof.
  unfold run. revert c. induction acts as [|a acts IH]; intros c HI Hr; simpl; [done|].
  destruct (step_retired c a p HI Hr) as [Hr' Heq].
  destruct (IH (step c a) (Inv_step c a HI) Hr') as [Hr'' Heq'].
  split; [done|congruence].
Qed.

Lemma messageId_step_plain c a : plain a → (messageId c ≤ messageId (step c a))%Z.
Proof.
  intros Hplain. destruct a as [m ps sid|e cb| | |e|t|t rs]; simpl; try lia; [| | |done].
  - unfold sendCommand. case_bool_decide; simpl; lia.
  - unfold close. case_bool_decide; simpl; lia.
  - unfold onmessage. destruct t as [s|d]; simpl; [lia|].
    assert (messageId (dispatch d c) = messageId c) as Hd.
    { unfold dispatch, pending_delete.
      destruct (if truthy (prop d "id") then _ else _).
      - destruct (number_key _), (truthy (prop d "error")); done.
      - event_cases.
        by rewrite forEach_call_unfold. }
    destruct d; simpl; rewrite ?Hd; lia.
Qed.

Lemma messageId_step c a : (messageId c ≤ messageId (step c a))%Z.
Proof.
  destruct a as [m ps sid|e cb| | |e|t|t rs]; try (by apply messageId_step_plain).
  cbn [step].
  apply (reacting_preserves (fun c' => (messageId c ≤ messageId c')%Z) t rs c).
  - intros c' a' H. rewrite client_call_step.
    pose proof (messageId_step_plain c' _ (plain_called_by_listener a')). lia.
  - done.
  - done.
  - lia.
  - by apply (messageId_step_plain c (SocketMessage t)).
Qed.

Lemma step_keeps_absent_plain c a k :
  plain a → (k ≤ messageId c)%Z → pendingCommands c !! k = None →
  pendingCommands (step c a) !! k = None.
Proof.
  intros Hplain Hk Hnone.
  destruct a as [m ps sid|e cb| | |e|t|t rs]; simpl; try done.
  - unfold sendCommand. case_bool_decide; simpl; [|done].
    rewrite lookup_insert_ne by lia. done.
  - unfold close. by case_bool_decide.
  - unfold onmessage. destruct t as [s|d]; simpl; [done|].
    assert (pendingCommands (dispatch d c) !! k = None) as Hd.
    { unfold dispatch, pending_delete.
      destruct (if truthy (prop d "id") then _ else _).
      - destruct (number_key _), (truthy (prop d "error")); simpl; try done;
          rewrite lookup_delete; by case_decide.
      - event_cases.
        by rewrite forEach_call_unfold. }
    by destruct d.
Qed.

Lemma step_keeps_absent c a k :
  (k ≤ messageId c)%Z → pendingCommands c !! k = None →
  pendingCommands (step c a) !! k = None.
Proof.
  intros Hk Hnone. destruct a as [m ps sid|e cb| | |e|t|t rs];
    try (by apply step_keeps_absent_plain).
  cbn [step].
  apply (reacting_preserves
           (fun c' => (k ≤ messageId c')%Z ∧ pendingCommands c' !! k = None) t rs c);
    try done.
  - intros c' a' [Hk' Hnone']. rewrite client_call_step. split.
    + pose proof (messageId_step_plain c' _ (plain_called_by_listener a')). lia.
    + apply step_keeps_absent_plain; [apply plain_called_by_listener|done..].
  - split.
    + pose proof (messageId_step_plain c (SocketMessage t) I). simpl in *. lia.
    + by apply (step_keeps_absent_plain c (SocketMessage t)).
Qed.

(** An id already used and no longer pending never becomes pending again. *)
Lemma run_keeps_absent acts c k :
  (k ≤ messageId c)%Z → pendingCommands c !! k = None →
  pendingCommands (run acts c) !! k = None.
Proof.
  unfold run. revert c. induction acts as [|a acts IH]; intros c Hk Hnone; simpl; [done|].
  apply IH; [pose proof (messageId_step c a); lia|]. by apply step_keeps_absent.
Qed.

(** The law of correlation.  Whatever happens after a command became
    pending under id [k], its promise is settled by the first frame whose id
    is [k], with the outcome that frame carries, and by nothing else; the
    entry leaves the table with that frame and not before. *)
Lemma run_settles_by_first_reply acts c k p :
  Inv c → pendingCommands c !! k = Some p →
  settlements p (trace (run acts c)) =
    from_option (fun d => [reply_outcome d]) [] (first_reply k acts) ∧
  pendingCommands (run acts c) !! k =
    match first_reply k acts with Some _ => None | None => Some p end.
Proof.
  revert c. induction acts as [|a acts IH]; intros c HI Hp.
  - simpl. split; [by eapply inv_unsettled|done].
  - destruct (replies_to_dec k a) as [(d & Hd & Hk)|Hno].
    + change (run (a :: acts) c) with (run acts (step c a)).
      assert (first_reply k (a :: acts) = Some d) as ->.
      { destruct a as [| | | | |[s|d']|[s|d'] rs]; try done; simpl in Hd;
          injection Hd as ->; simpl; by rewrite bool_decide_eq_true_2. }
      rewrite (step_reply c a d k p) by done. cbn [from_option].
      pose proof (Inv_dispatch d c HI) as HI'.
      rewrite (dispatch_reply d c k p) in * by done.
      set (c' := emit _ _) in *.
      assert (Hret : retired c' p).
      { split.
        - destruct (inv_made c HI k p Hp) as (n & -> & ?). by exists n.
        - intros k' Hk'. simpl in Hk'. rewrite lookup_delete in Hk'.
          case_decide; [done|]. by pose proof (inv_inj c HI _ _ _ Hp Hk'). }
      destruct (run_retired acts c' p HI' Hret) as [_ ->].
      split.
      * subst c'. simpl. rewrite settlements_snoc, (inv_unsettled c HI k p Hp).
        unfold reply_outcome. destruct (truthy (prop d "error")); simpl;
          by rewrite bool_decide_eq_true_2.
      * apply run_keeps_absent.
        -- subst c'. simpl. apply (inv_keys c HI) in Hp. lia.
        -- subst c'. simpl. apply lookup_delete_eq.
    + rewrite first_reply_cons_other by done.
      change (run (a :: acts) c) with (run acts (step c a)).
      apply IH; [by apply Inv_step|by apply step_keeps_pending].
Qed.

(** The promise returned by [sendCommand] on an open socket is the one
    registered under the freshly allocated id. *)
Lemma sendCommand_open method params sessionId c :
  readyState c = OPEN →
  let r := sendCommand method params sessionId c in
  messageId r.2 = (messageId c + 1)%Z ∧
  r.1 = commandPromise (promises c) ∧
  pendingCommands r.2 = <[(messageId c + 1)%Z := r.1]> (pendingCommands c) ∧
  readyState r.2 = OPEN ∧
  ∃ message, trace r.2 = trace c ++ [WsSend message] ∧
             prop message "id" = data (JNum (messageId c + 1)) ∧
             prop message "method" = data (JStr method) ∧
             prop message "params" = data (default (obj []) params).
Proof.
  intros Hopen. unfold sendCommand. rewrite bool_decide_eq_true_2 by done. simpl.
  repeat split; try done. eexists. split; [done|].
  by destruct (if truthy (string_arg sessionId) then sessionId else None).
Qed.

(** ** Reachable clients *)

Lemma reachable_Inv c : reachable c → Inv c.
Proof. intros (u & acts & ->). apply Inv_reachable. Qed.

Lemma reachable_run acts c : reachable c → reachable (run acts c).
Proof.
  intros (u & acts0 & ->). exists u, (acts0 ++ acts). unfold run. by rewrite foldl_app.
Qed.

(** ** Commands refused on a socket that is not open *)

(** C3.  A call of [sendCommand] while the socket is not OPEN returns a
    promise already rejected with the error "WebSocket is not open"; that
    rejection is the only effect of the call: no frame is handed to the
    socket, the id counter keeps its value and the pending-command table is
    unchanged. *)
Theorem sendCommand_not_open c method params sessionId :
  reachable c → readyState c ≠ OPEN →
  let r := sendCommand method params sessionId c in
  promise_state r.1 (trace r.2) = Some (Rejected (ErrorObj "WebSocket is not open")) ∧
  trace r.2 = trace c ++ [Reject r.1 (ErrorObj "WebSocket is not open")] ∧
  sent (trace r.2) = sent (trace c) ∧
  messageId r.2 = messageId c ∧
  pendingCommands r.2 = pendingCommands c.
Proof.
  intros HI%reachable_Inv Hclosed. unfold sendCommand.
  rewrite bool_decide_eq_false_2 by done. simpl.
  split_and!; try done.
  - unfold promise_state. rewrite settlements_snoc, (inv_unmade c HI) by done.
    simpl. by rewrite bool_decide_eq_true_2.
  - unfold sent. rewrite omap_app. simpl. by rewrite app_nil_r.
Qed.

Lemma sendCommand_not_open_witness :
  let c := run [SocketOpen; DoClose] (createClient "ws://devtools/not-open") in
  reachable c ∧ readyState c ≠ OPEN ∧
  let r := sendCommand "Page.navigate" (Some (obj [("url", JStr "about:blank")])) None c in
  promise_state r.1 (trace r.2) = Some (Rejected (ErrorObj "WebSocket is not open")) ∧
  trace r.2 = trace c ++ [Reject r.1 (ErrorObj "WebSocket is not open")] ∧
  sent (trace r.2) = sent (trace c) ∧
  messageId r.2 = messageId c ∧
  pendingCommands r.2 = pendingCommands c.
Proof.
  assert (Hr : reachable (run [SocketOpen; DoClose] (createClient "ws://devtools/not-open")))
    by (by eexists _, _).
  split; [exact Hr|]. split; [done|].
  apply (sendCommand_not_open _ "Page.navigate" _ None Hr). done.
Defined.

(** ** Replies *)

(** C5.  When the id of a frame is that of a pending command, an error
    payload decides: an [error] that is an object (the payload of the wire
    format) rejects the command's promise with that payload whatever
    [result] holds, and so does every other truthy [error]; a frame without
    [error] resolves the promise with the frame's [result].  ([null],
    [false], [0] and the empty string under [error] count as no error.) *)
Theorem error_takes_precedence c d k p :
  reachable c → number_key (prop d "id") = Some k → pendingCommands c !! k = Some p →
  let c' := onmessage (Parsed d) c in
  (∀ e, prop d "error" = data (JObj e) →
     trace c' = trace c ++ [Reject p (data (JObj e))] ∧
     promise_state p (trace c') = Some (Rejected (data (JObj e)))) ∧
  (truthy (prop d "error") = true →
     trace c' = trace c ++ [Reject p (prop d "error")] ∧
     promise_state p (trace c') = Some (Rejected (prop d "error"))) ∧
  (prop d "error" = undefined ∨ truthy (prop d "error") = false →
     trace c' = trace c ++ [Resolve p (prop d "result")] ∧
     promise_state p (trace c') = Some (Fulfilled (prop d "result"))).
Proof.
  intros HI%reachable_Inv Hk Hp c'. subst c'.
  rewrite onmessage_dispatch by congruence.
  rewrite (dispatch_reply d c k p) by done.
  pose proof (inv_unsettled c HI k p Hp) as Hu.
  assert (Hrej : truthy (prop d "error") = true →
     trace (emit (if truthy (prop d "error") then Reject p (prop d "error")
                  else Resolve p (prop d "result"))
                 (set_pendingCommands (delete k (pendingCommands c)) c))
       = trace c ++ [Reject p (prop d "error")] ∧
     promise_state p (trace (emit (if truthy (prop d "error") then Reject p (prop d "error")
                  else Resolve p (prop d "result"))
                 (set_pendingCommands (delete k (pendingCommands c)) c)))
       = Some (Rejected (prop d "error"))).
  { intros ->. simpl. split; [done|]. unfold promise_state.
    rewrite settlements_snoc, Hu. simpl. by rewrite bool_decide_eq_true_2. }
  split_and!.
  - intros e He. rewrite <- He. apply Hrej. by rewrite He.
  - exact Hrej.
  - intros Hfalsy. assert (truthy (prop d "error") = false) as ->.
    { destruct Hfalsy as [->|]; done. }
    simpl. split; [done|]. unfold promise_state.
    rewrite settlements_snoc, Hu. simpl. by rewrite bool_decide_eq_true_2.
Qed.

Lemma error_takes_precedence_witness :
  let c := (sendCommand "Runtime.evaluate" (Some (obj [("expression", JStr "bad()")]))
              None opened).2 in
  let e := [("code", JNum (-32000)); ("message", JStr "Evaluation failed")] in
  let d := obj [("id", JNum 1); ("result", obj []); ("error", JObj e)] in
  reachable c ∧
  number_key (prop d "id") = Some 1%Z ∧
  pendingCommands c !! 1%Z = Some (commandPromise 0) ∧
  prop d "error" = data (JObj e) ∧
  trace (onmessage (Parsed d) c) = trace c ++ [Reject (commandPromise 0) (data (JObj e))] ∧
  promise_state (commandPromise 0) (trace (onmessage (Parsed d) c))
    = Some (Rejected (data (JObj e))).
Proof.
  intros c e d.
  assert (Hr : reachable c).
  { exists "ws://devtools/test",
      [SocketOpen;
       DoSendCommand "Runtime.evaluate" (Some (obj [("expression", JStr "bad()")])) None].
    reflexivity. }
  split; [exact Hr|]. do 3 (split; [reflexivity|]).
  refine (proj1 (error_takes_precedence c d 1 (commandPromise 0) Hr _ _) e _);
    reflexivity.
Defined.

(** ** The outgoing frame *)

Lemma sendCommand_sent c method params sessionId :
  readyState c = OPEN →
  sent (trace (sendCommand method params sessionId c).2) =
  sent (trace c) ++
  [match sessionId with
   | Some s =>
       if String.eqb s "" then
         obj [("id", JNum (messageId c + 1)); ("method", JStr method);
              ("params", default (obj []) params)]
       else
         obj [("id", JNum (messageId c + 1)); ("method", JStr method);
              ("params", default (obj []) params); ("sessionId", JStr s)]
   | None =>
       obj [("id", JNum (messageId c + 1)); ("method", JStr method);
            ("params", default (obj []) params)]
   end].
Proof.
  intros Hopen. unfold sendCommand. rewrite bool_decide_eq_true_2 by done. simpl.
  unfold sent. rewrite omap_app. simpl. f_equal.
  destruct sessionId as [s|]; simpl; [|done]. by destruct (String.eqb s "").
Qed.

(** C6, as the code has it.  On an open socket the frame of a call carries
    [sessionId] exactly when the caller provided a non-empty string, and then
    with that very string: the field is never sent empty, and it is left out
    both when the argument is omitted and when it is the empty string.  For
    every argument but the empty string this is the rule of the
    specification. *)
Theorem sessionId_sent_iff_nonempty c method params sessionId :
  readyState c = OPEN →
  (∃ message,
     sent (trace (sendCommand method params sessionId c).2) = sent (trace c) ++ [message] ∧
     own_property message "sessionId" =
       match sessionId with
       | Some s => if String.eqb s "" then None else Some (JStr s)
       | None => None
       end) ∧
  (sessionId ≠ Some "" → sessionId_sent_iff_provided c method params sessionId).
Proof.
  intros Hopen. split.
  - eexists. split; [by apply sendCommand_sent|].
    destruct sessionId as [s|]; [|done]. by destruct (String.eqb s "").
  - intros Hne. eexists. split; [by apply sendCommand_sent|].
    destruct sessionId as [s|]; simpl.
    + destruct (String.eqb_spec s ""); [congruence|]. simpl. split; eauto.
    + split; intros [? [=]].
Qed.

Lemma sessionId_sent_iff_nonempty_witness :
  readyState opened = OPEN ∧
  Some "session-123" ≠ Some "" ∧
  sessionId_sent_iff_provided opened "Target.attachToTarget"
    (Some (obj [("targetId", JStr "t1")])) (Some "session-123").
Proof.
  split; [reflexivity|]. split; [discriminate|].
  apply (sessionId_sent_iff_nonempty opened "Target.attachToTarget"
           (Some (obj [("targetId", JStr "t1")])) (Some "session-123"));
    [reflexivity|discriminate].
Defined.

(** C6 fails as stated: a caller that provides the empty string as
    [sessionId] gets a frame without the field. *)
Lemma sessionId_empty_not_sent :
  ¬ sessionId_sent_iff_provided opened "Page.enable" (Some (obj [])) (Some "").
Proof.
  intros (message & Hsent & Hiff).
  rewrite sendCommand_sent in Hsent by reflexivity.
  apply app_inj_tail in Hsent as [_ <-].
  destruct (proj2 Hiff) as [j Hj]; [by eexists|]. discriminate Hj.
Qed.

(** C10.  A call that omits [params] is the call with [{}]: the two leave
    the client in the same state and return the same promise, and on an open
    socket the frame they send holds the empty object under [params]. *)
Theorem params_default_empty_object c method sessionId :
  sendCommand method None sessionId c = sendCommand method (Some (obj [])) sessionId c ∧
  (readyState c = OPEN →
   ∃ message,
     sent (trace (sendCommand method None sessionId c).2) = sent (trace c) ++ [message] ∧
     own_property message "params" = Some (JObj [])).
Proof.
  split; [reflexivity|]. intros Hopen. eexists. split; [by apply sendCommand_sent|].
  destruct sessionId as [s|]; [|done]. by destruct (String.eqb s "").
Qed.

Lemma params_default_empty_object_witness :
  readyState opened = OPEN ∧
  ∃ message,
    sent (trace (sendCommand "Page.enable" None None opened).2)
      = sent (trace opened) ++ [message] ∧
    own_property message "params" = Some (JObj []).
Proof.
  split; [reflexivity|].
  apply (proj2 (params_default_empty_object opened "Page.enable" None)). reflexivity.
Defined.

(** ** Correlation ids *)

(** C8.  The ids of the frames a connection has sent are 1, 2, ..., n in
    this order, n being the value of the counter: they are positive, begin
    at 1, increase strictly, and none occurs twice.  A call on an open
    socket sends the next integer, and registers its promise under it. *)
Theorem correlation_ids_count_from_one u acts :
  let c := run acts (createClient u) in
  let ids := sent_ids (trace c) in
  ids = seqZ 1 (messageId c) ∧
  messageId c = Z.of_nat (length ids) ∧
  Forall (fun k => 0 < k)%Z ids ∧
  (∀ i j a b, ids !! i = Some a → ids !! j = Some b → (i < j)%nat → (a < b)%Z) ∧
  NoDup ids ∧
  (ids = [] ∨ head ids = Some 1%Z) ∧
  ∀ method params sessionId,
    readyState c = OPEN →
    let r := sendCommand method params sessionId c in
    sent_ids (trace r.2) = ids ++ [(messageId c + 1)%Z] ∧
    pendingCommands r.2 !! (messageId c + 1)%Z = Some r.1.
Proof.
  intros c ids. pose proof (Inv_reachable u acts) as HI. fold c in HI.
  pose proof (inv_sent c HI) as Hids. fold ids in Hids.
  pose proof (inv_counter c HI) as Hpos.
  split_and!.
  - done.
  - rewrite Hids, length_seqZ. lia.
  - rewrite Hids. apply Forall_seqZ. lia.
  - intros i j a b. rewrite Hids. intros [-> _]%lookup_seqZ [-> _]%lookup_seqZ. lia.
  - rewrite Hids. apply NoDup_seqZ.
  - rewrite Hids. destruct (decide (messageId c = 0%Z)) as [->|]; [by left|right].
    rewrite seqZ_cons by lia. done.
  - intros method params sessionId Hopen r.
    destruct (sendCommand_open method params sessionId c Hopen)
      as (Hid & Hp & Hpend & _ & message & Htr & Hmid & _).
    fold r in Hid, Hp, Hpend, Htr. split.
    + rewrite Htr, sent_ids_snoc. simpl. by rewrite Hmid.
    + rewrite Hpend. apply lookup_insert_eq.
Qed.

Lemma correlation_ids_count_from_one_witness :
  let c := run [SocketOpen; DoSendCommand "Page.getResourceTree" None None;
                DoSendCommand "Page.getFrameTree" None None]
               (createClient "ws://devtools/concurrent") in
  readyState c = OPEN ∧
  sent_ids (trace (sendCommand "Page.enable" None None c).2)
    = sent_ids (trace c) ++ [(messageId c + 1)%Z] ∧
  pendingCommands (sendCommand "Page.enable" None None c).2 !! (messageId c + 1)%Z
    = Some (sendCommand "Page.enable" None None c).1.
Proof.
  split; [reflexivity|].
  apply (proj2 (proj2 (proj2 (proj2 (proj2 (proj2
           (correlation_ids_count_from_one "ws://devtools/concurrent"
              [SocketOpen; DoSendCommand "Page.getResourceTree" None None;
               DoSendCommand "Page.getFrameTree" None None]))))))
           "Page.enable" None None).
  reflexivity.
Defined.

(** ** Opening the connection *)

Lemma step_connection_plain c a :
  plain a → Inv c →
  settlements connectionPromise (trace (step c a)) =
  settlements connectionPromise (trace c) ++ from_option (fun o => [o]) [] (signal a).
Proof.
  intros Hplain HI. destruct a as [m ps sid|e cb| | |e|t|t rs]; simpl; [| | | | | |done].
  - unfold sendCommand. case_bool_decide; simpl; rewrite settlements_snoc; simpl;
      by rewrite !app_nil_r.
  - by rewrite app_nil_r.
  - rewrite app_nil_r. unfold close. case_bool_decide; simpl; [|done].
    rewrite settlements_snoc. simpl. by rewrite app_nil_r.
  - by rewrite settlements_snoc.
  - by rewrite settlements_snoc.
  - rewrite app_nil_r. destruct t as [s|d].
    { unfold onmessage. cbn [JSON_parse].
      rewrite trace_emit, settlements_snoc. simpl. by rewrite app_nil_r. }
    assert (settlements connectionPromise (trace (dispatch d c))
            = settlements connectionPromise (trace c)) as Hd.
    { destruct (pending_get c (prop d "id")) as [p|] eqn:Hget.
      - apply pending_get_Some in Hget as (k & Hk & Hp).
        rewrite (dispatch_reply d c k p) by done.
        destruct (inv_made c HI k p Hp) as (n & -> & _).
        rewrite trace_emit, settlements_snoc.
        destruct (truthy (prop d "error")); simpl; by rewrite app_nil_r.
      - rewrite dispatch_event by done.
        event_cases.
        rewrite forEach_call_unfold. simpl.
        by rewrite settlements_app, settlements_calls, app_nil_r. }
    destruct d; try exact Hd. unfold onmessage. cbn [JSON_parse].
    rewrite trace_emit, settlements_snoc. simpl. by rewrite app_nil_r.
Qed.

Lemma step_connection c a :
  Inv c →
  settlements connectionPromise (trace (step c a)) =
  settlements connectionPromise (trace c) ++ from_option (fun o => [o]) [] (signal a).
Proof.
  intros HI. destruct a as [m ps sid|e cb| | |e|t|t rs];
    try (by apply step_connection_plain).
  cbn [step signal from_option]. rewrite app_nil_r.
  assert (Hemit : ∀ c' e, settles connectionPromise e = None →
    (∀ n, settles (commandPromise n) e = None) → is_send e = None →
    Inv c' ∧ settlements connectionPromise (trace c') =
             settlements connectionPromise (trace c) →
    Inv (emit e c') ∧ settlements connectionPromise (trace (emit e c')) =
                      settlements connectionPromise (trace c)).
  { intros c' e He Hn Hs [HI' Heq]. split; [by apply Inv_emit_other|].
    by rewrite trace_emit, settlements_snoc, He, app_nil_r. }
  apply (reacting_preserves
           (fun c' => Inv c' ∧ settlements connectionPromise (trace c') =
                                settlements connectionPromise (trace c)) t rs c).
  - intros c' a' [HI' Heq]. split; [by apply Inv_client_call|].
    rewrite client_call_step, step_connection_plain, Heq
      by (done || apply plain_called_by_listener).
    destruct a'; simpl; by rewrite app_nil_r.
  - intros c' cb arg. by apply Hemit.
  - intros c' e. by apply Hemit.
  - done.
  - split; [by apply (Inv_step_plain c (SocketMessage t))|].
    pose proof (step_connection_plain c (SocketMessage t) I HI) as H.
    simpl in H. by rewrite app_nil_r in H.
Qed.

Lemma run_connection acts c :
  Inv c →
  settlements connectionPromise (trace (run acts c)) =
  settlements connectionPromise (trace c) ++ omap signal acts.
Proof.
  revert c. induction acts as [|a acts IH]; intros c HI.
  - simpl. by rewrite app_nil_r.
  - change (run (a :: acts) c) with (run acts (step c a)).
    rewrite IH by (by apply Inv_step). rewrite step_connection by done.
    rewrite <- app_assoc. f_equal. simpl. by destruct (signal a).
Qed.

Lemma omap_signal_none acts : Forall (fun a => signal a = None) acts → omap signal acts = [].
Proof. induction 1 as [|a acts Ha _ IH]; simpl; [done|]. by rewrite Ha. Qed.

Lemma first_signal_split acts o :
  head (omap signal acts) = Some o →
  ∃ pre a post, acts = pre ++ a :: post ∧
                Forall (fun a => signal a = None) pre ∧ signal a = Some o.
Proof.
  induction acts as [|a acts IH]; simpl; [done|].
  destruct (signal a) as [o'|] eqn:Ha; simpl.
  - intros [= ->]. by exists [], a, acts.
  - intros (pre & a' & post & -> & Hpre & Ha')%IH.
    exists (a :: pre), a', post. split; [done|]. split; [by constructor|done].
Qed.

(** C4.  Once the socket is made, creation is decided by its first signal
    (a failed connection is signalled by a close).  It has returned only if
    the first signal was an open, and is suspended as long as the socket has
    signalled nothing; it returns the client once the first signal is open;
    when the first signal is a close, it fails with the event of that close,
    whatever follows, a later open signal included.  When the constructor of
    the socket throws, creation fails with that exception and never
    returns. *)
Theorem creation_follows_first_signal u :
  (∀ ws acts, createClient_call ws u acts = Returned →
     ws = Constructed ∧
     ∃ pre post, acts = pre ++ SocketOpen :: post ∧
                 Forall (fun a => signal a = None) pre) ∧
  (∀ pre, Forall (fun a => signal a = None) pre →
     createClient_call Constructed u pre = Suspended) ∧
  (∀ pre post, Forall (fun a => signal a = None) pre →
     createClient_call Constructed u (pre ++ SocketOpen :: post) = Returned) ∧
  (∀ pre e post, Forall (fun a => signal a = None) pre →
     createClient_call Constructed u (pre ++ SocketClose e :: post) = Failed e) ∧
  (∀ e acts, createClient_call (ConstructorThrows e) u acts = Failed e).
Proof.
  assert (Hc : ∀ acts, creation (run acts (createClient u)) =
            match head (omap signal acts) with
            | None => Suspended
            | Some (Fulfilled _) => Returned
            | Some (Rejected e) => Failed e
            end).
  { intros acts. unfold creation, promise_state.
    by rewrite run_connection by apply Inv_createClient. }
  split_and!.
  - intros [|e] acts; [|done]. cbn [createClient_call]. rewrite Hc.
    destruct (head (omap signal acts)) as [[v|e]|] eqn:Hhead; try done. intros _.
    split; [done|].
    destruct (first_signal_split acts _ Hhead) as (pre & a & post & -> & Hpre & Ha).
    exists pre, post. split; [|done]. by destruct a.
  - intros pre Hpre. cbn [createClient_call]. by rewrite Hc, omap_signal_none.
  - intros pre post Hpre. cbn [createClient_call].
    by rewrite Hc, omap_app, omap_signal_none.
  - intros pre e post Hpre. cbn [createClient_call].
    by rewrite Hc, omap_app, omap_signal_none.
  - done.
Qed.

Lemma creation_follows_first_signal_witness :
  let pre := [DoOn "Page.loadEventFired" 1] in
  Forall (fun a => signal a = None) pre ∧
  createClient_call Constructed "ws://devtools/close-early" pre = Suspended ∧
  createClient_call Constructed "ws://devtools/close-early"
    (pre ++ SocketClose (EventObj "close") :: [SocketOpen]) = Failed (EventObj "close") ∧
  createClient_call Constructed "ws://devtools/close-early"
    (pre ++ SocketOpen :: [SocketClose (EventObj "close")]) = Returned.
Proof.
  intros pre.
  assert (Hpre : Forall (fun a => signal a = None) pre) by (by repeat constructor).
  pose proof (creation_follows_first_signal "ws://devtools/close-early")
    as (_ & Hsusp & Hopen & Hclose & _).
  split; [exact Hpre|]. split; [exact (Hsusp pre Hpre)|].
  split; [exact (Hclose pre _ _ Hpre)|exact (Hopen pre _ Hpre)].
Defined.

(** ** Closing with commands in flight *)

(** C9.  Closing settles no command.  For a command pending under id [k],
    neither [client.close()] nor the close signal of the socket touches the
    table, and in every continuation in which no frame with id [k] arrives
    (a closed connection delivers none) the entry stays in the table and the
    promise stays pending: it is neither resolved nor rejected. *)
Theorem pending_commands_survive_close c k p closing later :
  reachable c → pendingCommands c !! k = Some p →
  closing = DoClose ∨ (∃ e, closing = SocketClose e) →
  first_reply k later = None →
  pendingCommands (step c closing) = pendingCommands c ∧
  settlements p (trace (step c closing)) = [] ∧
  let c' := run (closing :: later) c in
  pendingCommands c' !! k = Some p ∧
  settlements p (trace c') = [] ∧
  promise_state p (trace c') = None.
Proof.
  intros HI%reachable_Inv Hp Hclosing Hlater.
  assert (Hno : ¬ replies_to k closing).
  { intros (d & Hd & _). by destruct Hclosing as [->|[e ->]]. }
  assert (Htable : pendingCommands (step c closing) = pendingCommands c).
  { destruct Hclosing as [->|[e ->]]; simpl; [|done].
    unfold close. by case_bool_decide. }
  pose proof (Inv_step c closing HI) as HI'.
  split; [done|]. split.
  - apply (inv_unsettled _ HI' k). by rewrite Htable.
  - destruct (run_settles_by_first_reply (closing :: later) c k p HI Hp) as [Hs Ht].
    rewrite first_reply_cons_other, Hlater in Hs, Ht by done.
    cbn [from_option] in Hs. cbv zeta. unfold promise_state. by rewrite Hs, Ht.
Qed.

Lemma pending_commands_survive_close_witness :
  let c := (sendCommand "Page.navigate" None None opened).2 in
  let later := [SocketClose (EventObj "close"); DoSendCommand "Page.enable" None None;
                SocketMessage (Parsed (obj [("id", JNum 2); ("result", obj [])]))] in
  pendingCommands c !! 1%Z = Some (commandPromise 0) ∧
  first_reply 1 later = None ∧
  pendingCommands (run (DoClose :: later) c) !! 1%Z = Some (commandPromise 0) ∧
  promise_state (commandPromise 0) (trace (run (DoClose :: later) c)) = None.
Proof.
  intros c later.
  assert (Hr : reachable c).
  { exists "ws://devtools/test", [SocketOpen; DoSendCommand "Page.navigate" None None].
    reflexivity. }
  destruct (pending_commands_survive_close c 1 (commandPromise 0) DoClose later Hr
              eq_refl (or_introl eq_refl) eq_refl) as (_ & _ & Ht & _ & Hs).
  split; [reflexivity|]. split; [reflexivity|]. split; [exact Ht|exact Hs].
Defined.

(** ** Commands in flight together *)

Lemma sendCommands_pending cmds c :
  Inv c → readyState c = OPEN →
  let r := sendCommands cmds c in
  Inv r.2 ∧
  length r.1 = length cmds ∧
  (∀ k p, pendingCommands c !! k = Some p → pendingCommands r.2 !! k = Some p) ∧
  (∀ k p, (k, p) ∈ r.1 → (messageId c < k)%Z ∧ pendingCommands r.2 !! k = Some p) ∧
  NoDup (r.1.*1).
Proof.
  revert c. induction cmds as [|[[m ps] sid] cmds IH]; intros c HI Hopen.
  - simpl. split_and!; try done.
    + intros k p Hin. by apply elem_of_nil in Hin.
    + constructor.
  - destruct (sendCommand_open m ps sid c Hopen) as (Hid & Hp & Hpend & Hopen' & _).
    pose proof (Inv_sendCommand m ps sid c HI) as HI'.
    destruct (IH _ HI' Hopen') as (HI'' & Hlen & Hkeep & Hnew & Hnd).
    simpl. split_and!.
    + done.
    + by rewrite Hlen.
    + intros k p Hkp. apply Hkeep. rewrite Hpend, lookup_insert_ne; [done|].
      apply (inv_keys c HI) in Hkp. lia.
    + intros k p [[= -> ->]|Hin]%elem_of_cons.
      * split; [lia|]. apply Hkeep. rewrite Hpend, Hid. apply lookup_insert_eq.
      * destruct (Hnew k p Hin). split; [lia|done].
    + constructor; [|done]. intros ((k & p) & Hk & Hin)%list_elem_of_fmap.
      simpl in Hk. destruct (Hnew k p Hin). lia.
Qed.

Lemma first_reply_frames k d (frames : list json) :
  d ∈ frames → number_key (prop d "id") = Some k →
  (∀ d', d' ∈ frames → number_key (prop d' "id") = Some k → d' = d) →
  first_reply k (SocketMessage ∘ Parsed <$> frames) = Some d.
Proof.
  intros Hin Hd Huniq. induction frames as [|d0 frames IH]; [by apply elem_of_nil in Hin|].
  simpl. case_bool_decide as Hk.
  - f_equal. apply Huniq; [apply list_elem_of_here|done].
  - apply elem_of_cons in Hin as [->|Hin]; [done|].
    apply IH; [done|]. intros d' Hd'. apply Huniq. by apply list_elem_of_further.
Qed.

(** On a frame whose id is in no entry of the table, [ws.onmessage] settles
    nothing and leaves the table alone. *)
Lemma onmessage_not_a_reply d c q :
  pending_get c (prop d "id") = None →
  settlements q (trace (onmessage (Parsed d) c)) = settlements q (trace c) ∧
  pendingCommands (onmessage (Parsed d) c) = pendingCommands c.
Proof.
  intros Hget.
  assert (settlements q (trace (dispatch d c)) = settlements q (trace c) ∧
          pendingCommands (dispatch d c) = pendingCommands c) as Hd.
  { rewrite dispatch_event by done.
    event_cases.
    rewrite forEach_call_unfold. simpl.
    by rewrite settlements_app, settlements_calls, app_nil_r. }
  destruct d; try exact Hd. unfold onmessage. cbn [JSON_parse].
  rewrite trace_emit, settlements_snoc. simpl. by rewrite app_nil_r.
Qed.

(** C2.  Issue any number of commands on an open socket, and let the
    replies, one per command and carrying that command's id, arrive in any
    order.  Then the promise of each command is settled exactly once, with
    the outcome of its own reply; its entry has left the table; and a later
    frame with the same id finds no pending command and settles nothing. *)
Theorem out_of_order_resolution c cmds replies frames :
  reachable c → readyState c = OPEN →
  let issued := (sendCommands cmds c).1 in
  let c1 := (sendCommands cmds c).2 in
  Forall2 (fun kp d => number_key (prop d "id") = Some kp.1) issued replies →
  frames ≡ₚ replies →
  let c2 := run (SocketMessage ∘ Parsed <$> frames) c1 in
  length issued = length cmds ∧
  Forall2 (fun kp d =>
      settlements kp.2 (trace c2) = [reply_outcome d] ∧
      promise_state kp.2 (trace c2) = Some (reply_outcome d) ∧
      pendingCommands c2 !! kp.1 = None ∧
      ∀ d' q, number_key (prop d' "id") = Some kp.1 →
        pending_get c2 (prop d' "id") = None ∧
        settlements q (trace (onmessage (Parsed d') c2)) = settlements q (trace c2))
    issued replies.
Proof.
  intros HI%reachable_Inv Hopen issued c1 Hreplies Hperm c2.
  destruct (sendCommands_pending cmds c HI Hopen) as (HI1 & Hlen & _ & Hnew & Hnd).
  fold issued in Hlen, Hnew, Hnd. fold c1 in HI1, Hnew.
  split; [done|].
  apply Forall2_same_length_lookup. split; [by eapply Forall2_length|].
  intros i [k p] d Hi Hd. simpl.
  pose proof (Forall2_lookup_lr _ _ _ _ _ _ Hreplies Hi Hd) as Hkd. simpl in Hkd.
  destruct (Hnew k p) as [_ Hp]; [by eapply list_elem_of_lookup_2|].
  assert (Hfirst : first_reply k (SocketMessage ∘ Parsed <$> frames) = Some d).
  { apply first_reply_frames; [|done|].
    - rewrite Hperm. by eapply list_elem_of_lookup_2.
    - intros d' Hd' Hkd'. rewrite Hperm in Hd'.
      apply list_elem_of_lookup in Hd' as [j Hj].
      destruct (Forall2_lookup_r _ _ _ _ _ Hreplies Hj) as ([k' p'] & Hj' & Hk').
      simpl in Hk'. assert (k' = k) as -> by congruence.
      assert (j = i) as ->.
      { eapply NoDup_lookup; [exact Hnd| |]; rewrite list_lookup_fmap.
        - by rewrite Hj'.
        - by rewrite Hi. }
      congruence. }
  destruct (run_settles_by_first_reply (SocketMessage ∘ Parsed <$> frames) c1 k p HI1 Hp)
    as [Hs Ht].
  rewrite Hfirst in Hs, Ht. cbn [from_option] in Hs. fold c2 in Hs, Ht.
  split_and!; try done.
  - unfold promise_state. by rewrite Hs.
  - intros d' q Hk'.
    assert (Hget : pending_get c2 (prop d' "id") = None).
    { unfold pending_get. rewrite Hk'. simpl. exact Ht. }
    split; [done|]. by apply onmessage_not_a_reply.
Qed.

(** The scenario of the test suite: two commands, answered in the reverse
    order. *)
Lemma out_of_order_resolution_witness :
  let cmds := [("Page.getResourceTree", None, None); ("Page.getFrameTree", None, None)] in
  let r1 := obj [("id", JNum 1); ("result", obj [("name", JStr "resourceTree")])] in
  let r2 := obj [("id", JNum 2); ("result", obj [("name", JStr "frameTree")])] in
  let c2 := run (SocketMessage ∘ Parsed <$> [r2; r1]) (sendCommands cmds opened).2 in
  readyState opened = OPEN ∧
  (sendCommands cmds opened).1 = [(1%Z, commandPromise 0); (2%Z, commandPromise 1)] ∧
  settlements (commandPromise 0) (trace c2)
    = [Fulfilled (data (obj [("name", JStr "resourceTree")]))] ∧
  settlements (commandPromise 1) (trace c2)
    = [Fulfilled (data (obj [("name", JStr "frameTree")]))].
Proof.
  intros cmds r1 r2 c2.
  assert (Hr : reachable opened) by (by exists "ws://devtools/test", [SocketOpen]).
  assert (Hids : Forall2 (fun kp d => number_key (prop d "id") = Some kp.1)
                   (sendCommands cmds opened).1 [r1; r2]) by (by repeat constructor).
  assert (Hperm : [r2; r1] ≡ₚ [r1; r2]) by apply Permutation_swap.
  destruct (out_of_order_resolution opened cmds [r1; r2] [r2; r1] Hr eq_refl Hids Hperm)
    as [_ Hall].
  split; [reflexivity|]. split; [reflexivity|].
  pose proof (Forall2_lookup_lr _ _ _ 0%nat _ _ Hall eq_refl eq_refl) as (H0 & _).
  pose proof (Forall2_lookup_lr _ _ _ 1%nat _ _ Hall eq_refl eq_refl) as (H1 & _).
  split; [exact H0|exact H1].
Defined.

(** ** Listener sets *)

Lemma eventListeners_dispatch d c : eventListeners (dispatch d c) = eventListeners c.
Proof.
  unfold dispatch, pending_delete.
  destruct (if truthy (prop d "id") then _ else _).
  - by destruct (number_key _), (truthy (prop d "error")).
  - event_cases.
    by rewrite forEach_call_unfold.
Qed.

Lemma listeners_of_step_plain c a event :
  plain a →
  listeners_of (step c a) event =
  match a with
  | DoOn e cb => if bool_decide (e = event) then Set_add cb (listeners_of c event)
                 else listeners_of c event
  | _ => listeners_of c event
  end.
Proof.
  intros Hplain.
  unfold listeners_of. destruct a as [m ps sid|e cb| | |e|t|t rs]; simpl; try done.
  - unfold sendCommand. by case_bool_decide.
  - destruct (decide (e = event)) as [->|Hne].
    + rewrite (bool_decide_eq_true_2 (event = event)) by done.
      rewrite lookup_insert_eq. simpl. case_bool_decide as Hhas; [done|].
      rewrite lookup_insert_eq. simpl.
      destruct (eventListeners c !! event) eqn:E; [|done].
      exfalso. apply Hhas. by eexists.
    + rewrite (bool_decide_eq_false_2 (e = event)) by done.
      rewrite lookup_insert_ne by done. case_bool_decide; [done|].
      by rewrite lookup_insert_ne.
  - unfold close. by case_bool_decide.
  - unfold onmessage. destruct t as [s|d]; simpl; [done|].
    destruct d; simpl; try done; by rewrite eventListeners_dispatch.
Qed.

Lemma Set_add_prefix cb (s : list Callback) : s `prefix_of` Set_add cb s.
Proof. unfold Set_add. case_bool_decide; [done|]. by apply prefix_app_r. Qed.

Lemma Set_add_elem cb x (s : list Callback) : x ∈ Set_add cb s ↔ x ∈ s ∨ x = cb.
Proof.
  unfold Set_add. case_bool_decide as Hin.
  - split; [by left|]. by intros [?| ->].
  - by rewrite elem_of_app, list_elem_of_singleton.
Qed.

(** What one call of a listener on the client does to the set of an event:
    a registration for that event adds its callback at the end, unless the
    set has it; any other call leaves the set alone. *)
Lemma listeners_of_client_call c a event :
  listeners_of (client_call c a) event =
  listeners_of c event ++
  filter (fun cb => cb ∉ listeners_of c event) (registers_in event [a]).
Proof.
  rewrite client_call_step, listeners_of_step_plain by apply plain_called_by_listener.
  destruct a as [m ps sid|e cb|]; simpl; try by rewrite app_nil_r.
  unfold registers_in. simpl. case_bool_decide; simpl; [|by rewrite app_nil_r].
  unfold Set_add. case_bool_decide.
  - rewrite filter_cons_False by (intros Hn; by apply Hn). by rewrite app_nil_r.
  - by rewrite filter_cons_True.
Qed.

Lemma listeners_of_emit e c event : listeners_of (emit e c) event = listeners_of c event.
Proof. done. Qed.

(** There is no removal from a set: an action leaves the listeners of an
    event where they are, and adds after them. *)
Lemma listeners_grow_step c a event :
  listeners_of c event `prefix_of` listeners_of (step c a) event.
Proof.
  assert (Hplain : ∀ c a, plain a →
            listeners_of c event `prefix_of` listeners_of (step c a) event).
  { intros c' a' Ha. rewrite listeners_of_step_plain by done.
    destruct a'; try done. case_bool_decide; [apply Set_add_prefix|done]. }
  destruct a as [m ps sid|e cb| | |e|t|t rs]; try (by apply Hplain).
  cbn [step].
  apply (reacting_preserves
           (fun c' => listeners_of c event `prefix_of` listeners_of c' event) t rs c);
    try done.
  - intros c' a' H. etrans; [exact H|]. rewrite client_call_step.
    apply Hplain, plain_called_by_listener.
  - by apply (Hplain c (SocketMessage t)).
Qed.

Lemma Set_add_idemp cb (s : list Callback) : Set_add cb (Set_add cb s) = Set_add cb s.
Proof.
  unfold Set_add at 2. case_bool_decide as Hin.
  - unfold Set_add. by rewrite bool_decide_eq_true_2.
  - unfold Set_add. rewrite (bool_decide_eq_false_2 (cb ∈ s)) by done.
    rewrite bool_decide_eq_true_2; [done|].
    apply elem_of_app. right. apply list_elem_of_here.
Qed.

Lemma on_idemp event cb c : on event cb (on event cb c) = on event cb c.
Proof.
  unfold on, set_eventListeners. simpl. f_equal.
  rewrite (bool_decide_eq_true_2 (is_Some (<[event:=_]> _ !! event)))
    by (rewrite lookup_insert_eq; by eexists).
  rewrite lookup_insert_eq. simpl. by rewrite Set_add_idemp, insert_insert_eq.
Qed.

Lemma calls_forEach arg (l : list Callback) :
  calls ((fun cb => Call cb arg) <$> l) = (fun cb => (cb, arg)) <$> l.
Proof. unfold calls. induction l as [|cb l IH]; simpl; [done|]. by f_equal. Qed.

Lemma calls_snoc tr e :
  calls (tr ++ [e]) = calls tr ++ from_option (fun x => [x]) [] (is_call e).
Proof. unfold calls. rewrite omap_app. simpl. by destruct (is_call e). Qed.

Lemma thrown_snoc tr e :
  thrown (tr ++ [e]) = thrown tr ++ from_option (fun x => [x]) [] (is_thrown e).
Proof. unfold thrown. rewrite omap_app. simpl. by destruct (is_thrown e). Qed.

Lemma uncaught_snoc tr e :
  uncaught (tr ++ [e]) = uncaught tr ++ from_option (fun x => [x]) [] (is_uncaught e).
Proof. unfold uncaught. rewrite omap_app. simpl. by destruct (is_uncaught e). Qed.

(** ** Delivery of an event *)

Lemma heard_snoc_other tr e :
  is_call e = None → is_thrown e = None → is_uncaught e = None →
  heard (tr ++ [e]) = heard tr.
Proof.
  intros H1 H2 H3. unfold heard.
  by rewrite calls_snoc, thrown_snoc, uncaught_snoc, H1, H2, H3, !app_nil_r.
Qed.

(** The calls a listener makes on the client call no listener and raise
    nothing. *)
Lemma heard_client_call c a : heard (trace (client_call c a)) = heard (trace c).
Proof.
  destruct a as [m ps sid|e cb|]; simpl.
  - unfold sendCommand. case_bool_decide; simpl; by rewrite heard_snoc_other.
  - done.
  - unfold close. case_bool_decide; simpl; [|done]. by rewrite heard_snoc_other.
Qed.

Lemma registers_in_app event l1 l2 :
  registers_in event (l1 ++ l2) = registers_in event l1 ++ registers_in event l2.
Proof. apply omap_app. Qed.

Lemma client_calls_facts event l c :
  Inv c →
  let c' := foldl client_call c l in
  Inv c' ∧ heard (trace c') = heard (trace c) ∧
  listeners_of c event `prefix_of` listeners_of c' event ∧
  ∀ cb, cb ∈ listeners_of c' event → cb ∈ listeners_of c event ∨ cb ∈ registers_in event l.
Proof.
  revert c. induction l as [|a l IH]; intros c HI; cbn [foldl].
  - split_and!; try done. intros cb; by left.
  - destruct (IH (client_call c a) (Inv_client_call c a HI)) as (HI' & Hh & Hp & Hin).
    split_and!.
    + done.
    + by rewrite Hh, heard_client_call.
    + etrans; [|exact Hp]. rewrite listeners_of_client_call. by apply prefix_app_r.
    + intros cb Hcb. change (a :: l) with ([a] ++ l). rewrite registers_in_app.
      destruct (Hin cb Hcb) as [H|H].
      * rewrite listeners_of_client_call in H.
        apply elem_of_app in H as [H|H]; [by left|right].
        apply elem_of_app. left. by apply list_elem_of_filter in H as [_ H].
      * right. apply elem_of_app. by right.
Qed.

Lemma called_nil total : called [] total = total.
Proof. by destruct total. Qed.

Lemma escaping_nil total : escaping [] total = None.
Proof. by destruct total. Qed.

Lemma called_le reactions total : (called reactions total ≤ total)%nat.
Proof.
  revert reactions. induction total as [|n IH]; intros [|r rest]; simpl; try lia.
  destruct (throws r); [lia|]. specialize (IH rest). lia.
Qed.

(** All listeners are called when no exception ends the delivery. *)
Lemma called_all reactions total :
  escaping reactions total = None → called reactions total = total.
Proof.
  revert reactions. induction total as [|n IH]; intros [|r rest]; simpl; try done.
  destruct (throws r); [done|]. intros H. by rewrite IH.
Qed.

Lemma registers_cons event r rest :
  registers event (r :: rest) = registers_in event (does r) ++ registers event rest.
Proof. done. Qed.

(** The loop of a delivery, from the i-th listener on: the listeners called
    are those of the set as it is in the end, from the i-th on and in their
    order, up to the first that throws; the set has only grown, by what the
    listeners called have registered. *)
Lemma forEach_reacting_delivery arg event reactions i c :
  Inv c →
  let c' := forEach_reacting arg event i reactions c in
  let L' := listeners_of c' event in
  Inv c' ∧
  listeners_of c event `prefix_of` L' ∧
  (∀ cb, cb ∈ L' → cb ∈ listeners_of c event ∨ cb ∈ registers event reactions) ∧
  calls (trace c') =
    calls (trace c) ++
    ((fun cb => (cb, arg)) <$> take (called reactions (length L' - i)) (drop i L')) ∧
  thrown (trace c') =
    thrown (trace c) ++ from_option (fun e => [e]) [] (escaping reactions (length L' - i)) ∧
  uncaught (trace c') = uncaught (trace c).
Proof.
  revert i c. induction reactions as [|r rest IH]; intros i c HI; cbn [forEach_reacting].
  - fold (listeners_of c event). rewrite forEach_call_unfold.
    pose proof (Inv_forEach_call arg (drop i (listeners_of c event)) c HI) as HI'.
    rewrite forEach_call_unfold in HI'. cbv zeta.
    change (listeners_of (mkClient _ _ _ _ _ _ _) event) with (listeners_of c event).
    cbn [trace]. rewrite called_nil, escaping_nil.
    split_and!; try done.
    + intros cb; by left.
    + unfold calls at 1. rewrite omap_app. fold (calls (trace c)).
      change (omap is_call ((fun cb => Call cb arg) <$> drop i (listeners_of c event)))
        with (calls ((fun cb => Call cb arg) <$> drop i (listeners_of c event))).
      rewrite calls_forEach. do 2 f_equal.
      symmetry. apply take_ge. rewrite length_drop. lia.
    + unfold thrown. rewrite omap_app. simpl. f_equal.
      generalize (drop i (listeners_of c event)). intros l. induction l; simpl; auto.
    + unfold uncaught. rewrite omap_app.
      assert (omap is_uncaught ((fun cb => Call cb arg) <$> drop i (listeners_of c event)) = [])
        as ->.
      { generalize (drop i (listeners_of c event)). intros l. induction l; simpl; auto. }
      by rewrite app_nil_r.
  - fold (listeners_of c event).
    destruct (listeners_of c event !! i) as [cb|] eqn:Hcb.
    + assert (HI0 : Inv (emit (Call cb arg) c)) by (by apply Inv_emit_other).
      destruct (client_calls_facts event (does r) _ HI0) as (HI1 & Hh1 & Hp1 & Hin1).
      set (c1 := foldl client_call (emit (Call cb arg) c) (does r)) in *.
      rewrite listeners_of_emit in Hp1, Hin1.
      unfold heard in Hh1. injection Hh1 as Hcalls1 Hthrown1 Huncaught1.
      rewrite calls_snoc in Hcalls1.
      rewrite thrown_snoc, app_nil_r in Hthrown1.
      rewrite uncaught_snoc, app_nil_r in Huncaught1.
      cbn [is_call from_option] in Hcalls1.
      destruct (throws r) as [e|] eqn:Hthrows.
      * cbv zeta. rewrite listeners_of_emit.
        pose proof (prefix_lookup_Some _ _ _ _ Hcb Hp1) as Hcb1.
        pose proof (lookup_lt_Some _ _ _ Hcb1) as Hlt.
        destruct (length (listeners_of c1 event) - i)%nat as [|n] eqn:Hn; [lia|].
        cbn [called escaping]. rewrite Hthrows. cbn [from_option].
        rewrite (drop_S _ _ _ Hcb1). cbn [take fmap list_fmap].
        rewrite take_0. cbn [list_fmap].
        split_and!.
        -- by apply Inv_emit_other.
        -- done.
        -- intros cb' Hcb'. destruct (Hin1 cb' Hcb') as [?|?]; [by left|right].
           rewrite registers_cons. apply elem_of_app. by left.
        -- by rewrite trace_emit, calls_snoc, app_nil_r.
        -- by rewrite trace_emit, thrown_snoc, Hthrown1.
        -- by rewrite trace_emit, uncaught_snoc, app_nil_r.
      * destruct (IH (S i) c1 HI1) as (HI' & Hp' & Hin' & Hcalls' & Hthrown' & Huncaught').
        set (c' := forEach_reacting arg event (S i) rest c1) in *.
        cbv zeta in *.
        assert (Hcb' : listeners_of c' event !! i = Some cb).
        { eapply prefix_lookup_Some; [|exact Hp']. by eapply prefix_lookup_Some. }
        pose proof (lookup_lt_Some _ _ _ Hcb') as Hlt.
        replace (length (listeners_of c' event) - i)%nat
          with (S (length (listeners_of c' event) - S i)) by lia.
        cbn [called escaping]. rewrite Hthrows.
        rewrite (drop_S _ _ _ Hcb'). cbn [take fmap list_fmap].
        split_and!.
        -- done.
        -- by etrans.
        -- intros cb0 Hcb0. rewrite registers_cons, elem_of_app.
           destruct (Hin' cb0 Hcb0) as [H|H]; [|by right; right].
           destruct (Hin1 cb0 H) as [?|?]; [by left|by right; left].
        -- rewrite Hcalls', Hcalls1, <- app_assoc. done.
        -- by rewrite Hthrown', Hthrown1.
        -- by rewrite Huncaught', Huncaught1.
    + cbv zeta. apply lookup_ge_None in Hcb.
      replace (length (listeners_of c event) - i)%nat with 0%nat by lia.
      cbn [called escaping take fmap list_fmap from_option].
      rewrite !app_nil_r. split_and!; try done. intros cb; by left.
Qed.

Lemma dispatch_reacting_event d m reactions c :
  pending_get c (prop d "id") = None → prop d "method" = data (JStr m) → m ≠ "" →
  dispatch_reacting d reactions c = forEach_reacting (prop d "params") m 0 reactions c.
Proof.
  intros Hget Hm Hne.
  assert (Hif : (if truthy (prop d "id") then pending_get c (prop d "id") else None) = None)
    by (rewrite Hget; by destruct (truthy (prop d "id"))).
  unfold dispatch_reacting. rewrite Hif, Hm.
  simpl. by destruct (String.eqb_spec m "").
Qed.

Lemma onmessage_reacting_dispatch d reactions c :
  d ≠ JNull → onmessage_reacting (Parsed d) reactions c = dispatch_reacting d reactions c.
Proof. by destruct d. Qed.

Lemma prop_JNull key : prop JNull key = undefined.
Proof. done. Qed.

(** An event frame: it answers no pending command and names a method. *)
Lemma delivery c d m reactions :
  Inv c → m ≠ "" →
  prop d "method" = data (JStr m) → pending_get c (prop d "id") = None →
  let c' := onmessage_reacting (Parsed d) reactions c in
  let L' := listeners_of c' m in
  Inv c' ∧
  listeners_of c m `prefix_of` L' ∧
  (∀ cb, cb ∈ L' → cb ∈ listeners_of c m ∨ cb ∈ registers m reactions) ∧
  calls (trace c') =
    calls (trace c) ++
    ((fun cb => (cb, prop d "params")) <$> take (called reactions (length L')) L') ∧
  thrown (trace c') =
    thrown (trace c) ++ from_option (fun e => [e]) [] (escaping reactions (length L')) ∧
  uncaught (trace c') = uncaught (trace c).
Proof.
  intros HI Hne Hm Hget.
  assert (Hd : d ≠ JNull) by (intros ->; by rewrite prop_JNull in Hm).
  rewrite onmessage_reacting_dispatch, (dispatch_reacting_event d m) by done.
  pose proof (forEach_reacting_delivery (prop d "params") m reactions 0 c HI) as H.
  cbv zeta in *. rewrite Nat.sub_0_r in H. exact H.
Qed.

(** A frame that is no event and answers no command changes nothing. *)
Lemma dropped c d reactions :
  d ≠ JNull → pending_get c (prop d "id") = None →
  truthy (prop d "method") = false ∨ default [] (listeners_get c (prop d "method")) = [] →
  onmessage_reacting (Parsed d) reactions c = c.
Proof.
  intros Hd Hget Hnone. rewrite onmessage_reacting_dispatch by done.
  assert (Hif : (if truthy (prop d "id") then pending_get c (prop d "id") else None) = None)
    by (rewrite Hget; by destruct (truthy (prop d "id"))).
  unfold dispatch_reacting. rewrite Hif.
  destruct (truthy (prop d "method")) eqn:Ht; [|done].
  destruct Hnone as [|Hl]; [done|]. unfold listeners_get in Hl.
  destruct (string_key (prop d "method")) as [m|]; [|done]. simpl in Hl.
  destruct reactions as [|r rest]; cbn [forEach_reacting]; rewrite Hl; [|done].
  by rewrite drop_nil.
Qed.

(** C7, as the code has it.  Registering again a callback already registered
    changes nothing: a set holds a callback once, a new callback comes last.
    An event frame with a method name that is not empty has the listeners of
    that name called in the order of the set, each once and with the one
    [params] of the frame: those that were registered when the frame came,
    then those that the listeners called have registered; this goes up to
    the first listener that throws, and the listeners after that one are
    not called.  So all of them are called exactly when none but the last
    throws.  An event frame with the empty method name calls nobody. *)
Theorem listeners_called_once_in_order :
  (∀ event cb c, on event cb (on event cb c) = on event cb c) ∧
  (∀ c event cb, reachable c →
     NoDup (listeners_of c event) ∧
     listeners_of (on event cb c) event =
       if bool_decide (cb ∈ listeners_of c event) then listeners_of c event
       else listeners_of c event ++ [cb]) ∧
  (∀ c d m reactions, reachable c → m ≠ "" →
     prop d "method" = data (JStr m) → pending_get c (prop d "id") = None →
     let c' := onmessage_reacting (Parsed d) reactions c in
     let L' := listeners_of c' m in
     calls (trace c') =
       calls (trace c) ++
       ((fun cb => (cb, prop d "params")) <$> take (called reactions (length L')) L') ∧
     NoDup L' ∧
     listeners_of c m `prefix_of` L' ∧
     (∀ cb, cb ∈ L' → cb ∈ listeners_of c m ∨ cb ∈ registers m reactions) ∧
     (delivered_once_in_order c d m reactions ↔
        called reactions (length L') = length L')) ∧
  (∀ c d reactions,
     prop d "method" = data (JStr "") → pending_get c (prop d "id") = None →
     onmessage_reacting (Parsed d) reactions c = c).
Proof.
  split_and!.
  - apply on_idemp.
  - intros c event cb HI%reachable_Inv. split.
    + unfold listeners_of. destruct (eventListeners c !! event) as [l|] eqn:E; simpl.
      * by apply (inv_sets c HI event).
      * constructor.
    + pose proof (listeners_of_step_plain c (DoOn event cb) event I) as H.
      cbn [step] in H. by rewrite bool_decide_eq_true_2 in H.
  - intros c d m reactions HI%reachable_Inv Hne Hm Hget.
    destruct (delivery c d m reactions HI Hne Hm Hget)
      as (HI' & Hp & Hin & Hcalls & _ & _).
    cbv zeta in *.
    set (c' := onmessage_reacting (Parsed d) reactions c) in *.
    set (L' := listeners_of c' m) in *.
    assert (Hnd : NoDup L').
    { subst L'. unfold listeners_of. destruct (eventListeners c' !! m) as [l|] eqn:E; simpl.
      - by apply (inv_sets c' HI' m).
      - constructor. }
    split_and!; try done.
    unfold delivered_once_in_order. fold c'. fold L'. rewrite Hcalls. split.
    + intros H. specialize (H Hm Hget). apply app_inv_head in H.
      apply (f_equal length) in H. rewrite !length_fmap, length_take in H.
      pose proof (called_le reactions (length L')). lia.
    + intros -> _ _. by rewrite firstn_all.
  - intros c d reactions Hm Hget. apply dropped; try done.
    + intros ->. by rewrite prop_JNull in Hm.
    + left. by rewrite Hm.
Qed.

Lemma listeners_called_once_in_order_witness :
  let c := run [SocketOpen; DoOn "Debugger.scriptParsed" 5; DoOn "Debugger.scriptParsed" 5;
                DoOn "Debugger.scriptParsed" 6]
               (createClient "ws://devtools/event-dup") in
  let reactions := [mkReaction [CallOn "Debugger.scriptParsed" 7] None] in
  reachable c ∧ "Debugger.scriptParsed" ≠ "" ∧
  prop script_parsed_frame "method" = data (JStr "Debugger.scriptParsed") ∧
  pending_get c (prop script_parsed_frame "id") = None ∧
  calls (trace (onmessage_reacting (Parsed script_parsed_frame) reactions c))
  = [(5%nat, data (obj [("scriptId", JStr "1")]));
     (6%nat, data (obj [("scriptId", JStr "1")]));
     (7%nat, data (obj [("scriptId", JStr "1")]))].
Proof.
  intros c reactions.
  assert (Hr : reachable c) by (by eexists _, _).
  assert (Hne : "Debugger.scriptParsed" ≠ "") by discriminate.
  split; [exact Hr|]. split; [exact Hne|]. do 2 (split; [reflexivity|]).
  exact (proj1 (proj1 (proj2 (proj2 listeners_called_once_in_order))
                  c script_parsed_frame "Debugger.scriptParsed" reactions
                  Hr Hne eq_refl eq_refl)).
Defined.

(** C7 fails as stated: a callback registered for the empty method name is
    not called by an event frame with that name; and of two listeners, the
    second is not called when the first throws. *)
Lemma listener_not_called :
  ¬ delivered_once_in_order
      (run [SocketOpen; DoOn "" 5; DoOn "" 5] (createClient "ws://devtools/event-dup"))
      (obj [("method", JStr ""); ("params", obj [("scriptId", JStr "1")])]) "" [] ∧
  ¬ delivered_once_in_order
      (run [SocketOpen; DoOn "Debugger.scriptParsed" 5; DoOn "Debugger.scriptParsed" 6]
           (createClient "ws://devtools/events"))
      script_parsed_frame "Debugger.scriptParsed"
      [mkReaction [] (Some (ErrorObj "listener failed"))].
Proof.
  split.
  - intros H. specialize (H eq_refl eq_refl). vm_compute in H. discriminate H.
  - intros H. specialize (H eq_refl eq_refl). vm_compute in H. discriminate H.
Qed.

(** ** Routing of incoming frames *)

Lemma string_key_Some v m : string_key v = Some m → v = data (JStr m).
Proof. destruct v as [|[]| |]; simpl; congruence. Qed.

Lemma reply_consumed c d p reactions :
  Inv c → pending_get c (prop d "id") = Some p →
  onmessage_reacting (Parsed d) reactions c =
    emit (if truthy (prop d "error") then Reject p (prop d "error")
          else Resolve p (prop d "result"))
         (pending_delete (prop d "id") c).
Proof.
  intros HI Hget. pose proof Hget as (k & Hk & Hp)%pending_get_Some.
  pose proof (step_reply c (SocketMessageReacting (Parsed d) reactions) d k p
                HI eq_refl Hk Hp) as H.
  cbn [step] in H. rewrite H, (dispatch_reply d c k p) by done.
  unfold pending_delete. by rewrite Hk.
Qed.

(** C1, as the code has it.  A frame that does not parse, or parses to
    [null], raises an error in the handler.  Any other frame is routed:
    (a) when its id is that of a pending command it settles that command,
    by its error if that is truthy and by its result otherwise, and is
    consumed, no listener being called; (b) otherwise, when its method is a
    string that is not empty, the listeners of that method are called with
    its [params], in the order of the set and up to the first that throws,
    whose exception leaves the handler; (c) otherwise, and also when the
    method has no listener, the frame is dropped: the client is as before.
    This is the rule of the specification whenever the frame parses to a
    value other than [null], a listener set for the empty name is empty, and
    the listeners called include all those registered when the frame
    came. *)
Theorem routing_precedence c t reactions :
  reachable c →
  let c' := onmessage_reacting t reactions c in
  match JSON_parse t with
  | None => c' = emit (Uncaught "SyntaxError") c
  | Some JNull => c' = emit (Uncaught "TypeError") c
  | Some d =>
      (∀ p, pending_get c (prop d "id") = Some p →
         c' = emit (if truthy (prop d "error") then Reject p (prop d "error")
                    else Resolve p (prop d "result"))
                   (pending_delete (prop d "id") c) ∧
         calls (trace c') = calls (trace c)) ∧
      (pending_get c (prop d "id") = None →
       ∀ m, prop d "method" = data (JStr m) → m ≠ "" →
         let L' := listeners_of c' m in
         calls (trace c') =
           calls (trace c) ++
           ((fun cb => (cb, prop d "params")) <$> take (called reactions (length L')) L') ∧
         listeners_of c m `prefix_of` L' ∧
         thrown (trace c') =
           thrown (trace c) ++
           from_option (fun e => [e]) [] (escaping reactions (length L')) ∧
         uncaught (trace c') = uncaught (trace c)) ∧
      (pending_get c (prop d "id") = None →
       truthy (prop d "method") = false ∨
       default [] (listeners_get c (prop d "method")) = [] →
         c' = c) ∧
      ((∀ m, pending_get c (prop d "id") = None → prop d "method" = data (JStr m) →
          if String.eqb m "" then listeners_of c "" = []
          else (length (listeners_of c m) ≤
                called reactions (length (listeners_of c' m)))%nat) →
       routed_as_specified c t reactions)
  end.
Proof.
  intros HI%reachable_Inv c'. subst c'.
  destruct t as [text|d]; cbn [JSON_parse]; [done|].
  assert (d = JNull ∨ d ≠ JNull) as [->|Hd]
    by (destruct d; [by left|by right..]); [done|].
  assert (Hparts :
    (∀ p, pending_get c (prop d "id") = Some p →
       onmessage_reacting (Parsed d) reactions c =
         emit (if truthy (prop d "error") then Reject p (prop d "error")
               else Resolve p (prop d "result"))
              (pending_delete (prop d "id") c) ∧
       calls (trace (onmessage_reacting (Parsed d) reactions c)) = calls (trace c)) ∧
    (pending_get c (prop d "id") = None →
     ∀ m, prop d "method" = data (JStr m) → m ≠ "" →
       calls (trace (onmessage_reacting (Parsed d) reactions c)) =
         calls (trace c) ++
         ((fun cb => (cb, prop d "params")) <$>
            take (called reactions
                    (length (listeners_of (onmessage_reacting (Parsed d) reactions c) m)))
                 (listeners_of (onmessage_reacting (Parsed d) reactions c) m)) ∧
       listeners_of c m `prefix_of`
         listeners_of (onmessage_reacting (Parsed d) reactions c) m ∧
       thrown (trace (onmessage_reacting (Parsed d) reactions c)) =
         thrown (trace c) ++
         from_option (fun e => [e]) []
           (escaping reactions
              (length (listeners_of (onmessage_reacting (Parsed d) reactions c) m))) ∧
       uncaught (trace (onmessage_reacting (Parsed d) reactions c)) = uncaught (trace c)) ∧
    (pending_get c (prop d "id") = None →
     truthy (prop d "method") = false ∨
     default [] (listeners_get c (prop d "method")) = [] →
       onmessage_reacting (Parsed d) reactions c = c)).
  { split_and!.
    - intros p Hget. rewrite (reply_consumed c d p) by done. split; [done|].
      rewrite trace_emit, calls_snoc.
      unfold pending_delete. destruct (number_key (prop d "id")); simpl;
        destruct (truthy (prop d "error")); simpl; by rewrite app_nil_r.
    - intros Hget m Hm Hne.
      destruct (delivery c d m reactions HI Hne Hm Hget) as (_ & Hp & _ & Hc & Ht & Hu).
      done.
    - intros Hget Hnone. by apply dropped. }
  destruct Hparts as (Ha & Hb & Hc).
  assert (Hrule :
    (∀ m, pending_get c (prop d "id") = None → prop d "method" = data (JStr m) →
       if String.eqb m "" then listeners_of c "" = []
       else (length (listeners_of c m) ≤
             called reactions
               (length (listeners_of (onmessage_reacting (Parsed d) reactions c) m)))%nat) →
    routed_as_specified c (Parsed d) reactions).
  { intros Hcond. unfold routed_as_specified, field. cbn [JSON_parse from_option].
    split_and!.
    - intros p Hget. destruct (Ha p Hget) as [Heq _]. eexists. split; [|exact Heq].
      destruct (truthy (prop d "error")); eauto.
    - intros Hget _. unfold listeners_get.
      destruct (string_key (prop d "method")) as [m|] eqn:Hkey; simpl.
      + apply string_key_Some in Hkey. specialize (Hcond m Hget Hkey).
        fold (listeners_of c m).
        destruct (decide (m = "")) as [->|Hne].
        * cbn [String.eqb] in Hcond.
          rewrite Hcond, Hc; [by exists []; rewrite !app_nil_r|done|].
          left. by rewrite Hkey.
        * destruct (String.eqb_spec m "") as [|_]; [done|].
          destruct (Hb Hget m Hkey Hne) as (Hcalls & [k Hk] & _).
          rewrite Hcalls, Hk. rewrite Hk in Hcond.
          exists ((fun cb => (cb, prop d "params")) <$>
                    take (called reactions (length (listeners_of c m ++ k)) -
                          length (listeners_of c m)) k).
          f_equal. rewrite <- fmap_app. f_equal.
          rewrite take_app. f_equal. by apply take_ge.
      + rewrite Hc; [by exists []; rewrite !app_nil_r|done|].
        right. unfold listeners_get. by rewrite Hkey.
    - intros Hget Hnone. apply Hc; [done|].
      destruct Hnone as [->|?]; [by left|by right]. }
  by destruct d.
Qed.

Lemma routing_precedence_witness :
  let c := run [SocketOpen; DoOn "Runtime.consoleAPICalled" 1;
                DoOn "Runtime.consoleAPICalled" 2; DoSendCommand "Page.enable" None None]
               (createClient "ws://devtools/test") in
  let reply := obj [("id", JNum 1); ("method", JStr "Runtime.consoleAPICalled");
                    ("result", obj [])] in
  let event := obj [("id", JNum 99999); ("method", JStr "Runtime.consoleAPICalled");
                    ("params", obj [("type", JStr "log")])] in
  reachable c ∧
  pending_get c (prop reply "id") = Some (commandPromise 0) ∧
  calls (trace (onmessage_reacting (Parsed reply) [] c)) = calls (trace c) ∧
  pending_get c (prop event "id") = None ∧
  calls (trace (onmessage_reacting (Parsed event) [] c))
  = [(1%nat, data (obj [("type", JStr "log")])); (2%nat, data (obj [("type", JStr "log")]))].
Proof.
  intros c reply event.
  assert (Hr : reachable c) by (by eexists _, _).
  split; [exact Hr|]. split; [reflexivity|].
  split; [exact (proj2 (proj1 (routing_precedence c (Parsed reply) [] Hr)
                          (commandPromise 0) eq_refl))|].
  split; [reflexivity|].
  exact (proj1 (proj1 (proj2 (routing_precedence c (Parsed event) [] Hr))
                  eq_refl "Runtime.consoleAPICalled" eq_refl ltac:(discriminate))).
Defined.

(** C1 fails as stated: a listener registered for the empty method name is
    not called by a frame carrying that name; of two listeners the second is
    not called when the first throws; and a frame that parses to [null], or
    does not parse, is not dropped in silence. *)
Lemma routing_not_as_specified :
  ¬ routed_as_specified (run [SocketOpen; DoOn "" 7] (createClient "ws://devtools/events"))
      (Parsed (obj [("method", JStr ""); ("params", obj [])])) [] ∧
  ¬ routed_as_specified
      (run [SocketOpen; DoOn "Log.entryAdded" 1; DoOn "Log.entryAdded" 2]
           (createClient "ws://devtools/events"))
      (Parsed (obj [("method", JStr "Log.entryAdded"); ("params", obj [])]))
      [mkReaction [] (Some (ErrorObj "listener failed"))] ∧
  ¬ routed_as_specified opened (Parsed JNull) [] ∧
  ¬ routed_as_specified opened (Malformed "{") [].
Proof.
  split_and!.
  - intros (_ & Hb & _). destruct (Hb eq_refl ltac:(discriminate)) as [more Hmore].
    vm_compute in Hmore. discriminate Hmore.
  - intros (_ & Hb & _). destruct (Hb eq_refl ltac:(discriminate)) as [more Hmore].
    vm_compute in Hmore. discriminate Hmore.
  - intros (_ & _ & Hc). specialize (Hc eq_refl (or_introl eq_refl)).
    apply (f_equal trace) in Hc. vm_compute in Hc. discriminate Hc.
  - intros (_ & _ & Hc). specialize (Hc eq_refl (or_introl eq_refl)).
    apply (f_equal trace) in Hc. vm_compute in Hc. discriminate Hc.
Qed.


(** * Further properties of the client *)

(** ** What a frame leaves alone *)

Lemma sent_snoc tr e :
  sent (tr ++ [e]) = sent tr ++ from_option (fun m => [m]) [] (is_send e).
Proof. unfold sent. rewrite omap_app. simpl. by destruct (is_send e). Qed.

(** [ws.onmessage] never touches the counter, the socket state, the listener
    sets or the frames sent; the table can only lose an entry. *)
Lemma onmessage_keeps t c :
  messageId (onmessage t c) = messageId c ∧
  readyState (onmessage t c) = readyState c ∧
  eventListeners (onmessage t c) = eventListeners c ∧
  promises (onmessage t c) = promises c ∧
  sent (trace (onmessage t c)) = sent (trace c) ∧
  pendingCommands (onmessage t c) ⊆ pendingCommands c.
Proof.
  assert (Hemit : ∀ e c', is_send e = None →
            sent (trace (emit e c')) = sent (trace c')).
  { intros e c' He. by rewrite trace_emit, sent_snoc, He, app_nil_r. }
  assert (Hd : ∀ d,
    messageId (dispatch d c) = messageId c ∧
    readyState (dispatch d c) = readyState c ∧
    eventListeners (dispatch d c) = eventListeners c ∧
    promises (dispatch d c) = promises c ∧
    sent (trace (dispatch d c)) = sent (trace c) ∧
    pendingCommands (dispatch d c) ⊆ pendingCommands c).
  { intros d. unfold dispatch, pending_delete.
    destruct (if truthy (prop d "id") then _ else _).
    - destruct (number_key _), (truthy (prop d "error"));
        rewrite Hemit by done; simpl; split_and!; try done; apply delete_subseteq.
    - destruct (truthy _); [|done]. destruct (listeners_get _ _); [|done].
      rewrite forEach_call_unfold. simpl. split_and!; try done.
      unfold sent. rewrite omap_app.
      assert (omap is_send ((fun cb => Call cb (prop d "params")) <$> l) = []) as ->
        by (by induction l).
      by rewrite app_nil_r. }
  destruct t as [text|d].
  - unfold onmessage. cbn [JSON_parse]. by rewrite Hemit.
  - destruct d; try apply Hd. unfold onmessage. cbn [JSON_parse]. by rewrite Hemit.
Qed.

(** ** Closing *)

(** [client.close()] does nothing on a socket that is not open, asks an open
    socket to close, once, and repeated calls add nothing to the first. *)
Theorem close_at_most_once c n :
  (readyState c ≠ OPEN → close c = c) ∧
  (readyState c = OPEN →
     trace (close c) = trace c ++ [WsClose] ∧ readyState (close c) = CLOSING) ∧
  run (replicate n DoClose) (close c) = close c.
Proof.
  assert (Hno : ∀ c', readyState c' ≠ OPEN → close c' = c').
  { intros c' H. unfold close. by rewrite bool_decide_eq_false_2. }
  assert (Hst : readyState (close c) ≠ OPEN).
  { unfold close. case_bool_decide; simpl; done. }
  split_and!.
  - apply Hno.
  - intros Hopen. unfold close. by rewrite bool_decide_eq_true_2.
  - induction n as [|n IH]; simpl; [done|]. by rewrite Hno.
Qed.

Lemma close_at_most_once_witness :
  readyState opened = OPEN ∧
  trace (close opened) = trace opened ++ [WsClose] ∧
  readyState (close opened) = CLOSING ∧
  run (replicate 3 DoClose) (close opened) = close opened.
Proof.
  split; [reflexivity|].
  destruct (close_at_most_once opened 3) as (_ & Hopen & Hrep).
  destruct (Hopen eq_refl) as [Htr Hst]. by split_and!.
Defined.

Lemma step_not_open_plain c a :
  plain a → readyState c ≠ OPEN → a ≠ SocketOpen →
  readyState (step c a) ≠ OPEN ∧
  sent (trace (step c a)) = sent (trace c) ∧
  messageId (step c a) = messageId c ∧
  pendingCommands (step c a) ⊆ pendingCommands c.
Proof.
  intros Hplain Hc Ha.
  destruct a as [m ps sid|e cb| | |e|t|t rs]; try done.
  - unfold step, sendCommand. rewrite bool_decide_eq_false_2 by done. simpl.
    unfold sent. rewrite omap_app. simpl. by rewrite app_nil_r.
  - unfold step, close. by rewrite bool_decide_eq_false_2.
  - simpl. unfold sent. rewrite omap_app. simpl. by rewrite app_nil_r.
  - destruct (onmessage_keeps t c) as (Hm & Hr & _ & _ & Hs & Hp).
    unfold step. by rewrite Hm, Hr, Hs.
Qed.

Lemma step_not_open c a :
  readyState c ≠ OPEN → a ≠ SocketOpen →
  readyState (step c a) ≠ OPEN ∧
  sent (trace (step c a)) = sent (trace c) ∧
  messageId (step c a) = messageId c ∧
  pendingCommands (step c a) ⊆ pendingCommands c.
Proof.
  intros Hc Ha. destruct a as [m ps sid|e cb| | |e|t|t rs];
    try (by apply step_not_open_plain).
  cbn [step].
  assert (Hemit : ∀ c' e, is_send e = None →
    readyState c' ≠ OPEN ∧ sent (trace c') = sent (trace c) ∧
    messageId c' = messageId c ∧ pendingCommands c' ⊆ pendingCommands c →
    readyState (emit e c') ≠ OPEN ∧ sent (trace (emit e c')) = sent (trace c) ∧
    messageId (emit e c') = messageId c ∧ pendingCommands (emit e c') ⊆ pendingCommands c).
  { intros c' e He (H1 & H2 & H3 & H4). split_and!; try done.
    by rewrite trace_emit, sent_snoc, He, app_nil_r. }
  apply (reacting_preserves
           (fun c' => readyState c' ≠ OPEN ∧ sent (trace c') = sent (trace c) ∧
                      messageId c' = messageId c ∧
                      pendingCommands c' ⊆ pendingCommands c) t rs c).
  - intros c' a' (H1 & H2 & H3 & H4). rewrite client_call_step.
    destruct (step_not_open_plain c' (called_by_listener a')
                (plain_called_by_listener a') H1) as (H1' & H2' & H3' & H4');
      [by destruct a'|].
    split_and!; [done|congruence|congruence|by etrans].
  - intros c' cb arg. by apply Hemit.
  - intros c' e. by apply Hemit.
  - done.
  - by apply (step_not_open_plain c (SocketMessage t)).
Qed.

(** Once closed, a client is silent: until the socket signals open again,
    whatever is called and whatever arrives, no frame is handed to the
    socket, no id is allocated, and the table gains no entry. *)
Theorem closed_client_sends_nothing c later :
  Forall (fun a => a ≠ SocketOpen) later →
  let c' := run later (close c) in
  readyState c' ≠ OPEN ∧
  sent (trace c') = sent (trace (close c)) ∧
  messageId c' = messageId c ∧
  pendingCommands c' ⊆ pendingCommands c.
Proof.
  intros Hlater.
  assert (Hgen : ∀ c0, readyState c0 ≠ OPEN →
    readyState (run later c0) ≠ OPEN ∧
    sent (trace (run later c0)) = sent (trace c0) ∧
    messageId (run later c0) = messageId c0 ∧
    pendingCommands (run later c0) ⊆ pendingCommands c0).
  { induction Hlater as [|a later Ha _ IH]; intros c0 Hc0; [done|].
    change (run (a :: later) c0) with (run later (step c0 a)).
    destruct (step_not_open c0 a Hc0 Ha) as (H1 & H2 & H3 & H4).
    destruct (IH _ H1) as (H1' & H2' & H3' & H4').
    split_and!; [done|congruence|congruence|by etrans]. }
  assert (Hst : readyState (close c) ≠ OPEN).
  { unfold close. case_bool_decide; simpl; done. }
  destruct (Hgen _ Hst) as (H1 & H2 & H3 & H4).
  assert (messageId (close c) = messageId c ∧ pendingCommands (close c) = pendingCommands c)
    as [Hm Hp] by (unfold close; by case_bool_decide).
  cbv zeta. rewrite <- Hm, <- Hp. done.
Qed.

Lemma closed_client_sends_nothing_witness :
  let later := [DoSendCommand "Page.enable" None None;
                SocketMessage (Parsed (obj [("id", JNum 1); ("result", obj [])]));
                SocketClose (EventObj "close"); DoClose;
                DoSendCommand "Page.navigate" None None] in
  let c := (sendCommand "Target.createTarget" None None opened).2 in
  Forall (fun a => a ≠ SocketOpen) later ∧
  sent (trace (run later (close c))) = sent (trace (close c)) ∧
  messageId (run later (close c)) = 1%Z.
Proof.
  intros later c.
  assert (Hl : Forall (fun a => a ≠ SocketOpen) later) by (by repeat constructor).
  destruct (closed_client_sends_nothing c later Hl) as (_ & Hs & Hm & _).
  split; [exact Hl|]. split; [exact Hs|exact Hm].
Defined.

(** ** Promises of commands *)

Lemma step_settles_once_plain c a n :
  plain a → Inv c →
  settlements (commandPromise n) (trace (step c a)) =
    settlements (commandPromise n) (trace c) ∨
  (settlements (commandPromise n) (trace c) = [] ∧
   ∃ o, settlements (commandPromise n) (trace (step c a)) = [o]).
Proof.
  intros Hplain HI.
  assert (Hquiet : ∀ e c', trace c' = trace c → settles (commandPromise n) e = None →
            settlements (commandPromise n) (trace (emit e c')) =
            settlements (commandPromise n) (trace c)).
  { intros e c' Htr He. by rewrite trace_emit, settlements_snoc, He, Htr, app_nil_r. }
  assert (Hloud : ∀ e c' o, trace c' = trace c → settles (commandPromise n) e = Some o →
            settlements (commandPromise n) (trace c) = [] →
            settlements (commandPromise n) (trace (emit e c')) = [o]).
  { intros e c' o Htr He Hnil. by rewrite trace_emit, settlements_snoc, He, Htr, Hnil. }
  destruct a as [m ps sid|e cb| | |e|t|t rs]; [| | | | | |done].
  - unfold step, sendCommand. case_bool_decide; cbn [snd negb].
    + left. by apply Hquiet.
    + destruct (decide (n = promises c)) as [->|Hne].
      * right. split; [by apply (inv_unmade c HI)|]. eexists. apply Hloud; [done| |].
        -- simpl. by rewrite bool_decide_eq_true_2.
        -- by apply (inv_unmade c HI).
      * left. apply Hquiet; [done|]. simpl.
        rewrite bool_decide_eq_false_2; [done|]. intros [=]. done.
  - by left.
  - left. unfold step, close. case_bool_decide; [|done]. cbn [negb].
    change (trace (set_readyState CLOSING (emit WsClose c))) with (trace (emit WsClose c)).
    by apply Hquiet.
  - left. by apply Hquiet.
  - left. by apply Hquiet.
  - unfold step. destruct t as [text|d]; [left; by apply Hquiet|].
    destruct (pending_get c (prop d "id")) as [p|] eqn:Hget.
    + apply pending_get_Some in Hget as (k & Hk & Hp).
      rewrite onmessage_dispatch by congruence.
      rewrite (dispatch_reply d c k p) by done.
      destruct (inv_made c HI k p Hp) as (n' & -> & _).
      destruct (decide (n' = n)) as [->|Hne].
      * right. pose proof (inv_unsettled c HI k _ Hp) as Hnil. split; [done|].
        destruct (truthy (prop d "error")); eexists; (apply Hloud; [done| |done]);
          simpl; by rewrite bool_decide_eq_true_2.
      * left. apply Hquiet; [done|].
        destruct (truthy (prop d "error")); simpl;
          rewrite bool_decide_eq_false_2; try done; by intros [=].
    + left. by apply onmessage_not_a_reply.
Qed.

Lemma step_settles_once c a n :
  Inv c →
  settlements (commandPromise n) (trace (step c a)) =
    settlements (commandPromise n) (trace c) ∨
  (settlements (commandPromise n) (trace c) = [] ∧
   ∃ o, settlements (commandPromise n) (trace (step c a)) = [o]).
Proof.
  intros HI. destruct a as [m ps sid|e cb| | |e|t|t rs];
    try (by apply step_settles_once_plain).
  cbn [step].
  set (P := fun c' : Client =>
    Inv c' ∧
    (settlements (commandPromise n) (trace c') = settlements (commandPromise n) (trace c) ∨
     (settlements (commandPromise n) (trace c) = [] ∧
      ∃ o, settlements (commandPromise n) (trace c') = [o]))).
  assert (Hemit : ∀ c' e, (∀ q, settles q e = None) → is_send e = None → P c' → P (emit e c')).
  { intros c' e He Hs [HI' H]. split; [by apply Inv_emit_other|].
    by rewrite trace_emit, settlements_snoc, He, app_nil_r. }
  assert (HP : P (onmessage_reacting t rs c)); [|by destruct HP].
  apply (reacting_preserves P t rs c).
  - intros c' a' [HI' H]. split; [by apply Inv_client_call|].
    rewrite client_call_step.
    destruct (step_settles_once_plain c' (called_by_listener a') n
                (plain_called_by_listener a') HI') as [->|(Hnil & o & ->)]; [done|].
    right. destruct H as [H|(Hnil0 & o' & H)]; [|congruence].
    split; [congruence|by exists o].
  - intros c' cb arg. by apply Hemit.
  - intros c' e. by apply Hemit.
  - split; [done|by left].
  - split; [by apply (Inv_step_plain c (SocketMessage t))|].
    by apply (step_settles_once_plain c (SocketMessage t)).
Qed.

(** The promise of a command is settled at most once in the life of a
    client: [resolve] and [reject] are never called on a promise that one of
    them was called on before. *)
Theorem command_promise_settled_at_most_once u acts n :
  (length (settlements (commandPromise n) (trace (run acts (createClient u)))) ≤ 1)%nat.
Proof.
  assert (Hgen : ∀ c, Inv c →
    (length (settlements (commandPromise n) (trace c)) ≤ 1)%nat →
    (length (settlements (commandPromise n) (trace (run acts c))) ≤ 1)%nat).
  { induction acts as [|a acts IH]; intros c HI Hc; [done|].
    change (run (a :: acts) c) with (run acts (step c a)).
    apply IH; [by apply Inv_step|].
    destruct (step_settles_once c a n HI) as [->|(_ & o & ->)]; [done|simpl; lia]. }
  apply Hgen; [apply Inv_createClient|simpl; lia].
Qed.

(** Every entry of the table is a command in flight: its id is that of a
    frame that was sent, its promise is a command promise still pending, and
    no other entry holds the same promise. *)
Theorem pending_entries_are_in_flight c k p :
  reachable c → pendingCommands c !! k = Some p →
  k ∈ sent_ids (trace c) ∧
  promise_state p (trace c) = None ∧
  p ≠ connectionPromise ∧
  ∀ k', pendingCommands c !! k' = Some p → k' = k.
Proof.
  intros HI%reachable_Inv Hp. split_and!.
  - rewrite (inv_sent c HI). apply elem_of_seqZ.
    pose proof (inv_keys c HI k p Hp). lia.
  - unfold promise_state. by rewrite (inv_unsettled c HI k p Hp).
  - by destruct (inv_made c HI k p Hp) as (n & -> & _).
  - intros k' Hp'. by apply (inv_inj c HI k' k p).
Qed.

Lemma pending_entries_are_in_flight_witness :
  let c := run [SocketOpen; DoSendCommand "Page.getResourceTree" None None;
                DoSendCommand "Page.getFrameTree" None None;
                SocketMessage (Parsed (obj [("id", JNum 1); ("result", obj [])]))]
               (createClient "ws://devtools/concurrent") in
  reachable c ∧ pendingCommands c !! 2%Z = Some (commandPromise 1) ∧
  2%Z ∈ sent_ids (trace c) ∧ promise_state (commandPromise 1) (trace c) = None.
Proof.
  intros c. assert (Hr : reachable c) by (by eexists _, _).
  destruct (pending_entries_are_in_flight c 2 (commandPromise 1) Hr eq_refl)
    as (H1 & H2 & _).
  split; [exact Hr|]. split; [reflexivity|]. split; [exact H1|exact H2].
Defined.

(** The law of correlation for one call.  After [sendCommand] on an open
    socket, whatever the client is asked and whatever arrives, the promise
    returned is settled by the first frame carrying the id of the call, with
    the outcome that frame carries, and by nothing else; as long as no such
    frame arrives the command stays in the table. *)
Theorem promise_settled_by_first_reply c method params sessionId later :
  reachable c → readyState c = OPEN →
  let r := sendCommand method params sessionId c in
  let k := (messageId c + 1)%Z in
  settlements r.1 (trace (run later r.2)) =
    from_option (fun d => [reply_outcome d]) [] (first_reply k later) ∧
  (first_reply k later = None → pendingCommands (run later r.2) !! k = Some r.1).
Proof.
  intros HI%reachable_Inv Hopen r k.
  destruct (sendCommand_open method params sessionId c Hopen) as (_ & _ & Hpend & _).
  fold r in Hpend.
  assert (Hp : pendingCommands r.2 !! k = Some r.1)
    by (rewrite Hpend; apply lookup_insert_eq).
  pose proof (Inv_sendCommand method params sessionId c HI) as HI'. fold r in HI'.
  destruct (run_settles_by_first_reply later r.2 k r.1 HI' Hp) as [Hs Ht].
  split; [done|]. intros Hnone. by rewrite Hnone in Ht.
Qed.

Lemma promise_settled_by_first_reply_witness :
  let later := [DoSendCommand "Page.enable" None None;
                SocketMessage (Parsed (obj [("method", JStr "Page.loadEventFired")]));
                SocketMessage (Parsed (obj [("id", JNum 2); ("result", obj [])]));
                DoClose;
                SocketMessage (Parsed (obj [("id", JNum 1); ("error", obj [("code", JNum 1)])]));
                SocketMessage (Parsed (obj [("id", JNum 1); ("result", obj [])]))] in
  reachable opened ∧ readyState opened = OPEN ∧
  settlements (sendCommand "Page.navigate" None None opened).1
    (trace (run later (sendCommand "Page.navigate" None None opened).2))
  = [Rejected (data (obj [("code", JNum 1)]))].
Proof.
  intros later.
  assert (Hr : reachable opened) by (by exists "ws://devtools/test", [SocketOpen]).
  split; [exact Hr|]. split; [reflexivity|].
  exact (proj1 (promise_settled_by_first_reply opened "Page.navigate" None None later
                  Hr eq_refl)).
Defined.

(** ** Listeners over the life of a client *)

(** There is no unsubscribing: whatever happens, the listeners an event had
    stay, in their order, and new ones come after them. *)
Theorem listeners_only_grow c acts event :
  listeners_of c event `prefix_of` listeners_of (run acts c) event.
Proof.
  revert c. induction acts as [|a acts IH]; intros c; [done|].
  change (run (a :: acts) c) with (run acts (step c a)).
  etrans; [apply listeners_grow_step|apply IH].
Qed.

(** The calls one action makes: none, unless it is a frame with a string
    under [method], and then only of listeners of that method, with the
    [params] of the frame. *)
Lemma step_calls_plain c a :
  plain a →
  ∃ new, calls (trace (step c a)) = calls (trace c) ++ new ∧
    ∀ cb arg, (cb, arg) ∈ new →
      ∃ d m, a = SocketMessage (Parsed d) ∧ prop d "method" = data (JStr m) ∧
             cb ∈ listeners_of c m ∧ arg = prop d "params".
Proof.
  intros Hplain.
  assert (Hquiet : ∀ e c', trace c' = trace c → is_call e = None →
    ∃ new, calls (trace (emit e c')) = calls (trace c) ++ new ∧
      ∀ cb arg, (cb, arg) ∈ new →
        ∃ d m, a = SocketMessage (Parsed d) ∧ prop d "method" = data (JStr m) ∧
               cb ∈ listeners_of c m ∧ arg = prop d "params").
  { intros e c' Htr He. exists []. rewrite trace_emit, calls_snoc, He, Htr.
    split; [done|]. intros cb arg Hin. by apply elem_of_nil in Hin. }
  assert (Hnone : ∀ c', trace c' = trace c →
    ∃ new, calls (trace c') = calls (trace c) ++ new ∧
      ∀ cb arg, (cb, arg) ∈ new →
        ∃ d m, a = SocketMessage (Parsed d) ∧ prop d "method" = data (JStr m) ∧
               cb ∈ listeners_of c m ∧ arg = prop d "params").
  { intros c' Htr. exists []. rewrite Htr, app_nil_r.
    split; [done|]. intros cb arg Hin. by apply elem_of_nil in Hin. }
  destruct a as [m ps sid|e cb| | |e|t|t rs]; [| | | | | |done].
  - unfold step, sendCommand. case_bool_decide; cbn [snd negb]; by apply Hquiet.
  - by apply Hnone.
  - unfold step, close. case_bool_decide; cbn [negb]; [|by apply Hnone].
    change (trace (set_readyState CLOSING (emit WsClose c))) with (trace (emit WsClose c)).
    by apply Hquiet.
  - by apply Hquiet.
  - by apply Hquiet.
  - unfold step. destruct t as [text|d]; [by apply Hquiet|].
    destruct d as [|b|n|s|items|fields]; try by apply Hnone. { by apply Hquiet. }
    change (onmessage (Parsed (JObj fields)) c) with (dispatch (JObj fields) c).
    set (d := JObj fields). unfold dispatch.
    destruct (if truthy (prop d "id") then _ else _) as [p|].
    + destruct (truthy (prop d "error")); apply Hquiet; try done;
        unfold pending_delete; by destruct (number_key _).
    + destruct (truthy (prop d "method")); [|by apply Hnone].
      destruct (listeners_get c (prop d "method")) as [l|] eqn:Hl; [|by apply Hnone].
      rewrite forEach_call_unfold. cbn [trace].
      exists ((fun cb => (cb, prop d "params")) <$> l). split.
      * unfold calls at 1. rewrite omap_app. by rewrite <- calls_forEach.
      * intros cb arg (cb' & [= -> ->] & Hin)%list_elem_of_fmap.
        unfold listeners_get in Hl.
        destruct (string_key (prop d "method")) as [m|] eqn:Hm; [|done]. simpl in Hl.
        exists d, m. split; [done|]. split.
        -- destruct (prop d "method") as [|[]| |]; try done. simpl in Hm. congruence.
        -- split; [|done]. unfold listeners_of. by rewrite Hl.
Qed.

Lemma not_pending c d :
  Inv c → (if truthy (prop d "id") then pending_get c (prop d "id") else None) = None →
  pending_get c (prop d "id") = None.
Proof.
  intros HI Hif. destruct (pending_get c (prop d "id")) as [p|] eqn:Hget; [|done].
  apply pending_get_Some in Hget as (k & Hk & Hp).
  rewrite (truthy_number_key _ _ Hk) in Hif.
  pose proof (inv_keys c HI k p Hp). destruct (Z.eqb_spec k 0); [lia|done].
Qed.

(** The calls one action makes: none, unless it is a frame with a string
    under [method]; then the listeners called are listeners of that method,
    registered when the frame came or by a listener called for it, and they
    are passed the [params] of the frame. *)
Lemma step_calls c a :
  Inv c →
  ∃ new, calls (trace (step c a)) = calls (trace c) ++ new ∧
    ∀ cb arg, (cb, arg) ∈ new →
      ∃ d m, frame_of a = Some d ∧ prop d "method" = data (JStr m) ∧
             arg = prop d "params" ∧
             (cb ∈ listeners_of c m ∨
              ∃ t rs, a = SocketMessageReacting t rs ∧ cb ∈ registers m rs).
Proof.
  intros HI.
  assert (Hplain : ∀ a', plain a' → frame_of a' = frame_of a →
    ∃ new, calls (trace (step c a')) = calls (trace c) ++ new ∧
      ∀ cb arg, (cb, arg) ∈ new →
        ∃ d m, frame_of a = Some d ∧ prop d "method" = data (JStr m) ∧
               arg = prop d "params" ∧
               (cb ∈ listeners_of c m ∨
                ∃ t rs, a = SocketMessageReacting t rs ∧ cb ∈ registers m rs)).
  { intros a' Ha' Hf. destruct (step_calls_plain c a' Ha') as (new & Hnew & Hin).
    exists new. split; [done|]. intros cb arg Hcb.
    destruct (Hin cb arg Hcb) as (d & m & -> & Hm & Hl & Harg).
    exists d, m. rewrite <- Hf. split_and!; try done. by left. }
  destruct a as [m ps sid|e cb| | |e|t|t rs]; try (by apply Hplain).
  cbn [step].
  destruct (onmessage_reacting_cases t rs c) as [->|(d & m & -> & Hif & Hm & Hne & ->)].
  - by apply (Hplain (SocketMessage t)).
  - pose proof (not_pending c d HI Hif) as Hget.
    destruct (delivery c d m rs HI Hne Hm Hget) as (_ & _ & Hin & Hcalls & _ & _).
    cbv zeta in *.
    rewrite (onmessage_reacting_dispatch d) in Hin, Hcalls
      by (intros ->; by rewrite prop_JNull in Hm).
    rewrite (dispatch_reacting_event d m) in Hin, Hcalls by done.
    eexists. split; [exact Hcalls|].
    intros cb arg (cb' & [= -> ->] & Hcb)%list_elem_of_fmap.
    exists d, m. split_and!; try done.
    apply elem_of_take in Hcb as (i & Hcb & _).
    apply list_elem_of_lookup_2 in Hcb.
    destruct (Hin cb' Hcb) as [?|?]; [by left|right]. by exists (Parsed d), rs.
Qed.

(** A callback is never called out of the blue: every call in the life of a
    client is due to a frame that carried a method name for which the
    callback was registered when the frame came, or was registered by a
    listener while that frame was delivered; and the call passes the
    [params] of that frame. *)
Theorem callbacks_called_only_for_their_method u acts cb arg :
  (cb, arg) ∈ calls (trace (run acts (createClient u))) →
  ∃ before a d after m,
    acts = before ++ a :: after ∧ frame_of a = Some d ∧
    prop d "method" = data (JStr m) ∧
    arg = prop d "params" ∧
    (cb ∈ listeners_of (run before (createClient u)) m ∨
     ∃ t rs, a = SocketMessageReacting t rs ∧ cb ∈ registers m rs).
Proof.
  induction acts as [|a acts IH] using rev_ind.
  - intros Hin. by apply elem_of_nil in Hin.
  - unfold run. rewrite foldl_snoc. fold (run acts (createClient u)).
    destruct (step_calls (run acts (createClient u)) a (Inv_reachable u acts))
      as (new & -> & Hnew).
    intros [Hold|Hin]%elem_of_app.
    + destruct (IH Hold) as (before & a0 & d & after & m & -> & Hf & Hm & Harg & Hreg).
      exists before, a0, d, (after ++ [a]), m. split_and!; try done.
      by rewrite <- app_assoc.
    + destruct (Hnew cb arg Hin) as (d & m & Hf & Hm & Harg & Hl).
      exists acts, a, d, [], m. by split_and!.
Qed.

Lemma callbacks_called_only_for_their_method_witness :
  let load := obj [("method", JStr "Page.loadEventFired");
                   ("params", obj [("timestamp", JNum 7)])] in
  let acts := [SocketOpen; DoOn "Page.loadEventFired" 3;
               SocketMessageReacting (Parsed load)
                 [mkReaction [CallOn "Page.loadEventFired" 4] None]] in
  calls (trace (run acts (createClient "ws://devtools/events")))
  = [(3%nat, data (obj [("timestamp", JNum 7)]));
     (4%nat, data (obj [("timestamp", JNum 7)]))] ∧
  ∃ before a d after m,
    acts = before ++ a :: after ∧ frame_of a = Some d ∧
    prop d "method" = data (JStr m) ∧
    data (obj [("timestamp", JNum 7)]) = prop d "params" ∧
    (4%nat ∈ listeners_of (run before (createClient "ws://devtools/events")) m ∨
     ∃ t rs, a = SocketMessageReacting t rs ∧ 4%nat ∈ registers m rs).
Proof.
  intros load acts.
  assert (Hcalls : calls (trace (run acts (createClient "ws://devtools/events")))
                   = [(3%nat, data (obj [("timestamp", JNum 7)]));
                      (4%nat, data (obj [("timestamp", JNum 7)]))]) by reflexivity.
  split; [exact Hcalls|].
  apply (callbacks_called_only_for_their_method "ws://devtools/events" acts).
  rewrite Hcalls. apply elem_of_cons. right. apply list_elem_of_here.
Defined.

(** * Properties of launching and closing the browser *)

(** ** Finding the executable *)

Lemma for_candidates_first host candidates :
  match (Browser.for_candidates host candidates).2 with
  | Returns path =>
      ∃ before after,
        candidates = before ++ path :: after ∧
        Forall (fun p => Browser.checkPath host p = false) before ∧
        Browser.checkPath host path = true ∧
        (Browser.for_candidates host candidates).1 = RunVersion <$> (before ++ [path])
  | Throws e =>
      e = ErrorObj "Could not find a compatible browser installed on this system" ∧
      Forall (fun p => Browser.checkPath host p = false) candidates ∧
      (Browser.for_candidates host candidates).1 = RunVersion <$> candidates
  end.
Proof.
  induction candidates as [|p rest IH]; simpl.
  - split_and!; done.
  - destruct (Browser.checkPath host p) eqn:Hp; simpl.
    + exists [], rest. split_and!; done.
    + destruct (Browser.for_candidates host rest).2 as [path|e].
      * destruct IH as (before & after & -> & Hbefore & Hpath & ->).
        exists (p :: before), after. split_and!; try done. by constructor.
      * destruct IH as (-> & Hall & ->). split_and!; try done. by constructor.
Qed.

(** [findChromeExecutable] returns the first candidate of the host's list
    whose [--version] run exits with 0: the candidates before it were run
    and failed, those after it are not run.  It throws exactly when every
    candidate was run and failed. *)
Theorem findChromeExecutable_first_passing host :
  let candidates := Browser.findExecutablePathCandidates host in
  match (Browser.findChromeExecutable host).2 with
  | Returns path =>
      ∃ before after,
        candidates = before ++ path :: after ∧
        Forall (fun p => Browser.checkPath host p = false) before ∧
        Browser.checkPath host path = true ∧
        (Browser.findChromeExecutable host).1 = RunVersion <$> (before ++ [path])
  | Throws e =>
      e = ErrorObj "Could not find a compatible browser installed on this system" ∧
      Forall (fun p => Browser.checkPath host p = false) candidates ∧
      (Browser.findChromeExecutable host).1 = RunVersion <$> candidates
  end.
Proof. apply for_candidates_first. Qed.

(** ** Waiting for the debugging endpoint *)

Lemma rounds_retry host url n i :
  usable (fetch host url i) = None →
  Browser.rounds host url (S n) i =
  (Fetch url :: Delay 250 :: (Browser.rounds host url n (S i)).1,
   (Browser.rounds host url n (S i)).2).
Proof.
  intros Hu. simpl. destruct (fetch host url i) as [|[] [text|[]]]; simpl in *; done.
Qed.

Lemma rounds_return host url n i v :
  usable (fetch host url i) = Some v →
  Browser.rounds host url (S n) i = ([Fetch url], Returns v).
Proof.
  intros Hu. simpl. destruct (fetch host url i) as [|[] [text|[]]]; simpl in *;
    try done; by injection Hu as <-.
Qed.

Lemma rounds_first_usable host url n i k v :
  (k < n)%nat →
  (∀ j, (j < k)%nat → usable (fetch host url (i + j)) = None) →
  usable (fetch host url (i + k)) = Some v →
  Browser.rounds host url n i =
  (concat (replicate k [Fetch url; Delay 250]) ++ [Fetch url], Returns v).
Proof.
  revert n i. induction k as [|k IH]; intros n i Hlt Hnone Hsome.
  - destruct n as [|n]; [lia|]. rewrite Nat.add_0_r in Hsome.
    by rewrite (rounds_return _ _ _ _ v).
  - destruct n as [|n]; [lia|].
    rewrite rounds_retry by (specialize (Hnone 0%nat); rewrite Nat.add_0_r in Hnone;
                             apply Hnone; lia).
    rewrite (IH n (S i)); [done|lia| |].
    + intros j Hj. replace (S i + j)%nat with (i + S j)%nat by lia. apply Hnone. lia.
    + by replace (S i + k)%nat with (i + S k)%nat by lia.
Qed.

Lemma rounds_none_usable host url n i :
  (∀ j, (j < n)%nat → usable (fetch host url (i + j)) = None) →
  Browser.rounds host url n i =
  (concat (replicate n [Fetch url; Delay 250]),
   Throws (ErrorObj "Failed to connect to the browser's debugger endpoint.")).
Proof.
  revert i. induction n as [|n IH]; intros i Hnone; [done|].
  rewrite rounds_retry by (specialize (Hnone 0%nat); rewrite Nat.add_0_r in Hnone;
                           apply Hnone; lia).
  rewrite IH; [done|].
  intros j Hj. replace (S i + j)%nat with (i + S j)%nat by lia. apply Hnone. lia.
Qed.

(** [retrieveWebSocketUrl] asks the version endpoint up to 20 times.  It
    returns what the first usable answer holds under [webSocketDebuggerUrl]
    ([undefined] when the answer has no such property), after one request
    and one delay of 250 ms for each round before; when none of 20 answers
    is usable it throws, after 20 requests and 20 delays. *)
Theorem retrieveWebSocketUrl_rounds host port :
  let url := Browser.version_url port in
  (∀ k v, (k < 20)%nat →
     (∀ j, (j < k)%nat → usable (fetch host url j) = None) →
     usable (fetch host url k) = Some v →
     Browser.retrieveWebSocketUrl host port =
     (concat (replicate k [Fetch url; Delay 250]) ++ [Fetch url], Returns v)) ∧
  ((∀ j, (j < 20)%nat → usable (fetch host url j) = None) →
     Browser.retrieveWebSocketUrl host port =
     (concat (replicate 20 [Fetch url; Delay 250]),
      Throws (ErrorObj "Failed to connect to the browser's debugger endpoint."))).
Proof.
  split.
  - intros k v Hk Hnone Hsome. by apply (rounds_first_usable host _ 20 0 k v).
  - intros Hnone. by apply (rounds_none_usable host _ 20 0).
Qed.

Lemma retrieveWebSocketUrl_rounds_witness :
  let url := Browser.version_url 9222 in
  (∀ j, (j < 2)%nat → usable (fetch chromium_host url j) = None) ∧
  usable (fetch chromium_host url 2)
    = Some (data (JStr "ws://127.0.0.1:9222/devtools/browser/abc")) ∧
  Browser.retrieveWebSocketUrl chromium_host 9222 =
  ([Fetch url; Delay 250; Fetch url; Delay 250; Fetch url],
   Returns (data (JStr "ws://127.0.0.1:9222/devtools/browser/abc"))).
Proof.
  intros url.
  assert (Hnone : ∀ j, (j < 2)%nat → usable (fetch chromium_host url j) = None).
  { intros j Hj. destruct j as [|[|j]]; [reflexivity|reflexivity|lia]. }
  split; [exact Hnone|]. split; [reflexivity|].
  destruct (retrieveWebSocketUrl_rounds chromium_host 9222) as [Hfirst _].
  apply (Hfirst 2%nat); [lia|exact Hnone|reflexivity].
Defined.

Lemma fetches_cons e es : fetches (e :: es) = ((if is_fetch e then 1 else 0) + fetches es)%nat.
Proof. unfold fetches. rewrite filter_cons. by destruct e. Qed.

Lemma rounds_bounded host url n i :
  let r := Browser.rounds host url n i in
  (fetches r.1 ≤ n)%nat ∧
  waited r.1 = (250 * (Z.of_nat (fetches r.1) - (if r.2 is Returns _ then 1 else 0)))%Z ∧
  Forall (fun e => e = Fetch url ∨ e = Delay 250) r.1 ∧
  (∀ e, r.2 = Throws e → fetches r.1 = n) ∧
  (∀ v, r.2 = Returns v → (1 ≤ fetches r.1)%nat).
Proof.
  revert i. induction n as [|n IH]; intros i.
  - cbn. split_and!; try done; try lia.
  - destruct (usable (fetch host url i)) as [v|] eqn:Hu.
    + rewrite (rounds_return _ _ _ _ v) by done. cbn [fst snd].
      assert (Hf : fetches [Fetch url] = 1%nat) by reflexivity.
      assert (Hw : waited [Fetch url] = 0%Z) by reflexivity.
      rewrite Hf, Hw. split_and!; [lia|lia| |done|intros; lia].
      constructor; [by left|constructor].
    + rewrite rounds_retry by done. destruct (IH (S i)) as (H1 & H2 & H3 & H4 & H5).
      cbn zeta in *. cbn [fst snd].
      rewrite !fetches_cons. cbn [is_fetch]. split_and!.
      * lia.
      * unfold waited in *. cbn [fmap list_fmap foldr delay_of]. rewrite H2.
        destruct (Browser.rounds host url n (S i)).2; lia.
      * constructor; [by left|]. constructor; [by right|done].
      * intros e He. rewrite (H4 e He). lia.
      * intros v Hv. lia.
Qed.

(** Whatever the endpoint does, [retrieveWebSocketUrl] makes at most 20
    requests, all to the version address of its port, and waits 250 ms after
    each request but the one that succeeds: never more than 5 seconds, and
    exactly 20 requests and 5 seconds when it throws. *)
Theorem retrieveWebSocketUrl_bounded host port :
  let r := Browser.retrieveWebSocketUrl host port in
  (fetches r.1 ≤ 20)%nat ∧
  (0 ≤ waited r.1 ≤ 5000)%Z ∧
  Forall (fun e => e = Fetch (Browser.version_url port) ∨ e = Delay 250) r.1 ∧
  match r.2 with
  | Returns _ => waited r.1 = (250 * (Z.of_nat (fetches r.1) - 1))%Z ∧ (1 ≤ fetches r.1)%nat
  | Throws _ => fetches r.1 = 20%nat ∧ waited r.1 = 5000%Z
  end.
Proof.
  unfold Browser.retrieveWebSocketUrl.
  pose proof (rounds_bounded host (Browser.version_url port) 20 0) as H.
  cbv zeta in *.
  destruct (Browser.rounds host (Browser.version_url port) 20 0) as [es [v|e]];
    cbn [fst snd] in *; destruct H as (H1 & H2 & H3 & H4 & H5).
  - specialize (H5 v eq_refl). split; [exact H1|]. split; [lia|]. split; [exact H3|].
    split; [exact H2|exact H5].
  - specialize (H4 e eq_refl). split; [exact H1|]. split; [lia|]. split; [exact H3|].
    split; [exact H4|lia].
Qed.

(** ** Launching *)

Lemma for_candidates_found host before path after :
  Forall (fun p => Browser.checkPath host p = false) before →
  Browser.checkPath host path = true →
  Browser.for_candidates host (before ++ path :: after) =
  (RunVersion <$> (before ++ [path]), Returns path).
Proof.
  intros Hbefore Hpath. induction Hbefore as [|p before Hp _ IH]; simpl.
  - by rewrite Hpath.
  - by rewrite Hp, IH.
Qed.

Lemma for_candidates_none host candidates :
  Forall (fun p => Browser.checkPath host p = false) candidates →
  Browser.for_candidates host candidates =
  (RunVersion <$> candidates,
   Throws (ErrorObj "Could not find a compatible browser installed on this system")).
Proof. induction 1 as [|p rest Hp _ IH]; simpl; [done|]. by rewrite Hp, IH. Qed.

(** Without a working executable [launch] throws before it has spawned
    anything or asked any endpoint: all it did is run the candidates with
    [--version].  On a host that is neither Linux nor macOS there is no
    candidate, and [launch] throws without having run anything. *)
Theorem launch_without_executable host :
  (Forall (fun p => Browser.checkPath host p = false)
          (Browser.findExecutablePathCandidates host) →
   Browser.launch host =
   (RunVersion <$> Browser.findExecutablePathCandidates host,
    Browser.LaunchThrows
      (ErrorObj "Could not find a compatible browser installed on this system"))) ∧
  (os host ≠ "linux" → os host ≠ "darwin" →
   Browser.launch host =
   ([], Browser.LaunchThrows
          (ErrorObj "Could not find a compatible browser installed on this system"))).
Proof.
  assert (Hnone : Forall (fun p => Browser.checkPath host p = false)
                    (Browser.findExecutablePathCandidates host) →
    Browser.launch host =
    (RunVersion <$> Browser.findExecutablePathCandidates host,
     Browser.LaunchThrows
       (ErrorObj "Could not find a compatible browser installed on this system"))).
  { intros Hall. unfold Browser.launch, Browser.findChromeExecutable.
    by rewrite for_candidates_none. }
  split; [exact Hnone|]. intros Hlinux Hdarwin.
  assert (Browser.findExecutablePathCandidates host = []) as Hc.
  { unfold Browser.findExecutablePathCandidates.
    destruct (String.eqb_spec (os host) "linux"); [done|].
    by destruct (String.eqb_spec (os host) "darwin"). }
  rewrite Hnone; rewrite Hc; [done|constructor].
Qed.

Lemma launch_without_executable_witness :
  let host := mkHost "windows" (fun _ => Some 0%Z)
                (fun _ _ => Returns (mkProcess (fun _ => Killed)))
                (fun _ _ => NetworkError) in
  os host ≠ "linux" ∧ os host ≠ "darwin" ∧
  Browser.launch host =
  ([], Browser.LaunchThrows
         (ErrorObj "Could not find a compatible browser installed on this system")).
Proof.
  intros host. split; [discriminate|]. split; [discriminate|].
  apply (proj2 (launch_without_executable host)); discriminate.
Defined.

(** With a working executable [launch] runs the candidates up to the first
    that passes, spawns that one with the headless flags and port 9222, and
    only then asks the version endpoint of port 9222.  It throws what
    [spawn] or the wait for the endpoint throws, and otherwise goes on to
    [createClient] with the process spawned and the address retrieved.  It
    never kills the process: when the endpoint does not answer, the browser
    it spawned is left running. *)
Theorem launch_spawns_then_asks host before path after :
  Browser.findExecutablePathCandidates host = before ++ path :: after →
  Forall (fun p => Browser.checkPath host p = false) before →
  Browser.checkPath host path = true →
  let asked := Browser.retrieveWebSocketUrl host 9222 in
  Browser.launch host =
    match spawn host path launch_flags with
    | Throws e =>
        ((RunVersion <$> (before ++ [path])) ++ [Spawn path launch_flags],
         Browser.LaunchThrows e)
    | Returns process =>
        ((RunVersion <$> (before ++ [path])) ++ Spawn path launch_flags :: asked.1,
         match asked.2 with
         | Throws e => Browser.LaunchThrows e
         | Returns webSocketUrl => Browser.CreateClient process webSocketUrl
         end)
    end ∧
  Forall (fun e => ∀ signal, e ≠ Kill signal) (Browser.launch host).1.
Proof.
  intros Hc Hbefore Hpath asked.
  assert (Heq : Browser.launch host =
    match spawn host path launch_flags with
    | Throws e =>
        ((RunVersion <$> (before ++ [path])) ++ [Spawn path launch_flags],
         Browser.LaunchThrows e)
    | Returns process =>
        ((RunVersion <$> (before ++ [path])) ++ Spawn path launch_flags :: asked.1,
         match asked.2 with
         | Throws e => Browser.LaunchThrows e
         | Returns webSocketUrl => Browser.CreateClient process webSocketUrl
         end)
    end).
  { unfold Browser.launch, Browser.findChromeExecutable.
    rewrite Hc, for_candidates_found by done. cbn [fst snd].
    change (["--headless"; "--remote-debugging-port=" +:+ pretty 9222%Z;
             "--disable-gpu"; "--no-sandbox"]) with launch_flags.
    destruct (spawn host path launch_flags) as [process|e]; [|done].
    fold asked. by destruct asked.2. }
  split; [exact Heq|]. rewrite Heq.
  assert (Hchecks : Forall (fun e => ∀ signal, e ≠ Kill signal)
                      (RunVersion <$> (before ++ [path]))).
  { apply Forall_fmap, Forall_true. by intros p signal. }
  assert (Hasked : Forall (fun e => ∀ signal, e ≠ Kill signal) asked.1).
  { destruct (rounds_bounded host (Browser.version_url 9222) 20 0) as (_ & _ & H & _).
    eapply Forall_impl; [exact H|]. by intros e [->| ->] signal. }
  destruct (spawn host path launch_flags) as [process|e]; cbn [fst].
  - apply Forall_app. split; [done|]. constructor; [done|exact Hasked].
  - apply Forall_app. split; [done|]. by repeat constructor.
Qed.

Lemma launch_spawns_then_asks_witness :
  let before := ["google-chrome"; "google-chrome-stable"; "chromium-browser"] in
  let url := Browser.version_url 9222 in
  Browser.findExecutablePathCandidates chromium_host = before ++ "chromium" :: [] ∧
  Forall (fun p => Browser.checkPath chromium_host p = false) before ∧
  Browser.checkPath chromium_host "chromium" = true ∧
  Browser.launch chromium_host =
  ([RunVersion "google-chrome"; RunVersion "google-chrome-stable";
    RunVersion "chromium-browser"; RunVersion "chromium";
    Spawn "chromium" launch_flags;
    Fetch url; Delay 250; Fetch url; Delay 250; Fetch url],
   Browser.CreateClient (mkProcess (fun _ => Killed))
     (data (JStr "ws://127.0.0.1:9222/devtools/browser/abc"))).
Proof.
  intros before url.
  assert (Hb : Forall (fun p => Browser.checkPath chromium_host p = false) before)
    by (by repeat constructor).
  split; [reflexivity|]. split; [exact Hb|]. split; [reflexivity|].
  exact (proj1 (launch_spawns_then_asks chromium_host before "chromium" [] eq_refl Hb eq_refl)).
Defined.

(** ** Closing the browser *)

(** [close(browser)] first closes the client, then signals SIGINT to the
    process, once.  A process that is already gone ([NotFound]) is no error;
    any other failure of [kill] is thrown on, and then the exit of the
    process is not awaited.  Afterwards the socket of the client is never
    OPEN, and it was asked to close exactly when it was OPEN before. *)
Theorem browser_close_signals_sigint browser :
  let r := Browser.close browser in
  r.1.2 = [Kill "SIGINT"] ∧
  Browser.client r.1.1 = close (Browser.client browser) ∧
  Browser.process r.1.1 = Browser.process browser ∧
  readyState (Browser.client r.1.1) ≠ OPEN ∧
  (r.2 = Browser.AwaitStatus ↔
     kill (Browser.process browser) "SIGINT" = Killed ∨
     kill (Browser.process browser) "SIGINT" = KillNotFound) ∧
  (∀ e, r.2 = Browser.CloseThrows e ↔ kill (Browser.process browser) "SIGINT" = KillFails e) ∧
  (Browser.close r.1.1).1.1 = r.1.1.
Proof.
  intros r. subst r. unfold Browser.close.
  assert (Hst : readyState (close (Browser.client browser)) ≠ OPEN).
  { unfold close. case_bool_decide; simpl; done. }
  assert (Hidem : close (close (Browser.client browser)) = close (Browser.client browser)).
  { unfold close at 1. by rewrite bool_decide_eq_false_2. }
  destruct (kill (Browser.process browser) "SIGINT") as [| |e0] eqn:Hk;
    cbn [fst snd Browser.client Browser.process]; rewrite ?Hk, ?Hidem.
  - split_and!; try done. split; [by left|done].
  - split_and!; try done. split; [by right|done].
  - split_and!; try done;
      try (split; [done|by intros [|]]);
      try (intros e; split; intros [=]; by subst).
Qed.

(** * Properties of the page functions *)

(** ** Commands sent by the page functions *)

(** With a string or nothing for session id, the call is the typed one. *)
Lemma sendCommand_untyped_typed method params sessionId c :
  Page.sendCommand_untyped method params (JStr <$> sessionId) c =
  sendCommand method (Some params) sessionId c.
Proof.
  unfold Page.sendCommand_untyped, sendCommand, Page.command_frame.
  case_bool_decide; simpl; destruct sessionId as [s|]; simpl; try done.
  by destruct (String.eqb s "").
Qed.

Lemma command_frame_id id method params sessionId :
  prop (Page.command_frame id method params sessionId) "id" = data (JNum id).
Proof.
  unfold Page.command_frame.
  by destruct (if truthy (Page.val sessionId) then sessionId else None).
Qed.

Lemma Inv_sendCommand_untyped method params sessionId c :
  Inv c → Inv (Page.sendCommand_untyped method params sessionId c).2.
Proof.
  intros HI. unfold Page.sendCommand_untyped. case_bool_decide as Hopen; simpl.
  - destruct HI as [Hc Hk Hm Hu Hi Hn Hs Hsent]. split; simpl.
    + lia.
    + intros k p. rewrite lookup_insert. case_decide; [intros; lia|].
      intros H1%Hk. lia.
    + intros k p. rewrite lookup_insert. case_decide.
      * intros [= <-]. eauto.
      * intros (n & -> & ?)%Hm. eauto with lia.
    + intros k p. rewrite lookup_insert, settlements_snoc. simpl. rewrite app_nil_r.
      case_decide.
      * intros [= <-]. by apply Hn.
      * apply Hu.
    + intros k1 k2 p. rewrite !lookup_insert. repeat case_decide; try congruence.
      * intros [= <-] (n & [= ->] & ?)%Hm. lia.
      * intros (n & -> & ?)%Hm [= Heq]. lia.
      * apply Hi.
    + intros n Hle. rewrite settlements_snoc. simpl. rewrite app_nil_r. apply Hn. lia.
    + done.
    + rewrite sent_ids_snoc, Hsent, seqZ_succ by done. f_equal. simpl.
      by rewrite command_frame_id.
  - pose proof (Inv_sendCommand method None None c HI) as H.
    unfold sendCommand in H. by rewrite bool_decide_eq_false_2 in H.
Qed.

Lemma sendCommand_untyped_open method params sessionId c :
  Inv c → readyState c = OPEN →
  let r := Page.sendCommand_untyped method params sessionId c in
  r.1 = commandPromise (promises c) ∧
  messageId r.2 = (messageId c + 1)%Z ∧
  readyState r.2 = OPEN ∧
  eventListeners r.2 = eventListeners c ∧
  pendingCommands r.2 = <[(messageId c + 1)%Z := r.1]> (pendingCommands c) ∧
  trace r.2 =
    trace c ++ [WsSend (Page.command_frame (messageId c + 1) method params sessionId)] ∧
  promise_state r.1 (trace r.2) = None.
Proof.
  intros HI Hopen. unfold Page.sendCommand_untyped.
  rewrite bool_decide_eq_true_2 by done. simpl. split_and!; try done.
  unfold promise_state. rewrite settlements_snoc. simpl.
  by rewrite (inv_unmade c HI), app_nil_r.
Qed.

Lemma sendCommand_untyped_not_open method params sessionId c :
  Inv c → readyState c ≠ OPEN →
  let r := Page.sendCommand_untyped method params sessionId c in
  messageId r.2 = messageId c ∧
  readyState r.2 = readyState c ∧
  eventListeners r.2 = eventListeners c ∧
  pendingCommands r.2 = pendingCommands c ∧
  sent (trace r.2) = sent (trace c) ∧
  promise_state r.1 (trace r.2) = Some (Rejected (ErrorObj "WebSocket is not open")).
Proof.
  intros HI Hopen. unfold Page.sendCommand_untyped.
  rewrite bool_decide_eq_false_2 by done. simpl. split_and!; try done.
  - unfold sent. rewrite omap_app. simpl. by rewrite app_nil_r.
  - unfold promise_state. rewrite settlements_snoc. simpl.
    by rewrite (inv_unmade c HI), bool_decide_eq_true_2.
Qed.

Lemma json_of_prop d key : Page.json_of (prop d key) = own_property d key.
Proof. unfold prop. by destruct (own_property d key). Qed.

Lemma drop_calls_emit_quiet e c' c :
  trace c' = trace c → is_call e = None →
  drop (length (calls (trace c))) (calls (trace (emit e c'))) = [].
Proof.
  intros Htr He. rewrite trace_emit, calls_snoc, He, Htr. simpl.
  rewrite app_nil_r. apply drop_all.
Qed.

Lemma client_set_client c w : Page.client (Page.set_client c w) = c.
Proof. done. Qed.

Lemma set_client_set_client c c' w :
  Page.set_client c (Page.set_client c' w) = Page.set_client c w.
Proof. done. Qed.

(** A reply in the world: the client settles the command; no callback runs. *)
Lemma happen_reply w d k p :
  Inv (Page.client w) → number_key (prop d "id") = Some k →
  pendingCommands (Page.client w) !! k = Some p →
  Page.happen w (Page.Frame (Parsed d)) =
  Page.set_client (dispatch d (Page.client w)) w.
Proof.
  intros HI Hk Hp. unfold Page.happen.
  rewrite onmessage_dispatch by congruence.
  rewrite (dispatch_reply d _ k p) by done.
  rewrite drop_calls_emit_quiet; [done|done|].
  by destruct (truthy (prop d "error")).
Qed.

(** One exchange: a function that awaits a command on an open socket, and
    the reply to this command.  The function goes on with the [result] of
    the reply, or throws its [error]; the client has sent one frame more and
    its table is as before. *)
Lemma await_reply {A : Type} method params sessionId (k : option json → Page.Script A) w d :
  Inv (Page.client w) → readyState (Page.client w) = OPEN →
  number_key (prop d "id") = Some (messageId (Page.client w) + 1)%Z →
  ∃ c',
    Page.advance (Page.start (Page.AwaitCommand method params sessionId k) w)
                 (Page.Frame (Parsed d)) =
      (if truthy (prop d "error") then (Page.Failed (prop d "error"), Page.set_client c' w)
       else Page.start (k (own_property d "result")) (Page.set_client c' w)) ∧
    Inv c' ∧ readyState c' = OPEN ∧
    messageId c' = (messageId (Page.client w) + 1)%Z ∧
    sent (trace c') = sent (trace (Page.client w)) ++
      [Page.command_frame (messageId (Page.client w) + 1) method params sessionId] ∧
    eventListeners c' = eventListeners (Page.client w) ∧
    pendingCommands c' = pendingCommands (Page.client w) ∧
    calls (trace c') = calls (trace (Page.client w)).
Proof.
  intros HI Hopen Hid. set (c := Page.client w) in *.
  destruct (sendCommand_untyped_open method params sessionId c HI Hopen)
    as (Hp & Hm & Ho & Hl & Hpend & Htr & Hps).
  pose proof (Inv_sendCommand_untyped method params sessionId c HI) as HI1.
  set (r := Page.sendCommand_untyped method params sessionId c) in *.
  assert (Hstart : Page.start (Page.AwaitCommand method params sessionId k) w =
                   (Page.OnCommand r.1 k, Page.set_client r.2 w)).
  { cbn [Page.start]. fold c. fold r. unfold Page.await_command.
    cbn [Page.client Page.set_client]. by rewrite Hps. }
  assert (Hlook : pendingCommands r.2 !! (messageId c + 1)%Z = Some r.1)
    by (rewrite Hpend; apply lookup_insert_eq).
  exists (dispatch d r.2). rewrite Hstart. unfold Page.advance. cbn [fst snd].
  rewrite (happen_reply _ d (messageId c + 1)%Z r.1) by done.
  rewrite client_set_client, set_client_set_client.
  pose proof (Inv_dispatch d r.2 HI1) as HI2.
  rewrite (dispatch_reply d r.2 _ r.1) in * by done.
  assert (Hfresh : pendingCommands c !! (messageId c + 1)%Z = None).
  { destruct (pendingCommands c !! (messageId c + 1)%Z) eqn:E; [|done].
    apply (inv_keys c HI) in E. lia. }
  split; [|split_and!; try done].
  - cbn [Page.resume]. unfold Page.await_command.
    rewrite client_set_client. unfold promise_state.
    rewrite trace_emit, settlements_snoc.
    change (trace (set_pendingCommands _ r.2)) with (trace r.2).
    rewrite (inv_unsettled r.2 HI1 _ _ Hlook).
    destruct (truthy (prop d "error")); simpl; rewrite bool_decide_eq_true_2 by done;
      simpl; [done|]. by rewrite json_of_prop.
  - rewrite trace_emit, sent_snoc.
    change (trace (set_pendingCommands _ r.2)) with (trace r.2).
    rewrite Htr, sent_snoc. simpl.
    destruct (truthy (prop d "error")); simpl; by rewrite app_nil_r.
  - simpl. rewrite Hpend, delete_insert_eq. by apply delete_id.
  - rewrite trace_emit, calls_snoc.
    change (trace (set_pendingCommands _ r.2)) with (trace r.2).
    rewrite Htr, calls_snoc. simpl.
    destruct (truthy (prop d "error")); simpl; by rewrite !app_nil_r.
Qed.

Lemma await_reply_awaited {A : Type} method params sessionId
    (k : option json → Page.Script A) w d :
  Inv (Page.client w) → readyState (Page.client w) = OPEN →
  number_key (prop d "id") = Some (messageId (Page.client w) + 1)%Z →
  ∃ c',
    Page.advance (Page.start (Page.AwaitCommand method params sessionId k) w)
                 (Page.Frame (Parsed d)) =
      match Page.awaited d with
      | Throws e => (Page.Failed e, Page.set_client c' w)
      | Returns result => Page.start (k result) (Page.set_client c' w)
      end ∧
    Inv c' ∧ readyState c' = OPEN ∧
    messageId c' = (messageId (Page.client w) + 1)%Z ∧
    sent (trace c') = sent (trace (Page.client w)) ++
      [Page.command_frame (messageId (Page.client w) + 1) method params sessionId] ∧
    eventListeners c' = eventListeners (Page.client w) ∧
    pendingCommands c' = pendingCommands (Page.client w) ∧
    calls (trace c') = calls (trace (Page.client w)).
Proof.
  intros HI Hopen Hid.
  destruct (await_reply method params sessionId k w d HI Hopen Hid) as (c' & Heq & H).
  exists c'. split; [|exact H]. rewrite Heq. unfold Page.awaited.
  by destruct (truthy (prop d "error")).
Qed.

(** Rewriting the exchange at the head of the goal. *)
Ltac exchange HI Hopen Hid c :=
  match goal with
  | |- context [Page.advance
                  (Page.start (Page.AwaitCommand ?m ?ps ?sid ?k) ?w0)
                  (Page.Frame (Parsed ?d))] =>
      let Heq := fresh "Heq" in
      destruct (await_reply_awaited m ps sid k w0 d HI Hopen Hid)
        as (c & Heq & ?HI & ?Ho & ?Hm & ?Hs & ?Hl & ?Hp & ?Hc);
      rewrite Heq; clear Heq
  end.

(** ** newPage *)

(** [newPage] is three commands, one after the other, each sent when the
    reply to the one before has arrived: [Target.createTarget] for
    [about:blank], [Target.attachToTarget] with the [targetId] of the first
    reply and [flatten], and [Page.enable] in the session of the second
    reply.  The page returned holds that [targetId] and that [sessionId]. *)
Theorem newPage_three_commands w d1 d2 d3 targetId sessionId result :
  reachable (Page.client w) → readyState (Page.client w) = OPEN →
  number_key (prop d1 "id") = Some (messageId (Page.client w) + 1)%Z →
  number_key (prop d2 "id") = Some (messageId (Page.client w) + 2)%Z →
  number_key (prop d3 "id") = Some (messageId (Page.client w) + 3)%Z →
  Page.taken d1 "targetId" = Returns targetId →
  Page.taken d2 "sessionId" = Returns sessionId →
  Page.awaited d3 = Returns result →
  let rw := Page.play [Page.Frame (Parsed d1); Page.Frame (Parsed d2);
                       Page.Frame (Parsed d3)]
                      (Page.start Page.newPage w) in
  rw.1 = Page.Finished (Page.mkPage targetId sessionId) ∧
  sent (trace (Page.client rw.2)) =
    sent (trace (Page.client w)) ++
    [Page.command_frame (messageId (Page.client w) + 1) "Target.createTarget"
       (obj [("url", JStr "about:blank")]) None;
     Page.command_frame (messageId (Page.client w) + 2) "Target.attachToTarget"
       (Page.literal [("targetId", targetId); ("flatten", Some (JBool true))]) None;
     Page.command_frame (messageId (Page.client w) + 3) "Page.enable" (obj []) sessionId] ∧
  pendingCommands (Page.client rw.2) = pendingCommands (Page.client w).
Proof.
  intros HI%reachable_Inv Hopen Hid1 Hid2 Hid3 Ht1 Ht2 Ht3 rw. subst rw.
  unfold Page.play. cbn [foldl]. unfold Page.newPage, Page.taken in *.
  exchange HI Hopen Hid1 c1.
  destruct (Page.awaited d1) as [r1|e1]; [|done]. rewrite Ht1. cbv beta iota.
  assert (Hid2' : number_key (prop d2 "id")
                  = Some (messageId (Page.client (Page.set_client c1 w)) + 1)%Z).
  { rewrite client_set_client, Hm, Hid2. f_equal. lia. }
  exchange HI0 Ho Hid2' c2.
  destruct (Page.awaited d2) as [r2|e2]; [|done]. rewrite Ht2. cbv beta iota.
  rewrite set_client_set_client in *. rewrite !client_set_client in *.
  assert (Hid3' : number_key (prop d3 "id")
                  = Some (messageId (Page.client (Page.set_client c2 w)) + 1)%Z).
  { rewrite client_set_client, Hm0, Hm, Hid3. f_equal. lia. }
  exchange HI1 Ho0 Hid3' c3.
  rewrite Ht3. cbn [Page.start fst snd].
  rewrite set_client_set_client in *. rewrite !client_set_client in *.
  split_and!; [done| |congruence].
  rewrite Hs1, Hs0, Hs, Hm0, Hm, <- !app_assoc. simpl.
  replace (messageId (Page.client w) + 1 + 1)%Z with (messageId (Page.client w) + 2)%Z
    by lia.
  by replace (messageId (Page.client w) + 2 + 1)%Z with (messageId (Page.client w) + 3)%Z
    by lia.
Qed.

Lemma newPage_three_commands_witness :
  reachable (Page.client open_world) ∧ readyState (Page.client open_world) = OPEN ∧
  Page.taken created_reply "targetId" = Returns (Some (JStr "t1")) ∧
  Page.taken attached_reply "sessionId" = Returns (Some (JStr "s1")) ∧
  (Page.play [Page.Frame (Parsed created_reply); Page.Frame (Parsed attached_reply);
              Page.Frame (Parsed enabled_reply)]
             (Page.start Page.newPage open_world)).1
  = Page.Finished (Page.mkPage (Some (JStr "t1")) (Some (JStr "s1"))).
Proof.
  assert (Hr : reachable (Page.client open_world))
    by (by exists "ws://devtools/test", [SocketOpen]).
  split; [exact Hr|]. do 3 (split; [reflexivity|]).
  exact (proj1 (newPage_three_commands open_world created_reply attached_reply
                  enabled_reply (Some (JStr "t1")) (Some (JStr "s1")) (Some (obj []))
                  Hr eq_refl eq_refl eq_refl eq_refl eq_refl eq_refl eq_refl)).
Defined.

(** [newPage] stops at the first reply that is an error or lacks what is read
    from it: it fails with the error of the reply (with a [TypeError] when
    the [result] to read from is missing or [null]), and the commands that
    would have followed are not sent. *)
Theorem newPage_stops_at_first_failure w d1 d2 d3 :
  reachable (Page.client w) → readyState (Page.client w) = OPEN →
  number_key (prop d1 "id") = Some (messageId (Page.client w) + 1)%Z →
  number_key (prop d2 "id") = Some (messageId (Page.client w) + 2)%Z →
  number_key (prop d3 "id") = Some (messageId (Page.client w) + 3)%Z →
  let f1 := Page.command_frame (messageId (Page.client w) + 1) "Target.createTarget"
              (obj [("url", JStr "about:blank")]) None in
  let f2 targetId :=
    Page.command_frame (messageId (Page.client w) + 2) "Target.attachToTarget"
      (Page.literal [("targetId", targetId); ("flatten", Some (JBool true))]) None in
  let f3 sessionId :=
    Page.command_frame (messageId (Page.client w) + 3) "Page.enable" (obj []) sessionId in
  (∀ e, Page.taken d1 "targetId" = Throws e →
     let rw := Page.play [Page.Frame (Parsed d1)] (Page.start Page.newPage w) in
     rw.1 = Page.Failed e ∧
     sent (trace (Page.client rw.2)) = sent (trace (Page.client w)) ++ [f1]) ∧
  (∀ targetId e,
     Page.taken d1 "targetId" = Returns targetId →
     Page.taken d2 "sessionId" = Throws e →
     let rw := Page.play [Page.Frame (Parsed d1); Page.Frame (Parsed d2)]
                         (Page.start Page.newPage w) in
     rw.1 = Page.Failed e ∧
     sent (trace (Page.client rw.2)) = sent (trace (Page.client w)) ++ [f1; f2 targetId]) ∧
  (∀ targetId sessionId e,
     Page.taken d1 "targetId" = Returns targetId →
     Page.taken d2 "sessionId" = Returns sessionId →
     Page.awaited d3 = Throws e →
     let rw := Page.play [Page.Frame (Parsed d1); Page.Frame (Parsed d2);
                          Page.Frame (Parsed d3)]
                         (Page.start Page.newPage w) in
     rw.1 = Page.Failed e ∧
     sent (trace (Page.client rw.2)) =
       sent (trace (Page.client w)) ++ [f1; f2 targetId; f3 sessionId]).
Proof.
  intros HI%reachable_Inv Hopen Hid1 Hid2 Hid3 f1 f2 f3. subst f1 f2 f3.
  unfold Page.play. cbn [foldl]. unfold Page.newPage, Page.taken.
  exchange HI Hopen Hid1 c1.
  assert (Hid2' : number_key (prop d2 "id")
                  = Some (messageId (Page.client (Page.set_client c1 w)) + 1)%Z).
  { rewrite client_set_client, Hm, Hid2. f_equal. lia. }
  split_and!.
  - intros e He. cbv zeta. destruct (Page.awaited d1) as [r1|e1].
    + rewrite He. cbn [Page.start fst snd]. by rewrite client_set_client.
    + injection He as <-. cbn [fst snd]. by rewrite client_set_client.
  - intros targetId e Ht1 He.
    destruct (Page.awaited d1) as [r1|e1]; [|done]. rewrite Ht1. cbv beta iota.
    exchange HI0 Ho Hid2' c2.
    rewrite set_client_set_client in *. rewrite !client_set_client in *.
    assert (sent (trace c2) = sent (trace (Page.client w)) ++
              [Page.command_frame (messageId (Page.client w) + 1) "Target.createTarget"
                 (obj [("url", JStr "about:blank")]) None;
               Page.command_frame (messageId (Page.client w) + 2) "Target.attachToTarget"
                 (Page.literal [("targetId", targetId); ("flatten", Some (JBool true))])
                 None]) as Hsent.
    { rewrite Hs0, Hs, Hm, <- app_assoc. simpl.
      by replace (messageId (Page.client w) + 1 + 1)%Z
        with (messageId (Page.client w) + 2)%Z by lia. }
    cbv zeta. destruct (Page.awaited d2) as [r2|e2].
    + rewrite He. cbn [Page.start fst snd]. by rewrite client_set_client.
    + injection He as <-. cbn [fst snd]. by rewrite client_set_client.
  - intros targetId sessionId e Ht1 Ht2 He.
    destruct (Page.awaited d1) as [r1|e1]; [|done]. rewrite Ht1. cbv beta iota.
    exchange HI0 Ho Hid2' c2.
    destruct (Page.awaited d2) as [r2|e2]; [|done]. rewrite Ht2. cbv beta iota.
    rewrite set_client_set_client in *. rewrite !client_set_client in *.
    assert (Hid3' : number_key (prop d3 "id")
                    = Some (messageId (Page.client (Page.set_client c2 w)) + 1)%Z).
    { rewrite client_set_client, Hm0, Hm, Hid3. f_equal. lia. }
    exchange HI1 Ho0 Hid3' c3. rewrite He. cbv zeta. cbn [fst snd].
    rewrite !client_set_client in *. split; [done|].
    rewrite Hs1, Hs0, Hs, Hm0, Hm, <- !app_assoc. simpl.
    replace (messageId (Page.client w) + 1 + 1)%Z with (messageId (Page.client w) + 2)%Z
      by lia.
    by replace (messageId (Page.client w) + 2 + 1)%Z with (messageId (Page.client w) + 3)%Z
      by lia.
Qed.

Lemma newPage_stops_at_first_failure_witness :
  let refused := obj [("id", JNum 2);
                      ("error", obj [("message", JStr "No target with given id found")])] in
  reachable (Page.client open_world) ∧ readyState (Page.client open_world) = OPEN ∧
  Page.taken created_reply "targetId" = Returns (Some (JStr "t1")) ∧
  Page.taken refused "sessionId"
    = Throws (data (obj [("message", JStr "No target with given id found")])) ∧
  (Page.play [Page.Frame (Parsed created_reply); Page.Frame (Parsed refused)]
             (Page.start Page.newPage open_world)).1
  = Page.Failed (data (obj [("message", JStr "No target with given id found")])).
Proof.
  intros refused.
  assert (Hr : reachable (Page.client open_world))
    by (by exists "ws://devtools/test", [SocketOpen]).
  split; [exact Hr|]. do 3 (split; [reflexivity|]).
  destruct (newPage_stops_at_first_failure open_world created_reply refused enabled_reply
              Hr eq_refl eq_refl eq_refl eq_refl) as (_ & H2 & _).
  exact (proj1 (H2 _ _ eq_refl eq_refl)).
Defined.

(** ** Suspension and resumption *)

Lemma start_await_open {A : Type} method params sessionId
    (k : option json → Page.Script A) w :
  Inv (Page.client w) → readyState (Page.client w) = OPEN →
  let r := Page.sendCommand_untyped method params sessionId (Page.client w) in
  Page.start (Page.AwaitCommand method params sessionId k) w =
  (Page.OnCommand r.1 k, Page.set_client r.2 w).
Proof.
  intros HI Hopen r.
  destruct (sendCommand_untyped_open method params sessionId _ HI Hopen)
    as (_ & _ & _ & _ & _ & _ & Hps). fold r in Hps.
  cbn [Page.start]. fold r. unfold Page.await_command.
  by rewrite client_set_client, Hps.
Qed.

Lemma start_await_not_open {A : Type} method params sessionId
    (k : option json → Page.Script A) w :
  Inv (Page.client w) → readyState (Page.client w) ≠ OPEN →
  let r := Page.sendCommand_untyped method params sessionId (Page.client w) in
  Page.start (Page.AwaitCommand method params sessionId k) w =
  (Page.Failed (ErrorObj "WebSocket is not open"), Page.set_client r.2 w).
Proof.
  intros HI Hopen r.
  destruct (sendCommand_untyped_not_open method params sessionId _ HI Hopen)
    as (_ & _ & _ & _ & _ & Hps). fold r in Hps.
  cbn [Page.start]. fold r. unfold Page.await_command.
  by rewrite client_set_client, Hps.
Qed.

(** The reply to the command a function is suspended on. *)
Lemma advance_reply {A : Type} p (k : option json → Page.Script A) w d id :
  Inv (Page.client w) → number_key (prop d "id") = Some id →
  pendingCommands (Page.client w) !! id = Some p →
  Page.advance (Page.OnCommand p k, w) (Page.Frame (Parsed d)) =
  match Page.awaited d with
  | Throws e => (Page.Failed e, Page.set_client (dispatch d (Page.client w)) w)
  | Returns result =>
      Page.start (k result) (Page.set_client (dispatch d (Page.client w)) w)
  end.
Proof.
  intros HI Hid Hp. unfold Page.advance. cbn [fst snd].
  rewrite (happen_reply w d id p) by done.
  cbn [Page.resume]. unfold Page.await_command. rewrite client_set_client.
  rewrite (dispatch_reply d _ id p) by done.
  unfold promise_state. rewrite trace_emit, settlements_snoc.
  change (trace (set_pendingCommands _ (Page.client w))) with (trace (Page.client w)).
  rewrite (inv_unsettled _ HI _ _ Hp). unfold Page.awaited.
  destruct (truthy (prop d "error")); simpl; rewrite bool_decide_eq_true_2 by done;
    simpl; [done|]. by rewrite json_of_prop.
Qed.

(** ** The navigation promise of goto *)

Lemma Set_add_fresh cb (s : list nat) : cb ∉ s → Set_add cb s = s ++ [cb].
Proof. intros H. unfold Set_add. by rewrite bool_decide_eq_false_2. Qed.

Lemma listeners_of_on c event cb :
  listeners_of (on event cb c) event = Set_add cb (listeners_of c event).
Proof.
  pose proof (listeners_of_step_plain c (DoOn event cb) event I) as H. simpl in H.
  by rewrite bool_decide_eq_true_2 in H.
Qed.

Lemma not_listening w event :
  Page.callbacks_known w →
  Page.next_callback w ∉ listeners_of (Page.client w) event.
Proof.
  intros Hk Hin. unfold listeners_of in Hin.
  destruct (eventListeners (Page.client w) !! event) as [l|] eqn:E.
  - pose proof (Hk event l _ E Hin). lia.
  - by apply elem_of_nil in Hin.
Qed.

(** What [goto] has done when it reaches its first [await], on a socket in
    any state: one navigation more, its timer set when the timeout is
    positive, and its listener last in the set of the load event. *)
Lemma new_navigation_facts timeout w :
  Inv (Page.client w) → Page.callbacks_known w →
  let r := Page.new_navigation timeout w in
  r.1 = Page.next_callback w ∧
  Inv (Page.client r.2) ∧
  Page.callbacks_known r.2 ∧
  Page.next_callback r.2 = S (Page.next_callback w) ∧
  readyState (Page.client r.2) = readyState (Page.client w) ∧
  messageId (Page.client r.2) = messageId (Page.client w) ∧
  pendingCommands (Page.client r.2) = pendingCommands (Page.client w) ∧
  trace (Page.client r.2) = trace (Page.client w) ∧
  listeners_of (Page.client r.2) "Page.loadEventFired" =
    listeners_of (Page.client w) "Page.loadEventFired" ++ [Page.next_callback w] ∧
  Page.navigations r.2 =
    <[Page.next_callback w :=
        Page.mkNavigation timeout (if (0 <? timeout)%Z then Page.Armed else Page.NoTimer) []]>
      (Page.navigations w).
Proof.
  intros HI Hk r. subst r. unfold Page.new_navigation. cbn [fst snd Page.client
    Page.next_callback Page.navigations].
  split_and!; try done.
  - by apply Inv_on.
  - intros event l cb. cbn [Page.client Page.next_callback].
    intros El Hin.
    assert (cb ∈ listeners_of (on "Page.loadEventFired" (Page.next_callback w)
                                 (Page.client w)) event) as Hin'
      by (unfold listeners_of; by rewrite El).
    pose proof (listeners_of_step_plain (Page.client w)
                  (DoOn "Page.loadEventFired" (Page.next_callback w)) event I) as Hs.
    simpl in Hs. rewrite Hs in Hin'. clear Hs.
    assert (Hold : ∀ cb', cb' ∈ listeners_of (Page.client w) event →
                          (cb' < S (Page.next_callback w))%nat).
    { intros cb' H'. unfold listeners_of in H'.
      destruct (eventListeners (Page.client w) !! event) as [l'|] eqn:E'.
      - pose proof (Hk event l' cb' E' H'). lia.
      - by apply elem_of_nil in H'. }
    case_bool_decide; [|by apply Hold].
    unfold Set_add in Hin'. case_bool_decide; [by apply Hold|].
    apply elem_of_app in Hin' as [H'|H']; [by apply Hold|].
    apply list_elem_of_singleton in H'. lia.
  - rewrite listeners_of_on. apply Set_add_fresh. by apply not_listening.
Qed.

Lemma fold_onPageLoad_keeps (rs : list nat) w :
  Page.client (foldl (fun w cb => Page.onPageLoad cb w) w rs) = Page.client w ∧
  Page.next_callback (foldl (fun w cb => Page.onPageLoad cb w) w rs) = Page.next_callback w.
Proof.
  revert w. induction rs as [|r rs IH]; intros w; [done|]. cbn [foldl].
  destruct (IH (Page.onPageLoad r w)) as [-> ->].
  unfold Page.onPageLoad. by destruct (Page.navigations w !! r).
Qed.

Lemma fold_onPageLoad_other (rs : list nat) ref w :
  ref ∉ rs →
  Page.navigations (foldl (fun w cb => Page.onPageLoad cb w) w rs) !! ref =
  Page.navigations w !! ref.
Proof.
  revert w. induction rs as [|r rs IH]; intros w Hnot; [done|]. cbn [foldl].
  apply not_elem_of_cons in Hnot as [Hne Hnot]. rewrite IH by done.
  unfold Page.onPageLoad. destruct (Page.navigations w !! r); [|done].
  cbn [Page.navigations]. by rewrite lookup_insert_ne.
Qed.

Lemma fold_calls (called : list nat) arg w :
  foldl (fun w (call : nat * value) => Page.onPageLoad call.1 w) w
        ((fun cb => (cb, arg)) <$> called) =
  foldl (fun w cb => Page.onPageLoad cb w) w called.
Proof. revert w. induction called as [|cb l IH]; intros w; [done|]. cbn. apply IH. Qed.

(** A load event in the world of a navigation whose listener is the last of
    the set: the client calls the listeners and is otherwise as before; the
    navigation promise is resolved and its timer, if pending, cleared. *)
Lemma happen_load w l old ref nav :
  Inv (Page.client w) →
  prop l "id" = undefined → prop l "method" = data (JStr "Page.loadEventFired") →
  listeners_of (Page.client w) "Page.loadEventFired" = old ++ [ref] → ref ∉ old →
  Page.navigations w !! ref = Some nav →
  let w' := Page.happen w (Page.Frame (Parsed l)) in
  Inv (Page.client w') ∧
  readyState (Page.client w') = readyState (Page.client w) ∧
  messageId (Page.client w') = messageId (Page.client w) ∧
  pendingCommands (Page.client w') = pendingCommands (Page.client w) ∧
  eventListeners (Page.client w') = eventListeners (Page.client w) ∧
  (∀ p, settlements p (trace (Page.client w')) = settlements p (trace (Page.client w))) ∧
  sent (trace (Page.client w')) = sent (trace (Page.client w)) ∧
  Page.next_callback w' = Page.next_callback w ∧
  Page.navigations w' !! ref =
    Some (Page.mkNavigation (Page.timeout nav)
            (match Page.timer nav with Page.Armed => Page.Cleared | t => t end)
            (Page.outcomes nav ++ [Fulfilled undefined])).
Proof.
  intros HI Hid Hm Hl Hnot Hnav w'. subst w'. set (c := Page.client w) in *.
  assert (Hls : eventListeners c !! "Page.loadEventFired" = Some (old ++ [ref])).
  { unfold listeners_of in Hl. destruct (eventListeners c !! "Page.loadEventFired") as [ls|].
    - simpl in Hl. by rewrite Hl.
    - simpl in Hl. by destruct old. }
  assert (Hon : onmessage (Parsed l) c =
                forEach_call (prop l "params") (old ++ [ref]) c).
  { assert (onmessage (Parsed l) c = dispatch l c) as ->
      by (destruct l; try done; by rewrite Hm in *).
    rewrite dispatch_event by (by rewrite Hid).
    rewrite Hm. simpl. unfold listeners_get. simpl. by rewrite Hls. }
  assert (Hhappen : Page.happen w (Page.Frame (Parsed l)) =
            foldl (fun w cb => Page.onPageLoad cb w)
                  (Page.set_client (forEach_call (prop l "params") (old ++ [ref]) c) w)
                  (old ++ [ref])).
  { unfold Page.happen. fold c. rewrite Hon. cbv zeta.
    assert (calls (trace (forEach_call (prop l "params") (old ++ [ref]) c)) =
            calls (trace c) ++ ((fun cb => (cb, prop l "params")) <$> (old ++ [ref])))
      as ->.
    { rewrite forEach_call_unfold. cbn [trace]. unfold calls. rewrite omap_app.
      f_equal. apply calls_forEach. }
    by rewrite drop_app_length, fold_calls. }
  rewrite Hhappen. clear Hhappen Hon.
  pose proof (Inv_forEach_call (prop l "params") (old ++ [ref]) c HI) as HI'.
  pose proof (forEach_call_unfold (prop l "params") (old ++ [ref]) c) as Hun.
  set (cL := forEach_call (prop l "params") (old ++ [ref]) c) in *.
  destruct (fold_onPageLoad_keeps (old ++ [ref]) (Page.set_client cL w)) as [Hc Hn].
  rewrite Hc, Hn, client_set_client.
  split_and!; try done; try by rewrite Hun.
  - intros p. rewrite Hun. cbn [trace].
    by rewrite settlements_app, settlements_calls, app_nil_r.
  - rewrite Hun. cbn [trace]. unfold sent. rewrite omap_app.
    assert (omap is_send ((fun cb => Call cb (prop l "params")) <$> (old ++ [ref])) = [])
      as -> by (generalize (old ++ [ref]); intros ls; induction ls; simpl; auto).
    by rewrite app_nil_r.
  - rewrite foldl_app. cbn [foldl].
    assert (Hnav' : Page.navigations (foldl (fun w cb => Page.onPageLoad cb w)
                                            (Page.set_client cL w) old) !! ref
                    = Some nav).
    { by rewrite fold_onPageLoad_other. }
    unfold Page.onPageLoad at 1. rewrite Hnav'. cbn [Page.navigations].
    by rewrite lookup_insert_eq.
Qed.

(** ** goto *)

(** [goto] up to its first [await], on an open socket: the navigation promise
    is made, then [Page.navigate] is sent, and the function waits for the
    reply. *)
Lemma goto_started w page url timeout :
  Inv (Page.client w) → readyState (Page.client w) = OPEN → Page.callbacks_known w →
  let T := default 30000%Z timeout in
  let ref := Page.next_callback w in
  ∃ p wS,
    Page.start (Page.goto page url timeout) w =
      (Page.OnCommand p (fun _ => Page.AwaitNavigation ref (Page.Done tt)), wS) ∧
    Inv (Page.client wS) ∧ readyState (Page.client wS) = OPEN ∧
    messageId (Page.client wS) = (messageId (Page.client w) + 1)%Z ∧
    pendingCommands (Page.client wS) =
      <[(messageId (Page.client w) + 1)%Z := p]> (pendingCommands (Page.client w)) ∧
    promise_state p (trace (Page.client wS)) = None ∧
    sent (trace (Page.client wS)) =
      sent (trace (Page.client w)) ++
      [Page.command_frame (messageId (Page.client w) + 1) "Page.navigate"
         (obj [("url", JStr url)]) (Page.sessionId page)] ∧
    listeners_of (Page.client wS) "Page.loadEventFired" =
      listeners_of (Page.client w) "Page.loadEventFired" ++ [ref] ∧
    (ref ∉ listeners_of (Page.client w) "Page.loadEventFired") ∧
    Page.navigations wS !! ref =
      Some (Page.mkNavigation T (if (0 <? T)%Z then Page.Armed else Page.NoTimer) []).
Proof.
  intros HI Hopen Hk T ref.
  destruct (new_navigation_facts T w HI Hk)
    as (Hr & HI1 & Hk1 & Hn1 & Ho1 & Hm1 & Hp1 & Ht1 & Hl1 & Hnav1).
  set (w1 := (Page.new_navigation T w).2) in *.
  rewrite Hopen in Ho1.
  destruct (sendCommand_untyped_open "Page.navigate" (obj [("url", JStr url)])
              (Page.sessionId page) _ HI1 Ho1) as (Hp & Hm & Ho & Hl & Hpe & Htr & Hps).
  pose proof (Inv_sendCommand_untyped "Page.navigate" (obj [("url", JStr url)])
                (Page.sessionId page) _ HI1) as HI2.
  pose proof (start_await_open "Page.navigate" (obj [("url", JStr url)])
                (Page.sessionId page)
                (fun _ : option json => Page.AwaitNavigation ref (Page.Done tt))
                w1 HI1 Ho1) as Hstart.
  cbv zeta in Hstart.
  set (r := Page.sendCommand_untyped "Page.navigate" (obj [("url", JStr url)])
              (Page.sessionId page) (Page.client w1)) in *.
  exists r.1, (Page.set_client r.2 w1).
  rewrite client_set_client.
  split_and!.
  - unfold Page.goto. cbn [Page.start]. exact Hstart.
  - exact HI2.
  - exact Ho.
  - by rewrite Hm, Hm1.
  - by rewrite Hpe, Hm1, Hp1.
  - exact Hps.
  - rewrite Htr, sent_snoc, Ht1, Hm1. done.
  - unfold listeners_of in *. by rewrite Hl.
  - by apply not_listening.
  - cbn [Page.set_client Page.navigations]. rewrite Hnav1. by rewrite lookup_insert_eq.
Qed.

(** [goto page url options] on an open socket, up to its first [await]:
    the listener of [Page.loadEventFired] is registered last in its set, the
    timer is set when the timeout (30000 when the option is absent) is
    positive and only then, and [Page.navigate] is sent with the url and the
    session of the page; the function then waits for the reply. *)
Theorem goto_registers_then_navigates w page url timeout :
  reachable (Page.client w) → readyState (Page.client w) = OPEN →
  Page.callbacks_known w →
  let T := default 30000%Z timeout in
  let rw := Page.start (Page.goto page url timeout) w in
  (∃ p k, rw.1 = Page.OnCommand p k ∧
          pendingCommands (Page.client rw.2) !! (messageId (Page.client w) + 1)%Z = Some p) ∧
  sent (trace (Page.client rw.2)) =
    sent (trace (Page.client w)) ++
    [Page.command_frame (messageId (Page.client w) + 1) "Page.navigate"
       (obj [("url", JStr url)]) (Page.sessionId page)] ∧
  listeners_of (Page.client rw.2) "Page.loadEventFired" =
    listeners_of (Page.client w) "Page.loadEventFired" ++ [Page.next_callback w] ∧
  Page.navigations rw.2 !! Page.next_callback w =
    Some (Page.mkNavigation T (if (0 <? T)%Z then Page.Armed else Page.NoTimer) []).
Proof.
  intros HI%reachable_Inv Hopen Hk T rw. subst rw.
  destruct (goto_started w page url timeout HI Hopen Hk)
    as (p & wS & -> & _ & _ & _ & Hpe & _ & Hs & Hl & _ & Hnav).
  cbn [fst snd]. split_and!.
  - exists p, (fun _ => Page.AwaitNavigation (Page.next_callback w) (Page.Done tt)).
    split; [done|]. rewrite Hpe. apply lookup_insert_eq.
  - exact Hs.
  - exact Hl.
  - exact Hnav.
Qed.

Lemma open_world_known : Page.callbacks_known open_world.
Proof.
  intros event l cb H.
  change (eventListeners (Page.client open_world)) with (∅ : gmap string (list Callback)) in H.
  by rewrite lookup_empty in H.
Qed.

Lemma goto_registers_then_navigates_witness :
  reachable (Page.client open_world) ∧ readyState (Page.client open_world) = OPEN ∧
  Page.callbacks_known open_world ∧
  sent (trace (Page.client
                 (Page.start (Page.goto attached_page "https://example.com" None)
                             open_world).2)) =
    [obj [("id", JNum 1); ("method", JStr "Page.navigate");
          ("params", obj [("url", JStr "https://example.com")]);
          ("sessionId", JStr "s1")]].
Proof.
  assert (Hr : reachable (Page.client open_world))
    by (by exists "ws://devtools/test", [SocketOpen]).
  split; [exact Hr|]. split; [reflexivity|]. split; [exact open_world_known|].
  exact (proj1 (proj2 (goto_registers_then_navigates open_world attached_page
                         "https://example.com" None Hr eq_refl open_world_known))).
Defined.

(** The function waits for the load event once the reply has come. *)
Lemma goto_replied w page url timeout reply result :
  Inv (Page.client w) → readyState (Page.client w) = OPEN → Page.callbacks_known w →
  number_key (prop reply "id") = Some (messageId (Page.client w) + 1)%Z →
  Page.awaited reply = Returns result →
  let T := default 30000%Z timeout in
  let ref := Page.next_callback w in
  ∃ wA,
    Page.advance (Page.start (Page.goto page url timeout) w) (Page.Frame (Parsed reply)) =
      (Page.OnNavigation ref (Page.Done tt), wA) ∧
    Inv (Page.client wA) ∧
    pendingCommands (Page.client wA) = pendingCommands (Page.client w) ∧
    listeners_of (Page.client wA) "Page.loadEventFired" =
      listeners_of (Page.client w) "Page.loadEventFired" ++ [ref] ∧
    (ref ∉ listeners_of (Page.client w) "Page.loadEventFired") ∧
    Page.navigations wA !! ref =
      Some (Page.mkNavigation T (if (0 <? T)%Z then Page.Armed else Page.NoTimer) []).
Proof.
  intros HI Hopen Hk Hid Hret T ref.
  destruct (goto_started w page url timeout HI Hopen Hk)
    as (p & wS & -> & HIS & HoS & HmS & Hpe & Hps & Hs & Hl & Hnot & Hnav).
  fold T ref in Hnav, Hl, Hnot |- *.
  assert (Hlook : pendingCommands (Page.client wS) !! (messageId (Page.client w) + 1)%Z
                  = Some p) by (rewrite Hpe; apply lookup_insert_eq).
  rewrite (advance_reply p _ wS reply _ HIS Hid Hlook), Hret.
  set (wA := Page.set_client (dispatch reply (Page.client wS)) wS).
  exists wA. split_and!.
  - cbn [Page.start]. unfold Page.await_navigation, Page.navigation_state.
    change (Page.navigations wA) with (Page.navigations wS). by rewrite Hnav.
  - apply Inv_dispatch, HIS.
  - subst wA. rewrite client_set_client, (dispatch_reply reply _ _ p HIS Hid Hlook).
    simpl. rewrite Hpe, delete_insert_eq. apply delete_id.
    destruct (pendingCommands (Page.client w) !! (messageId (Page.client w) + 1)%Z) eqn:E;
      [|done].
    apply (inv_keys _ HI) in E. lia.
  - subst wA. rewrite client_set_client. unfold listeners_of in *.
    by rewrite eventListeners_dispatch.
  - exact Hnot.
  - exact Hnav.
Qed.

(** The load event while the function still waits for the reply: the
    navigation promise is resolved, the command stays pending. *)
Lemma goto_loaded_first w page url timeout load :
  Inv (Page.client w) → readyState (Page.client w) = OPEN → Page.callbacks_known w →
  prop load "id" = undefined → prop load "method" = data (JStr "Page.loadEventFired") →
  let T := default 30000%Z timeout in
  let ref := Page.next_callback w in
  ∃ p wL,
    Page.advance (Page.start (Page.goto page url timeout) w) (Page.Frame (Parsed load)) =
      (Page.OnCommand p (fun _ => Page.AwaitNavigation ref (Page.Done tt)), wL) ∧
    Inv (Page.client wL) ∧
    pendingCommands (Page.client wL) =
      <[(messageId (Page.client w) + 1)%Z := p]> (pendingCommands (Page.client w)) ∧
    listeners_of (Page.client wL) "Page.loadEventFired" =
      listeners_of (Page.client w) "Page.loadEventFired" ++ [ref] ∧
    Page.navigations wL !! ref =
      Some (Page.mkNavigation T (if (0 <? T)%Z then Page.Cleared else Page.NoTimer)
              [Fulfilled undefined]).
Proof.
  intros HI Hopen Hk Hid Hm T ref.
  destruct (goto_started w page url timeout HI Hopen Hk)
    as (p & wS & -> & HIS & HoS & HmS & Hpe & Hps & Hs & Hl & Hnot & Hnav).
  fold T ref in Hnav, Hl, Hnot |- *.
  destruct (happen_load wS load _ ref _ HIS Hid Hm Hl Hnot Hnav)
    as (HIL & _ & _ & HpL & HlL & HsL & _ & _ & HnavL).
  set (wL := Page.happen wS (Page.Frame (Parsed load))) in *.
  exists p, wL. split_and!.
  - unfold Page.advance. cbn [fst snd]. fold wL. cbn [Page.resume].
    unfold Page.await_command, promise_state in *. by rewrite HsL, Hps.
  - exact HIL.
  - by rewrite HpL.
  - unfold listeners_of in *. by rewrite HlL.
  - rewrite HnavL. cbn [Page.timeout Page.timer Page.outcomes]. by destruct (0 <? T)%Z.
Qed.

(** Where [goto] alone listens for the load event, it returns once both
    the reply to [Page.navigate] and a load event have come, in either
    order; the load event of any session will do.  The timer is cleared by
    then, so that it never fires; the listener stays registered. *)
Theorem goto_finishes_on_load w page url timeout reply result load evs :
  reachable (Page.client w) → readyState (Page.client w) = OPEN →
  Page.callbacks_known w → Page.only_navigations w →
  number_key (prop reply "id") = Some (messageId (Page.client w) + 1)%Z →
  Page.awaited reply = Returns result →
  prop load "id" = undefined → prop load "method" = data (JStr "Page.loadEventFired") →
  evs = [Page.Frame (Parsed reply); Page.Frame (Parsed load)] ∨
  evs = [Page.Frame (Parsed load); Page.Frame (Parsed reply)] →
  let T := default 30000%Z timeout in
  let ref := Page.next_callback w in
  let rw := Page.play evs (Page.start (Page.goto page url timeout) w) in
  rw.1 = Page.Finished tt ∧
  Page.navigations rw.2 !! ref =
    Some (Page.mkNavigation T (if (0 <? T)%Z then Page.Cleared else Page.NoTimer)
            [Fulfilled undefined]) ∧
  Page.happen rw.2 (Page.TimerFires ref) = rw.2 ∧
  listeners_of (Page.client rw.2) "Page.loadEventFired" =
    listeners_of (Page.client w) "Page.loadEventFired" ++ [ref] ∧
  pendingCommands (Page.client rw.2) = pendingCommands (Page.client w).
Proof.
  intros HI%reachable_Inv Hopen Hk _ Hid Hret Hlid Hlm Hevs T ref rw.
  assert (Hquiet : ∀ w', Page.navigations w' !! ref =
            Some (Page.mkNavigation T (if (0 <? T)%Z then Page.Cleared else Page.NoTimer)
                    [Fulfilled undefined]) →
          Page.happen w' (Page.TimerFires ref) = w').
  { intros w' H. cbn [Page.happen]. unfold Page.timer_fires. rewrite H.
    cbn [Page.timer]. by destruct (0 <? T)%Z. }
  subst rw. destruct Hevs as [-> | ->]; unfold Page.play; cbn [foldl].
  - destruct (goto_replied w page url timeout reply result HI Hopen Hk Hid Hret)
      as (wA & -> & HIA & HpA & HlA & Hnot & HnavA).
    fold T ref in HlA, Hnot, HnavA |- *.
    destruct (happen_load wA load _ ref _ HIA Hlid Hlm HlA Hnot HnavA)
      as (_ & _ & _ & HpL & HlL & _ & _ & _ & HnavL).
    unfold Page.advance. cbn [fst snd].
    set (wL := Page.happen wA (Page.Frame (Parsed load))) in *.
    assert (HnavL' : Page.navigations wL !! ref =
              Some (Page.mkNavigation T (if (0 <? T)%Z then Page.Cleared else Page.NoTimer)
                      [Fulfilled undefined])).
    { rewrite HnavL. cbn [Page.timeout Page.timer Page.outcomes]. by destruct (0 <? T)%Z. }
    assert (Hgo : Page.resume (Page.OnNavigation ref (Page.Done tt)) wL
                  = (Page.Finished tt, wL)).
    { cbn [Page.resume]. unfold Page.await_navigation, Page.navigation_state.
      by rewrite HnavL'. }
    rewrite Hgo. cbn [fst snd]. split_and!.
    + done.
    + exact HnavL'.
    + by apply Hquiet.
    + unfold listeners_of in *. by rewrite HlL.
    + by rewrite HpL.
  - destruct (goto_loaded_first w page url timeout load HI Hopen Hk Hlid Hlm)
      as (p & wL & -> & HIL & HpL & HlL & HnavL).
    fold T ref in HlL, HnavL |- *.
    assert (Hlook : pendingCommands (Page.client wL) !! (messageId (Page.client w) + 1)%Z
                    = Some p) by (rewrite HpL; apply lookup_insert_eq).
    rewrite (advance_reply p _ wL reply _ HIL Hid Hlook), Hret.
    set (wB := Page.set_client (dispatch reply (Page.client wL)) wL).
    assert (Hgo : Page.start (Page.AwaitNavigation ref (Page.Done tt)) wB
                  = (Page.Finished tt, wB)).
    { cbn [Page.start]. unfold Page.await_navigation, Page.navigation_state.
      change (Page.navigations wB) with (Page.navigations wL). by rewrite HnavL. }
    rewrite Hgo. cbn [fst snd]. split_and!.
    + done.
    + exact HnavL.
    + by apply Hquiet.
    + subst wB. rewrite client_set_client. unfold listeners_of in *.
      by rewrite eventListeners_dispatch.
    + subst wB. rewrite client_set_client, (dispatch_reply reply _ _ p HIL Hid Hlook).
      simpl. rewrite HpL, delete_insert_eq. apply delete_id.
      destruct (pendingCommands (Page.client w) !! (messageId (Page.client w) + 1)%Z) eqn:E;
        [|done].
      apply (inv_keys _ HI) in E. lia.
Qed.

Lemma navigated_world_facts :
  reachable (Page.client navigated_world) ∧
  Page.callbacks_known navigated_world ∧ Page.only_navigations navigated_world.
Proof.
  assert (Hmap : eventListeners (Page.client navigated_world)
                 = <["Page.loadEventFired" := [0%nat]]> ∅) by (vm_compute; reflexivity).
  assert (Hnext : Page.next_callback navigated_world = 1%nat) by (vm_compute; reflexivity).
  assert (Hnav : is_Some (Page.navigations navigated_world !! 0%nat))
    by (vm_compute; by eexists).
  split_and!.
  - exists "ws://devtools/test",
      [SocketOpen; DoOn "Page.loadEventFired" 0;
       DoSendCommand "Page.navigate" (Some (obj [("url", JStr "https://example.com")]))
         (Some "s1");
       SocketMessage (Parsed done_reply); SocketMessage (Parsed load_event)].
    vm_compute. reflexivity.
  - intros event l cb. rewrite Hmap, Hnext.
    intros [[_ <-]|[_ H]]%lookup_insert_Some.
    + intros ->%list_elem_of_singleton. lia.
    + by rewrite lookup_empty in H.
  - intros cb. unfold listeners_of. rewrite Hmap, lookup_insert_eq. simpl.
    by intros ->%list_elem_of_singleton.
Qed.

Lemma goto_finishes_on_load_witness :
  reachable (Page.client navigated_world) ∧
  readyState (Page.client navigated_world) = OPEN ∧
  Page.callbacks_known navigated_world ∧ Page.only_navigations navigated_world ∧
  listeners_of (Page.client navigated_world) "Page.loadEventFired" = [0%nat] ∧
  Page.awaited second_reply = Returns (Some (obj [])) ∧
  (Page.play [Page.Frame (Parsed load_event); Page.Frame (Parsed second_reply)]
             (Page.start (Page.goto attached_page "https://example.org" None)
                         navigated_world)).1 = Page.Finished tt.
Proof.
  destruct navigated_world_facts as (Hr & Hk & Hn).
  assert (Hopen : readyState (Page.client navigated_world) = OPEN)
    by (vm_compute; reflexivity).
  assert (Hid : number_key (prop second_reply "id")
                = Some (messageId (Page.client navigated_world) + 1)%Z)
    by (vm_compute; reflexivity).
  split; [exact Hr|]. split; [exact Hopen|]. split; [exact Hk|]. split; [exact Hn|].
  split; [vm_compute; reflexivity|]. split; [reflexivity|].
  exact (proj1 (goto_finishes_on_load navigated_world attached_page "https://example.org"
                  None second_reply (Some (obj [])) load_event _ Hr Hopen Hk Hn
                  Hid eq_refl eq_refl eq_refl (or_intror eq_refl))).
Defined.

(** When the timer fires after the reply and before any load event, [goto]
    throws the timeout error, which names the timeout (an integer up to
    [MAX_SAFE_INTEGER]); with a timeout that is not positive there is no
    timer, and [goto] goes on waiting.  The listener stays registered either
    way. *)
Theorem goto_times_out w page url timeout reply result :
  reachable (Page.client w) → readyState (Page.client w) = OPEN →
  Page.callbacks_known w →
  number_key (prop reply "id") = Some (messageId (Page.client w) + 1)%Z →
  Page.awaited reply = Returns result →
  (default 30000 timeout ≤ Page.MAX_SAFE_INTEGER)%Z →
  let T := default 30000%Z timeout in
  let ref := Page.next_callback w in
  let rw := Page.play [Page.Frame (Parsed reply); Page.TimerFires ref]
                      (Page.start (Page.goto page url timeout) w) in
  rw.1 = (if (0 <? T)%Z
          then Page.Failed (ErrorObj ("Navigation timeout of " +:+ pretty T +:+ " ms exceeded"))
          else Page.OnNavigation ref (Page.Done tt)) ∧
  listeners_of (Page.client rw.2) "Page.loadEventFired" =
    listeners_of (Page.client w) "Page.loadEventFired" ++ [ref].
Proof.
  intros HI%reachable_Inv Hopen Hk Hid Hret _ T ref rw. subst rw.
  unfold Page.play. cbn [foldl].
  destruct (goto_replied w page url timeout reply result HI Hopen Hk Hid Hret)
    as (wA & -> & HIA & HpA & HlA & Hnot & HnavA).
  fold T ref in HlA, Hnot, HnavA |- *.
  unfold Page.advance. cbn [fst snd Page.happen Page.resume].
  unfold Page.timer_fires, Page.await_navigation, Page.navigation_state.
  rewrite HnavA. cbn [Page.timer Page.timeout Page.outcomes].
  destruct (0 <? T)%Z.
  - cbn [Page.navigations]. rewrite lookup_insert_eq. simpl. done.
  - rewrite HnavA. simpl. done.
Qed.

Lemma goto_times_out_witness :
  reachable (Page.client open_world) ∧ readyState (Page.client open_world) = OPEN ∧
  Page.callbacks_known open_world ∧
  Page.awaited done_reply = Returns (Some (obj [])) ∧
  (500 ≤ Page.MAX_SAFE_INTEGER)%Z ∧
  (Page.play [Page.Frame (Parsed done_reply); Page.TimerFires 0]
             (Page.start (Page.goto attached_page "https://example.com" (Some 500%Z))
                         open_world)).1
  = Page.Failed (ErrorObj "Navigation timeout of 500 ms exceeded").
Proof.
  assert (Hr : reachable (Page.client open_world))
    by (by exists "ws://devtools/test", [SocketOpen]).
  split; [exact Hr|]. split; [reflexivity|]. split; [exact open_world_known|].
  split; [reflexivity|].
  assert (Hsafe : (500 ≤ Page.MAX_SAFE_INTEGER)%Z) by (unfold Page.MAX_SAFE_INTEGER; lia).
  split; [exact Hsafe|].
  exact (proj1 (goto_times_out open_world attached_page "https://example.com"
                  (Some 500%Z) done_reply (Some (obj [])) Hr eq_refl open_world_known
                  eq_refl eq_refl Hsafe)).
Defined.

(** When the reply to [Page.navigate] is an error, [goto] throws it and
    leaves behind what it had set up: the listener stays registered and the
    timer stays set, so that it still fires and rejects the navigation
    promise, which nothing awaits any more (with the timeout error, which
    names the timeout, an integer up to [MAX_SAFE_INTEGER]). *)
Theorem goto_navigate_refused w page url timeout reply e :
  reachable (Page.client w) → readyState (Page.client w) = OPEN →
  Page.callbacks_known w →
  number_key (prop reply "id") = Some (messageId (Page.client w) + 1)%Z →
  Page.awaited reply = Throws e →
  (default 30000 timeout ≤ Page.MAX_SAFE_INTEGER)%Z →
  let T := default 30000%Z timeout in
  let ref := Page.next_callback w in
  let rw := Page.play [Page.Frame (Parsed reply)]
                      (Page.start (Page.goto page url timeout) w) in
  rw.1 = Page.Failed e ∧
  listeners_of (Page.client rw.2) "Page.loadEventFired" =
    listeners_of (Page.client w) "Page.loadEventFired" ++ [ref] ∧
  Page.navigations rw.2 !! ref =
    Some (Page.mkNavigation T (if (0 <? T)%Z then Page.Armed else Page.NoTimer) []) ∧
  Page.navigation_state ref (Page.happen rw.2 (Page.TimerFires ref)) =
    (if (0 <? T)%Z
     then Some (Rejected (ErrorObj ("Navigation timeout of " +:+ pretty T +:+ " ms exceeded")))
     else None).
Proof.
  intros HI%reachable_Inv Hopen Hk Hid Hret _ T ref rw. subst rw.
  unfold Page.play. cbn [foldl].
  destruct (goto_started w page url timeout HI Hopen Hk)
    as (p & wS & -> & HIS & HoS & HmS & Hpe & Hps & Hs & Hl & Hnot & Hnav).
  fold T ref in Hnav, Hl, Hnot |- *.
  assert (Hlook : pendingCommands (Page.client wS) !! (messageId (Page.client w) + 1)%Z
                  = Some p) by (rewrite Hpe; apply lookup_insert_eq).
  rewrite (advance_reply p _ wS reply _ HIS Hid Hlook), Hret. cbn [fst snd].
  set (wA := Page.set_client (dispatch reply (Page.client wS)) wS).
  assert (HnavA : Page.navigations wA !! ref =
            Some (Page.mkNavigation T (if (0 <? T)%Z then Page.Armed else Page.NoTimer) []))
    by exact Hnav.
  split_and!.
  - done.
  - subst wA. rewrite client_set_client. unfold listeners_of in *.
    by rewrite eventListeners_dispatch.
  - exact HnavA.
  - cbn [Page.happen]. unfold Page.timer_fires, Page.navigation_state.
    rewrite HnavA. cbn [Page.timer Page.timeout Page.outcomes].
    destruct (0 <? T)%Z.
    + cbn [Page.navigations]. rewrite lookup_insert_eq. done.
    + by rewrite HnavA.
Qed.

Lemma goto_navigate_refused_witness :
  reachable (Page.client open_world) ∧ readyState (Page.client open_world) = OPEN ∧
  Page.callbacks_known open_world ∧
  Page.awaited refused_reply = Throws (prop refused_reply "error") ∧
  (30000 ≤ Page.MAX_SAFE_INTEGER)%Z ∧
  (Page.play [Page.Frame (Parsed refused_reply)]
             (Page.start (Page.goto attached_page "https://example.com" None)
                         open_world)).1
  = Page.Failed (prop refused_reply "error").
Proof.
  assert (Hr : reachable (Page.client open_world))
    by (by exists "ws://devtools/test", [SocketOpen]).
  split; [exact Hr|]. split; [reflexivity|]. split; [exact open_world_known|].
  split; [reflexivity|].
  assert (Hsafe : (30000 ≤ Page.MAX_SAFE_INTEGER)%Z)
    by (unfold Page.MAX_SAFE_INTEGER; lia).
  split; [exact Hsafe|].
  exact (proj1 (goto_navigate_refused open_world attached_page "https://example.com"
                  None refused_reply _ Hr eq_refl open_world_known eq_refl eq_refl Hsafe)).
Defined.

(** ** closePage, and the page functions on a socket that is not open *)

(** [closePage] sends [Target.closeTarget] with the [targetId] of the page
    and without session, also when the page has one; it returns when the
    reply comes, whatever its result, and throws the error of a reply that
    has one. *)
Theorem closePage_closes_target w page reply :
  reachable (Page.client w) → readyState (Page.client w) = OPEN →
  number_key (prop reply "id") = Some (messageId (Page.client w) + 1)%Z →
  let rw := Page.play [Page.Frame (Parsed reply)] (Page.start (Page.closePage page) w) in
  rw.1 = match Page.awaited reply with
         | Throws e => Page.Failed e
         | Returns _ => Page.Finished tt
         end ∧
  sent (trace (Page.client rw.2)) =
    sent (trace (Page.client w)) ++
    [obj [("id", JNum (messageId (Page.client w) + 1)); ("method", JStr "Target.closeTarget");
          ("params", Page.literal [("targetId", Page.targetId page)])]] ∧
  pendingCommands (Page.client rw.2) = pendingCommands (Page.client w).
Proof.
  intros HI%reachable_Inv Hopen Hid rw. subst rw.
  unfold Page.play. cbn [foldl]. unfold Page.closePage.
  exchange HI Hopen Hid c1.
  destruct (Page.awaited reply) as [r|e]; cbn [Page.start fst snd];
    rewrite ?client_set_client; by rewrite Hs, Hp.
Qed.

Lemma closePage_closes_target_witness :
  reachable (Page.client open_world) ∧ readyState (Page.client open_world) = OPEN ∧
  sent (trace (Page.client
                 (Page.play [Page.Frame (Parsed done_reply)]
                            (Page.start (Page.closePage attached_page) open_world)).2)) =
  [obj [("id", JNum 1); ("method", JStr "Target.closeTarget");
        ("params", obj [("targetId", JStr "t1")])]].
Proof.
  assert (Hr : reachable (Page.client open_world))
    by (by exists "ws://devtools/test", [SocketOpen]).
  split; [exact Hr|]. split; [reflexivity|].
  exact (proj1 (proj2 (closePage_closes_target open_world attached_page done_reply
                         Hr eq_refl eq_refl))).
Defined.

(** On a socket that is not open the page functions throw "WebSocket is not
    open" at their first command, and no frame is sent.  [goto] has by then
    registered its listener and set its timer, and leaves both behind. *)
Theorem page_functions_need_open_socket w page url timeout :
  reachable (Page.client w) → readyState (Page.client w) ≠ OPEN →
  Page.callbacks_known w →
  let T := default 30000%Z timeout in
  let not_open := ErrorObj "WebSocket is not open" in
  let rn := Page.start Page.newPage w in
  let rc := Page.start (Page.closePage page) w in
  let rg := Page.start (Page.goto page url timeout) w in
  (rn.1 = Page.Failed not_open ∧ sent (trace (Page.client rn.2)) = sent (trace (Page.client w))) ∧
  (rc.1 = Page.Failed not_open ∧ sent (trace (Page.client rc.2)) = sent (trace (Page.client w))) ∧
  (rg.1 = Page.Failed not_open ∧ sent (trace (Page.client rg.2)) = sent (trace (Page.client w))) ∧
  listeners_of (Page.client rg.2) "Page.loadEventFired" =
    listeners_of (Page.client w) "Page.loadEventFired" ++ [Page.next_callback w] ∧
  Page.navigations rg.2 !! Page.next_callback w =
    Some (Page.mkNavigation T (if (0 <? T)%Z then Page.Armed else Page.NoTimer) []).
Proof.
  intros HI%reachable_Inv Hopen Hk T not_open rn rc rg. subst rn rc rg not_open.
  assert (Hg : Page.start (Page.goto page url timeout) w =
               Page.start (Page.AwaitCommand "Page.navigate" (obj [("url", JStr url)])
                             (Page.sessionId page)
                             (fun _ => Page.AwaitNavigation (Page.new_navigation T w).1
                                         (Page.Done tt)))
                          (Page.new_navigation T w).2) by reflexivity.
  assert (Hfacts :
    let rg := Page.start (Page.AwaitCommand "Page.navigate" (obj [("url", JStr url)])
                            (Page.sessionId page)
                            (fun _ => Page.AwaitNavigation (Page.new_navigation T w).1
                                        (Page.Done tt)))
                         (Page.new_navigation T w).2 in
    rg.1 = Page.Failed (ErrorObj "WebSocket is not open") ∧
    sent (trace (Page.client rg.2)) = sent (trace (Page.client w)) ∧
    listeners_of (Page.client rg.2) "Page.loadEventFired" =
      listeners_of (Page.client w) "Page.loadEventFired" ++ [Page.next_callback w] ∧
    Page.navigations rg.2 !! Page.next_callback w =
      Some (Page.mkNavigation T (if (0 <? T)%Z then Page.Armed else Page.NoTimer) [])).
  { destruct (new_navigation_facts T w HI Hk)
      as (Hr & HI1 & _ & _ & Ho1 & _ & _ & Ht1 & Hl1 & Hnav1).
    assert (Hopen1 : readyState (Page.client (Page.new_navigation T w).2) ≠ OPEN)
      by (by rewrite Ho1).
    rewrite start_await_not_open by done.
    destruct (sendCommand_untyped_not_open "Page.navigate" (obj [("url", JStr url)])
                (Page.sessionId page) _ HI1 Hopen1) as (_ & _ & Hl & _ & Hs & _).
    cbn [fst snd]. rewrite client_set_client. split_and!.
    - done.
    - by rewrite Hs, Ht1.
    - unfold listeners_of in *. by rewrite Hl.
    - cbn [Page.set_client Page.navigations]. rewrite Hnav1. by rewrite lookup_insert_eq. }
  cbv zeta in Hfacts.
  split_and!.
  - unfold Page.newPage. by rewrite start_await_not_open.
  - unfold Page.newPage. rewrite start_await_not_open by done.
    cbn [snd]. rewrite client_set_client.
    by destruct (sendCommand_untyped_not_open "Target.createTarget"
                   (obj [("url", JStr "about:blank")]) None _ HI Hopen)
      as (_ & _ & _ & _ & -> & _).
  - unfold Page.closePage. by rewrite start_await_not_open.
  - unfold Page.closePage. rewrite start_await_not_open by done.
    cbn [snd]. rewrite client_set_client.
    by destruct (sendCommand_untyped_not_open "Target.closeTarget"
                   (Page.literal [("targetId", Page.targetId page)]) None _ HI Hopen)
      as (_ & _ & _ & _ & -> & _).
  - rewrite Hg. exact (proj1 Hfacts).
  - rewrite Hg. exact (proj1 (proj2 Hfacts)).
  - rewrite Hg. exact (proj1 (proj2 (proj2 Hfacts))).
  - rewrite Hg. exact (proj2 (proj2 (proj2 Hfacts))).
Qed.

Lemma page_functions_need_open_socket_witness :
  let w := Page.mkWorld (createClient "ws://devtools/test") 0 ∅ in
  reachable (Page.client w) ∧ readyState (Page.client w) ≠ OPEN ∧
  Page.callbacks_known w ∧
  (Page.start Page.newPage w).1 = Page.Failed (ErrorObj "WebSocket is not open").
Proof.
  intros w.
  assert (Hr : reachable (Page.client w)) by (by exists "ws://devtools/test", []).
  assert (Hn : readyState (Page.client w) ≠ OPEN) by done.
  assert (Hk : Page.callbacks_known w).
  { intros event l cb H.
    change (eventListeners (Page.client w)) with (∅ : gmap string (list Callback)) in H.
    by rewrite lookup_empty in H. }
  split; [exact Hr|]. split; [exact Hn|]. split; [exact Hk|].
  exact (proj1 (proj1 (page_functions_need_open_socket w attached_page
                         "https://example.com" None Hr Hn Hk))).
Defined.

(** ** screenshot *)

Lemma fill_length {B : Type} (f : nat → B) (indices : list nat) (l : list B) :
  length (foldl (fun l i => <[i := f i]> l) l indices) = length l.
Proof.
  revert l. induction indices as [|i indices IH]; intros l; [done|].
  cbn [foldl]. by rewrite IH, length_insert.
Qed.

Lemma fill_lookup {B : Type} (f : nat → B) (indices : list nat) (l : list B) j :
  (j < length l)%nat →
  foldl (fun l i => <[i := f i]> l) l indices !! j =
  if bool_decide (j ∈ indices) then Some (f j) else l !! j.
Proof.
  revert l. induction indices as [|i indices IH]; intros l Hj.
  - cbn [foldl]. rewrite bool_decide_eq_false_2; [done|]. apply not_elem_of_nil.
  - cbn [foldl]. rewrite IH by (by rewrite length_insert).
    destruct (decide (j = i)) as [->|Hne].
    + rewrite list_lookup_insert_eq by done.
      rewrite (bool_decide_eq_true_2 (i ∈ i :: indices)) by (apply elem_of_cons; by left).
      by case_bool_decide.
    + rewrite list_lookup_insert_ne by done.
      case_bool_decide as Hin.
      * rewrite bool_decide_eq_true_2; [done|]. apply elem_of_cons. by right.
      * rewrite bool_decide_eq_false_2; [done|].
        intros [?|?]%elem_of_cons; done.
Qed.

Lemma get_lookup (s : string) (i : nat) :
  String.get i s = list_ascii_of_string s !! i.
Proof.
  revert i. induction s as [|a s IH]; intros i; [by destruct i|].
  destruct i as [|i]; [done|]. simpl. apply IH.
Qed.

Lemma length_list_ascii (s : string) :
  length (list_ascii_of_string s) = String.length s.
Proof. induction s as [|a s IH]; simpl; [done|]. by rewrite IH. Qed.

(** The loop of [screenshot] copies the decoded string: byte [i] of the
    array is character [i] of the string. *)
Lemma u8arr_of_buffer (buffer : string) :
  Page.u8arr_of buffer = Ascii.byte_of_ascii <$> list_ascii_of_string buffer.
Proof.
  unfold Page.u8arr_of. apply list_eq. intros j.
  destruct (decide (j < String.length buffer)%nat) as [Hj|Hj].
  - rewrite fill_lookup by (by rewrite length_replicate).
    rewrite bool_decide_eq_true_2 by (apply elem_of_seq; lia).
    unfold Page.charCodeAt. rewrite get_lookup, list_lookup_fmap.
    destruct (list_ascii_of_string buffer !! j) eqn:E; [done|].
    apply lookup_ge_None in E. rewrite length_list_ascii in E. lia.
  - rewrite !(proj2 (lookup_ge_None _ _)); [done| |].
    + rewrite length_fmap, length_list_ascii. lia.
    + rewrite fill_length, length_replicate. lia.
Qed.

Lemma advance_failed {A : Type} (e : value) w ev :
  (Page.advance (Page.Failed e : Page.Running A, w) ev).1 = Page.Failed e.
Proof. by destruct ev. Qed.

Lemma play_failed {A : Type} (e : value) evs (rw : Page.Running A * Page.World) :
  rw.1 = Page.Failed e → (Page.play evs rw).1 = Page.Failed e.
Proof.
  revert rw. induction evs as [|ev evs IH]; intros [r w] Hr; [done|].
  simpl in Hr. subst r. unfold Page.play. cbn [foldl]. apply IH, advance_failed.
Qed.

(** [screenshot] sends one command, [Page.captureScreenshot], in the session
    of the page, with the format of the options ("png" when they name none)
    and the quality when the options have one.  When the reply holds [data]
    that [atob] decodes, the function asks to write, to the path of the
    options, the decoded characters as bytes, in their order; it returns
    when the file is written and throws what the write throws. *)
Theorem screenshot_captures_then_writes atob w page options reply encoded buffer :
  reachable (Page.client w) → readyState (Page.client w) = OPEN →
  number_key (prop reply "id") = Some (messageId (Page.client w) + 1)%Z →
  Page.taken reply "data" = Returns encoded →
  atob encoded = Returns buffer →
  let rw := Page.play [Page.Frame (Parsed reply)]
                      (Page.start (Page.screenshot atob page options) w) in
  rw.1 = Page.OnWriteFile (Page.path options)
           (Ascii.byte_of_ascii <$> list_ascii_of_string buffer) (Page.Done tt) ∧
  sent (trace (Page.client rw.2)) =
    sent (trace (Page.client w)) ++
    [Page.command_frame (messageId (Page.client w) + 1) "Page.captureScreenshot"
       (Page.literal [("format", Some (JStr (default "png" (Page.format options))));
                      ("quality", JNum <$> Page.quality options)])
       (Page.sessionId page)] ∧
  (Page.advance rw Page.FileWritten).1 = Page.Finished tt ∧
  (∀ e, (Page.advance rw (Page.WriteFails e)).1 = Page.Failed e).
Proof.
  intros HI%reachable_Inv Hopen Hid Ht Hatob rw. subst rw.
  unfold Page.play. cbn [foldl]. unfold Page.screenshot, Page.taken in *.
  exchange HI Hopen Hid c1.
  destruct (Page.awaited reply) as [r|e0]; [|done]. rewrite Ht, Hatob.
  cbn [Page.start fst snd]. rewrite client_set_client, u8arr_of_buffer.
  split_and!; [done|exact Hs|done|done].
Qed.

Lemma screenshot_captures_then_writes_witness :
  let options := Page.mkScreenshotOptions "shot.png" None None in
  let rw := Page.play [Page.Frame (Parsed shot_reply)]
                      (Page.start (Page.screenshot atob_hi attached_page options)
                                  open_world) in
  reachable (Page.client open_world) ∧ readyState (Page.client open_world) = OPEN ∧
  Page.taken shot_reply "data" = Returns (Some (JStr "aGk=")) ∧
  atob_hi (Some (JStr "aGk=")) = Returns "hi" ∧
  rw.1 = Page.OnWriteFile "shot.png" [Byte.x68; Byte.x69] (Page.Done tt) ∧
  sent (trace (Page.client rw.2)) =
    [obj [("id", JNum 1); ("method", JStr "Page.captureScreenshot");
          ("params", obj [("format", JStr "png")]); ("sessionId", JStr "s1")]].
Proof.
  intros options rw.
  assert (Hr : reachable (Page.client open_world))
    by (by exists "ws://devtools/test", [SocketOpen]).
  split; [exact Hr|]. do 3 (split; [reflexivity|]).
  pose proof (screenshot_captures_then_writes atob_hi open_world attached_page options
                shot_reply (Some (JStr "aGk=")) "hi" Hr eq_refl eq_refl eq_refl eq_refl)
    as (H1 & H2 & _).
  split; [exact H1|exact H2].
Defined.

(** [screenshot] writes nothing unless the reply holds data that decodes:
    on a reply with an error, on a reply whose result is missing or [null],
    and when [atob] throws, it throws that error, and whatever happens
    afterwards no write is asked for. *)
Theorem screenshot_writes_nothing_on_failure atob w page options reply e later :
  reachable (Page.client w) → readyState (Page.client w) = OPEN →
  number_key (prop reply "id") = Some (messageId (Page.client w) + 1)%Z →
  Page.taken reply "data" = Throws e ∨
  (∃ encoded, Page.taken reply "data" = Returns encoded ∧ atob encoded = Throws e) →
  (Page.play (Page.Frame (Parsed reply) :: later)
             (Page.start (Page.screenshot atob page options) w)).1 = Page.Failed e.
Proof.
  intros HI%reachable_Inv Hopen Hid Hfail.
  unfold Page.play. cbn [foldl]. apply play_failed.
  unfold Page.screenshot, Page.taken in *.
  exchange HI Hopen Hid c1.
  destruct (Page.awaited reply) as [r|e0].
  - destruct Hfail as [Ht | (encoded & Ht & Hatob)].
    + rewrite Ht. done.
    + rewrite Ht, Hatob. done.
  - destruct Hfail as [Ht | (encoded & Ht & _)]; [|done]. by injection Ht as ->.
Qed.

Lemma screenshot_writes_nothing_on_failure_witness :
  reachable (Page.client open_world) ∧ readyState (Page.client open_world) = OPEN ∧
  Page.taken refused_reply "data" = Throws (prop refused_reply "error") ∧
  (Page.play [Page.Frame (Parsed refused_reply); Page.FileWritten]
             (Page.start (Page.screenshot atob_hi attached_page
                            (Page.mkScreenshotOptions "shot.png" (Some "jpeg") (Some 80%Z)))
                         open_world)).1
  = Page.Failed (prop refused_reply "error").
Proof.
  assert (Hr : reachable (Page.client open_world))
    by (by exists "ws://devtools/test", [SocketOpen]).
  split; [exact Hr|]. do 2 (split; [reflexivity|]).
  exact (screenshot_writes_nothing_on_failure atob_hi open_world attached_page _
           refused_reply _ [Page.FileWritten] Hr eq_refl eq_refl (or_introl eq_refl)).
Defined.
